(** * dyn_mem: a first-fit, coalescing allocator over caller-supplied regions

    Shallow embedding of [src/dyn_mem/dyn_mem.c].

    Target: the ILP32 configuration of the specification's scenarios
    ([A = 4], [H = 8]): pointers and [size_t] are 32 bits wide, so
    [sizeof(mem_block_t) = 8].  Unsigned arithmetic wraps modulo [2^32].

    Memory is a flat, byte-addressed store; a word is four consecutive bytes,
    least significant first.  Block headers live inside that store, exactly
    as in the C code: the field [next] of the block at address [b] is the
    word at [b], the field [size] is the word at [b + 4].  The static object
    [start_block] lives in the same store, at an address that is a parameter
    of the development, because the code takes its address and walks from it.
    The other statics are fields of the [state] record.

    Both loops of the code walk a linked list found in memory and need not
    terminate on an arbitrary store; the functions that contain them take a
    bound on the number of loop tests and return [None] when it is exceeded. *)

From Stdlib Require Import ZArith List Bool Lia.
Import ListNotations.
Local Open Scope Z_scope.

(* ------------------------------------------------------------------ *)
(** ** Machine words and memory *)

Definition word_bits : Z := 32.
Definition modulus : Z := 2 ^ word_bits.

(** Reduction of an integer to a [size_t] / pointer value. *)
Definition wrap (x : Z) : Z := x mod modulus.

Definition memory : Type := Z -> Z.

Definition load8 (m : memory) (a : Z) : Z := m a mod 256.

Definition store8 (m : memory) (a v : Z) : memory :=
  fun x => if x =? a then v mod 256 else m x.

Definition load32 (m : memory) (a : Z) : Z :=
  load8 m a + 256 * load8 m (a + 1)
  + 65536 * load8 m (a + 2) + 16777216 * load8 m (a + 3).

Definition store32 (m : memory) (a v : Z) : memory :=
  store8 (store8 (store8 (store8 m a v) (a + 1) (v / 256))
                 (a + 2) (v / 65536)) (a + 3) (v / 16777216).

(** [memset(dst, c, n)] and [memcpy(dst, src, n)] on non-overlapping ranges. *)
Definition memset (m : memory) (dst c n : Z) : memory :=
  fun x => if (dst <=? x) && (x <? dst + n) then c mod 256 else m x.

Definition memcpy (m : memory) (dst src n : Z) : memory :=
  fun x => if (dst <=? x) && (x <? dst + n) then m (src + (x - dst)) else m x.

(* ------------------------------------------------------------------ *)
(** ** Constants and macros of the source *)

Definition NULL : Z := 0.

Definition MEM_ALIGN_NUM : Z := 4.
Definition MEM_ALIGN_BITS : Z := wrap (MEM_ALIGN_NUM - 1).

(** [~x] on a [size_t]. *)
Definition wnot (x : Z) : Z := wrap (Z.lnot x).

Definition MEM_ALIGN (x : Z) : Z :=
  Z.land (wrap (x + MEM_ALIGN_BITS)) (wnot MEM_ALIGN_BITS).

Definition sizeof_mem_block_t : Z := 8.
Definition MEM_BLOCK_META_SIZE : Z := MEM_ALIGN sizeof_mem_block_t.

(** [CHAR_BIT], from [limits.h]. *)
Definition CHAR_BIT : Z := 8.
Definition sizeof_size_t : Z := 4.

(** The two fields of [mem_block_t], read and written in place. *)
Definition next_of (m : memory) (b : Z) : Z := load32 m b.
Definition size_of (m : memory) (b : Z) : Z := load32 m (b + 4).
Definition set_next (m : memory) (b v : Z) : memory := store32 m b v.
Definition set_size (m : memory) (b v : Z) : memory := store32 m (b + 4) v.

(** Modelled from the spec: [mem_region_t], declared in the header
    [dyn_mem/dyn_mem.h]; the specification gives it as
    [{ start_addr: byte pointer, size: word-sized unsigned }]. *)
Record mem_region_t : Type := mkRegion {
  start_addr : Z;
  size : Z
}.

(** The file-scope statics other than [start_block]. *)
Record state : Type := mkState {
  mem : memory;
  end_block : Z;
  mem_alloc_bit : Z;
  mem_available_bytes : Z;
  mem_regions_count : Z
}.

Definition with_mem (s : state) (m : memory) : state :=
  mkState m (end_block s) (mem_alloc_bit s)
          (mem_available_bytes s) (mem_regions_count s).

(** Statics are zero-initialised; the rest of memory holds anything. *)
Definition pristine (m : memory) : state := mkState m NULL 0 0 0.

Section Allocator.

(** Address of the static object [start_block]. *)
Variable start_block : Z.

(* ------------------------------------------------------------------ *)
(** ** insert_free_block *)

(** The search loop
    [for (curr = &start_block; curr != NULL && curr->next < nb; curr = curr->next)]. *)
Fixpoint find_prev (fuel : nat) (m : memory) (nb curr : Z) : option Z :=
  match fuel with
  | O => None
  | S fuel' =>
      if negb (curr =? NULL) && (next_of m curr <? nb)
      then find_prev fuel' m nb (next_of m curr)
      else Some curr
  end.

(** The body after the loop, with [curr] the block found. *)
Definition link_free_block (eb : Z) (m : memory) (nb curr : Z) : memory :=
  let '(m, nb) :=
    if wrap (curr + size_of m curr) =? nb
    then (set_size m curr (wrap (size_of m curr + size_of m nb)), curr)
    else (m, nb) in
  let m :=
    if wrap (nb + size_of m nb) =? next_of m curr
    then
      if next_of m curr =? eb
      then set_next m nb eb
      else
        let m := set_size m nb
                   (wrap (size_of m nb + size_of m (next_of m curr))) in
        set_next m nb (next_of m (next_of m curr))
    else set_next m nb (next_of m curr) in
  if negb (curr =? nb) then set_next m curr nb else m.

Definition insert_free_block (fuel : nat) (s : state) (nb : Z) : option state :=
  match find_prev fuel (mem s) nb start_block with
  | None => None
  | Some curr => Some (with_mem s (link_free_block (end_block s) (mem s) nb curr))
  end.

(* ------------------------------------------------------------------ *)
(** ** mem_init *)

(** First loop: the regions must grow and must not overlap. *)
Fixpoint regions_grow (mem_start_addr mem_size : Z)
         (regions : list mem_region_t) : bool :=
  match regions with
  | [] => true
  | r :: rest =>
      if wrap (mem_start_addr + mem_size) >? start_addr r then false
      else regions_grow (start_addr r) (size r) rest
  end.

(** Start address and size of a region after the two alignment steps. *)
Definition align_region (r : mem_region_t) : Z * Z :=
  let mem_size := size r in
  let mem_start_addr := start_addr r in
  let '(mem_start_addr, mem_size) :=
    if negb (Z.land mem_start_addr MEM_ALIGN_BITS =? 0)
    then
      let a := wrap (mem_start_addr
                     + wrap (MEM_ALIGN_NUM - Z.land mem_start_addr MEM_ALIGN_BITS)) in
      (a, wrap (mem_size - wrap (a - start_addr r)))
    else (mem_start_addr, mem_size) in
  let mem_size :=
    if negb (Z.land mem_size MEM_ALIGN_BITS =? 0)
    then Z.land mem_size (wnot MEM_ALIGN_BITS)
    else mem_size in
  (mem_start_addr, mem_size).

(** One pass of the second loop. *)
Definition init_region (s : state) (r : mem_region_t) : state :=
  if size r <? wrap (MEM_BLOCK_META_SIZE + MEM_ALIGN_NUM) then s
  else
    let '(mem_start_addr, mem_size) := align_region r in
    if mem_size <? wrap (MEM_BLOCK_META_SIZE + MEM_ALIGN_NUM) then s
    else
      let m := mem s in
      let m :=
        if end_block s =? NULL
        then set_size (set_next m start_block mem_start_addr) start_block 0
        else m in
      let prev_end_block := end_block s in
      let eb := wrap (wrap (mem_start_addr + mem_size) - MEM_BLOCK_META_SIZE) in
      let m := set_next m eb NULL in
      let m := set_size m eb 0 in
      let first_block := mem_start_addr in
      let m := set_next m first_block eb in
      let m := set_size m first_block (wrap (mem_size - MEM_BLOCK_META_SIZE)) in
      let m :=
        if negb (prev_end_block =? NULL)
        then set_next m prev_end_block first_block
        else m in
      mkState m eb (mem_alloc_bit s)
              (wrap (mem_available_bytes s + size_of m first_block))
              (wrap (mem_regions_count s + 1)).

Definition mem_init (s : state) (regions : list mem_region_t) : state * Z :=
  if negb (end_block s =? NULL) then (s, 0)
  else if negb (regions_grow 0 0 regions) then (s, 0)
  else
    let s := fold_left init_region regions s in
    let s := mkState (mem s) (end_block s)
                     (wrap (Z.shiftl 1 (sizeof_size_t * CHAR_BIT - 1)))
                     (mem_available_bytes s) (mem_regions_count s) in
    (s, mem_regions_count s).

Definition mem_assignmem (s : state) (regions : list mem_region_t) : state * Z :=
  mem_init s regions.

(* ------------------------------------------------------------------ *)
(** ** mem_malloc *)

(** The first-fit loop.  [Some None] is the [return NULL] inside the loop,
    [Some (Some (prev, curr))] the exit with a block that is large enough. *)
Fixpoint first_fit (fuel : nat) (m : memory) (eb size prev curr : Z)
  : option (option (Z * Z)) :=
  match fuel with
  | O => None
  | S fuel' =>
      if size_of m curr <? size
      then
        if (next_of m curr =? NULL) || (curr =? eb) then Some None
        else first_fit fuel' m eb size curr (next_of m curr)
      else Some (Some (prev, curr))
  end.

(** The code after the loop: unlink, split, mark, account. *)
Definition take_block (fuel : nat) (s : state) (size prev curr : Z)
  : option (state * Z) :=
  let m := mem s in
  let retval := wrap (next_of m prev + MEM_BLOCK_META_SIZE) in
  let m := set_next m prev (next_of m curr) in
  let s := with_mem s m in
  let after_split :=
    if wrap (size_of m curr - size) >? wrap (2 * MEM_BLOCK_META_SIZE)
    then
      let next := wrap (curr + size) in
      let m := set_size m next (wrap (size_of m curr - size)) in
      let m := set_size m curr size in
      insert_free_block fuel (with_mem s m) next
    else Some s in
  match after_split with
  | None => None
  | Some s =>
      let m := mem s in
      let m := set_size m curr (Z.lor (size_of m curr) (mem_alloc_bit s)) in
      let m := set_next m curr NULL in
      Some (mkState m (end_block s) (mem_alloc_bit s)
                    (wrap (mem_available_bytes s - size))
                    (mem_regions_count s),
            retval)
  end.

Definition mem_malloc (fuel : nat) (s : state) (size : Z) : option (state * Z) :=
  if (end_block s =? NULL) || (size =? 0)
     || negb (Z.land size (mem_alloc_bit s) =? 0)
  then Some (s, NULL)
  else
    let size := wrap (MEM_ALIGN size + MEM_BLOCK_META_SIZE) in
    if negb (Z.land size (mem_alloc_bit s) =? 0) then Some (s, NULL)
    else
      let prev := start_block in
      let curr := next_of (mem s) prev in
      match first_fit fuel (mem s) (end_block s) size prev curr with
      | None => None
      | Some None => Some (s, NULL)
      | Some (Some (prev, curr)) => take_block fuel s size prev curr
      end.

(* ------------------------------------------------------------------ *)
(** ** mem_free, mem_calloc, mem_realloc *)

Definition mem_free (fuel : nat) (s : state) (ptr : Z) : option state :=
  if ptr =? NULL then Some s
  else
    let block := wrap (ptr - MEM_BLOCK_META_SIZE) in
    if negb (Z.land (size_of (mem s) block) (mem_alloc_bit s) =? 0)
       && (next_of (mem s) block =? NULL)
    then
      let m := set_size (mem s) block
                 (Z.land (size_of (mem s) block) (wnot (mem_alloc_bit s))) in
      let s := mkState m (end_block s) (mem_alloc_bit s)
                       (wrap (mem_available_bytes s + size_of m block))
                       (mem_regions_count s) in
      insert_free_block fuel s block
    else Some s.

Definition mem_calloc (fuel : nat) (s : state) (nitems size : Z)
  : option (state * Z) :=
  let size := wrap (size * nitems) in
  match mem_malloc fuel s size with
  | None => None
  | Some (s, ptr) =>
      if negb (ptr =? NULL)
      then Some (with_mem s (memset (mem s) ptr 0 size), ptr)
      else Some (s, ptr)
  end.

Definition mem_realloc (fuel : nat) (s : state) (ptr size : Z)
  : option (state * Z) :=
  if size =? 0 then
    if negb (ptr =? NULL)
    then match mem_free fuel s ptr with
         | None => None
         | Some s => Some (s, NULL)
         end
    else Some (s, NULL)
  else if ptr =? NULL then mem_malloc fuel s size
  else
    let old_size :=
      Z.land (size_of (mem s) (wrap (ptr - MEM_BLOCK_META_SIZE)))
             (wnot (mem_alloc_bit s)) in
    match mem_malloc fuel s size with
    | None => None
    | Some (s, new_ptr) =>
        if negb (new_ptr =? NULL)
        then
          let n := if old_size >? size then size else old_size in
          let s := with_mem s (memcpy (mem s) new_ptr ptr n) in
          match mem_free fuel s ptr with
          | None => None
          | Some s => Some (s, new_ptr)
          end
        else Some (s, new_ptr)
    end.

End Allocator.

(* ------------------------------------------------------------------ *)
(** ** The free list as a mathematical list *)

(** A block, as an address and the size stored in its header. *)
Definition node : Type := (Z * Z)%type.

(** [lseg m p L q]: following [next] links in [m] from [p] visits exactly
    the blocks of [L], with the sizes recorded there, and arrives at [q]. *)
Fixpoint lseg (m : memory) (p : Z) (L : list node) (q : Z) : Prop :=
  match L with
  | [] => p = q
  | n :: L' =>
      p = fst n /\ p <> NULL /\ size_of m p = snd n
      /\ lseg m (next_of m p) L' q
  end.

(** Bytes a block occupies: its header at least, even when its size field
    is zero (the sentinels). *)
Definition foot (n : node) : Z := Z.max MEM_BLOCK_META_SIZE (snd n).

(** [spaced lo L hi]: the blocks of [L] lie in [[lo, hi)] in strictly
    increasing address order and do not overlap. *)
Fixpoint spaced (lo : Z) (L : list node) (hi : Z) : Prop :=
  match L with
  | [] => lo <= hi
  | n :: L' => lo <= fst n /\ 0 <= snd n /\ spaced (fst n + foot n) L' hi
  end.

Definition sum_sizes (L : list node) : Z :=
  fold_right (fun n acc => snd n + acc) 0 L.

Definition sum_foots (L : list node) : Z :=
  fold_right (fun n acc => foot n + acc) 0 L.

(** The sum the specification's invariant 7 speaks of: [size - H] over the
    blocks of the list that are not sentinels (sentinels have size [0]). *)
Definition sum_payloads (L : list node) : Z :=
  fold_right (fun n acc =>
                (if snd n =? 0 then 0 else snd n - MEM_BLOCK_META_SIZE) + acc)
             0 L.

(** Two blocks that share no byte. *)
Definition apart (a b : node) : Prop :=
  fst a + foot a <= fst b \/ fst b + foot b <= fst a.

Fixpoint all_apart (Al : list node) : Prop :=
  match Al with
  | [] => True
  | n :: Al' => Forall (apart n) Al' /\ all_apart Al'
  end.

(** Addresses strictly increase along the list. *)
Fixpoint ascending (L : list node) : Prop :=
  match L with
  | [] => True
  | n :: L' => Forall (fun c => fst n < fst c) L' /\ ascending L'
  end.

(** *** Insertion with coalescing, on lists (specification section 4.3) *)

(** Right-merge: the block absorbs its right neighbour when they touch,
    unless that neighbour is the terminal sentinel [eb]. *)
Definition absorb_right (eb : Z) (n : node) (Q : list node) : list node :=
  match Q with
  | b :: Q' =>
      if (fst n + snd n =? fst b) && negb (fst b =? eb)
      then (fst n, snd n + snd b) :: Q'
      else n :: Q
  | [] => [n]
  end.

(** Left-merge: the last block below absorbs the new one when they touch. *)
Definition absorb_left (P : list node) (n : node) : list node * node :=
  match rev P with
  | c :: P' =>
      if fst c + snd c =? fst n
      then (rev P', (fst c, snd c + snd n))
      else (P, n)
  | [] => (P, n)
  end.

Definition below (a : Z) (n : node) : bool := fst n <? a.

Definition coalesce (eb : Z) (L : list node) (n : node) : list node :=
  let P := filter (below (fst n)) L in
  let Q := filter (fun c => negb (below (fst n) c)) L in
  let '(P', n') := absorb_left P n in
  P' ++ absorb_right eb n' Q.

(** The headers of the block at [x] and of [n] share no byte. *)
Definition hdr_off (x : Z) (n : node) : Prop :=
  x + 8 <= fst n \/ fst n + 8 <= x.

(** What [link_free_block] makes of the blocks [k] (found by the search),
    [n] (the new one) and the blocks after [k]. *)
Definition linked (eb : Z) (k n : node) (Q : list node) : list node :=
  if fst k + snd k =? fst n
  then absorb_right eb (fst k, snd k + snd n) Q
  else k :: absorb_right eb n Q.

(** The store [link_free_block] leaves, case by case. *)
Definition link_result (eb : Z) (m : memory) (nb sz k sk b sb q : Z) : memory :=
  let absorb := (nb + sz =? b) && negb (b =? eb) in
  if k + sk =? nb then
    let m1 := set_size m k (sk + sz) in
    if absorb then set_next (set_size m1 k (sk + sz + sb)) k q
    else set_next m1 k b
  else
    if absorb then set_next (set_next (set_size m nb (sz + sb)) nb q) k nb
    else set_next (set_next m nb b) k nb.

(** The size [mem_malloc] looks for: the request aligned, plus the header. *)
Definition need (sz : Z) : Z := wrap (MEM_ALIGN sz + MEM_BLOCK_META_SIZE).

(** The block [mem_malloc] leaves in [prev] when it stops on the block after
    the blocks [P]: the last of [P], or [start_block] when [P] is empty. *)
Definition prev_of (start : Z) (P : list node) : Z := last (map fst P) start.

(* ------------------------------------------------------------------ *)
(** ** Initialisation, in the words of the specification *)

(** A region as a range of the address space. *)
Definition in_space (r : mem_region_t) : Prop :=
  0 <= start_addr r /\ 0 <= size r /\ start_addr r + size r < modulus.

(** Some region starts below the end of the region just before it. *)
Inductive out_of_order : list mem_region_t -> Prop :=
| ooo_here (r1 r2 : mem_region_t) (l : list mem_region_t) :
    start_addr r2 < start_addr r1 + size r1 -> out_of_order (r1 :: r2 :: l)
| ooo_later (r : mem_region_t) (l : list mem_region_t) :
    out_of_order l -> out_of_order (r :: l).

Definition align_up (x : Z) : Z :=
  MEM_ALIGN_NUM * ((x + MEM_ALIGN_NUM - 1) / MEM_ALIGN_NUM).

Definition align_down (x : Z) : Z := MEM_ALIGN_NUM * (x / MEM_ALIGN_NUM).

(** Size of a region once its start is aligned upward and its size
    truncated downward. *)
Definition usable_size (r : mem_region_t) : Z :=
  align_down (size r - (align_up (start_addr r) - start_addr r)).

(** A region is skipped when its size, before or after alignment, is below
    [H + A]. *)
Definition skipped (r : mem_region_t) : bool :=
  (size r <? MEM_BLOCK_META_SIZE + MEM_ALIGN_NUM)
  || (usable_size r <? MEM_BLOCK_META_SIZE + MEM_ALIGN_NUM).

Definition regions_accepted (regions : list mem_region_t) : Z :=
  Z.of_nat (length (filter (fun r => negb (skipped r)) regions)).

(** The test by which [init_region] keeps a region, as the code makes it. *)
Definition kept (r : mem_region_t) : bool :=
  negb (size r <? wrap (MEM_BLOCK_META_SIZE + MEM_ALIGN_NUM))
  && negb (snd (align_region r) <? wrap (MEM_BLOCK_META_SIZE + MEM_ALIGN_NUM)).

Section Invariant.

Variable start_block : Z.

(** The free list of a state, as the code walks it from [start_block]. *)
Definition free_list (s : state) (L : list node) : Prop :=
  lseg (mem s) (next_of (mem s) start_block) L NULL.

(** The blocks the code can reach from [start_block]: the static itself,
    then the free list. *)
Definition chain (L : list node) : list node := (start_block, 0) :: L.

(** Structure of the free list: it ends with the terminal sentinel, its
    blocks are address-ordered between [lo] and [end_block + H], and the
    static [start_block] is a zero-sized header that shares no byte with
    them. *)
Record list_ok (lo : Z) (s : state) (L : list node) : Prop := {
  lo_pos : 0 < lo;
  hi_fits : end_block s + MEM_BLOCK_META_SIZE < modulus;
  start_pos : 0 < start_block;
  start_fits : start_block + MEM_BLOCK_META_SIZE <= modulus;
  start_apart : Forall (apart (start_block, 0)) L;
  start_size : size_of (mem s) start_block = 0;
  list_links : free_list s L;
  list_tail : exists L0, L = L0 ++ [(end_block s, 0)];
  list_spaced : spaced lo L (end_block s + MEM_BLOCK_META_SIZE)
}.

(** A block that [insert_free_block] may be given: it lies inside the
    managed range below the terminal sentinel, its header holds its size,
    and it shares no byte with [start_block] or with the blocks already on
    the list. *)
Definition insertable (lo : Z) (s : state) (L : list node) (n : node) : Prop :=
  lo <= fst n /\ fst n + snd n <= end_block s
  /\ MEM_BLOCK_META_SIZE <= snd n
  /\ size_of (mem s) (fst n) = snd n
  /\ Forall (apart n) (chain L).

(** An allocated block: marked in its header, inside the managed range,
    and sharing no byte with [start_block] or with the blocks of the free
    list. *)
Definition allocated (lo : Z) (s : state) (L : list node) (n : node) : Prop :=
  lo <= fst n /\ fst n + snd n <= end_block s
  /\ MEM_BLOCK_META_SIZE + MEM_ALIGN_NUM <= snd n
  /\ next_of (mem s) (fst n) = NULL
  /\ size_of (mem s) (fst n) = snd n + 2 ^ 31
  /\ Forall (apart n) (chain L).

(** The whole heap: the free list, the allocated blocks, and a bound on the
    bytes they hold together that keeps every size below the allocated
    tag. *)
Record heap_ok (lo : Z) (s : state) (L Al : list node) : Prop := {
  heap_list : list_ok lo s L;
  heap_bit : mem_alloc_bit s = 2 ^ 31;
  heap_alloc : Forall (allocated lo s L) Al;
  heap_apart : all_apart Al;
  heap_total : sum_foots L + sum_sizes Al < 2 ^ 31
}.

(** The state before any region has been accepted. *)
Definition uninitialised (s : state) : Prop :=
  end_block s = NULL /\ mem_available_bytes s = 0 /\ mem_regions_count s = 0.

(** A region the allocator can be given: a range of the address space that
    does not contain the static [start_block] and, when it is accepted, has
    room for its first block's header and its sentinel. *)
Definition region_ok (r : mem_region_t) : Prop :=
  0 < start_addr r /\ in_space r
  /\ (start_block + MEM_BLOCK_META_SIZE <= start_addr r
      \/ start_addr r + size r <= start_block)
  /\ (skipped r = false -> 2 * MEM_BLOCK_META_SIZE <= usable_size r).

Definition total_size (regions : list mem_region_t) : Z :=
  fold_right (fun r acc => size r + acc) 0 regions.

Definition regions_ok (regions : list mem_region_t) : Prop :=
  0 < start_block /\ start_block + MEM_BLOCK_META_SIZE <= modulus
  /\ Forall region_ok regions
  /\ total_size regions < 2 ^ 31.

(** What holds between two passes of the second loop of [mem_init]: nothing
    has been accepted yet, or the regions accepted so far form a well-formed
    list below [hw] that holds at most [cap] bytes. *)
Definition init_inv (s : state) (hw cap : Z) : Prop :=
  0 <= cap
  /\ ((end_block s = NULL /\ mem_available_bytes s = 0)
      \/ exists lo L,
           list_ok lo s L /\ mem_available_bytes s = sum_sizes L
           /\ end_block s + MEM_BLOCK_META_SIZE <= hw /\ sum_foots L <= cap).

(** *** States the public calls can reach *)

(** Header address and stored size of the block behind a payload pointer. *)
Definition block_of (ptr : Z) : Z := wrap (ptr - MEM_BLOCK_META_SIZE).

Definition block_size (s : state) (ptr : Z) : Z :=
  Z.land (size_of (mem s) (block_of ptr)) (wnot (mem_alloc_bit s)).

(** [reachable s P D]: the state [s] is reached from a successful
    [mem_init] by calls of the public functions and by writes of the caller
    into the payloads it owns; [P] lists the pointers handed out and not yet
    freed; [D] adds up, over the allocations made so far, the bytes by which
    the block handed out exceeded the size asked for ([need]). *)
Inductive reachable : state -> list Z -> Z -> Prop :=
| reach_init (s0 s : state) (regions : list mem_region_t) (k : Z) :
    regions_ok regions -> Z.of_nat (length regions) < modulus ->
    uninitialised s0 ->
    mem_init start_block s0 regions = (s, k) -> k <> 0 ->
    reachable s [] 0
| reach_malloc (s s' : state) (P : list Z) (D : Z) (fuel : nat) (sz p : Z) :
    reachable s P D -> 0 <= sz < modulus ->
    mem_malloc start_block fuel s sz = Some (s', p) -> p <> NULL ->
    reachable s' (p :: P) (D + (block_size s' p - need sz))
| reach_malloc_null (s s' : state) (P : list Z) (D : Z) (fuel : nat) (sz : Z) :
    reachable s P D -> 0 <= sz < modulus ->
    mem_malloc start_block fuel s sz = Some (s', NULL) ->
    reachable s' P D
| reach_calloc (s s' : state) (P : list Z) (D : Z) (fuel : nat)
               (nitems sz p : Z) :
    reachable s P D ->
    mem_calloc start_block fuel s nitems sz = Some (s', p) -> p <> NULL ->
    reachable s' (p :: P) (D + (block_size s' p - need (wrap (sz * nitems))))
| reach_calloc_null (s s' : state) (P : list Z) (D : Z) (fuel : nat)
                    (nitems sz : Z) :
    reachable s P D ->
    mem_calloc start_block fuel s nitems sz = Some (s', NULL) ->
    reachable s' P D
| reach_free (s s' : state) (P : list Z) (D : Z) (fuel : nat) (p : Z) :
    reachable s P D -> In p P ->
    mem_free start_block fuel s p = Some s' ->
    reachable s' (remove Z.eq_dec p P) D
| reach_free_null (s s' : state) (P : list Z) (D : Z) (fuel : nat) :
    reachable s P D ->
    mem_free start_block fuel s NULL = Some s' ->
    reachable s' P D
| reach_realloc (s s' : state) (P : list Z) (D : Z) (fuel : nat) (p sz q : Z) :
    reachable s P D -> In p P -> 0 < sz < modulus ->
    mem_realloc start_block fuel s p sz = Some (s', q) -> q <> NULL ->
    reachable s' (q :: remove Z.eq_dec p P)
              (D + (block_size s' q - need sz))
| reach_realloc_null (s s' : state) (P : list Z) (D : Z) (fuel : nat)
                     (p sz : Z) :
    reachable s P D -> In p P -> 0 < sz < modulus ->
    mem_realloc start_block fuel s p sz = Some (s', NULL) ->
    reachable s' P D
| reach_store (s : state) (P : list Z) (D : Z) (p i v : Z) :
    reachable s P D -> In p P ->
    0 <= i < block_size s p - MEM_BLOCK_META_SIZE ->
    reachable (with_mem s (store8 (mem s) (p + i) v)) P D.

(** The pointer [mem_malloc] returns for a block. *)
Definition payload (a : node) : Z := fst a + MEM_BLOCK_META_SIZE.

(** The invariant of the reachable states, for the allocated blocks [Al]
    and the excess [D]. *)
Definition heap_inv (s : state) (Al : list node) (D : Z) : Prop :=
  exists lo L,
    heap_ok lo s L Al
    /\ mem_available_bytes s = wrap (sum_sizes L + D)
    /\ 0 <= D.

(** The conditions under which [mem_malloc] returns [NULL]; the last one
    says that every block of the free list [L], tail sentinel included, is
    smaller than the size looked for. *)
Definition malloc_refuses (s : state) (L : list node) (sz : Z) : Prop :=
  end_block s = NULL \/ sz = 0
  \/ Z.land sz (mem_alloc_bit s) <> 0
  \/ Z.land (need sz) (mem_alloc_bit s) <> 0
  \/ Forall (fun x => snd x < need sz) L.

End Invariant.

(* ------------------------------------------------------------------ *)
(** ** The heap [mem_init] builds, and alignment *)

(** The two blocks [mem_init] makes of an accepted region: the first block,
    of the usable size less the sentinel's header, and the sentinel. *)
Definition region_blocks (r : mem_region_t) : list node :=
  let a := align_up (start_addr r) in
  let n := usable_size r in
  [(a, n - MEM_BLOCK_META_SIZE); (a + n - MEM_BLOCK_META_SIZE, 0)].

Definition init_list (regions : list mem_region_t) : list node :=
  flat_map (fun r => if skipped r then [] else region_blocks r) regions.

(** No two blocks that follow each other on the list touch, unless the
    second is a sentinel (a block of size 0). *)
Fixpoint coalesced (L : list node) : Prop :=
  match L with
  | [] => True
  | x :: L' =>
      match L' with
      | [] => True
      | y :: _ => fst x + snd x = fst y -> snd y = 0
      end
      /\ coalesced L'
  end.

(** A block whose address and size are multiples of [MEM_ALIGN_NUM]. *)
Definition aligned (n : node) : Prop :=
  fst n mod MEM_ALIGN_NUM = 0 /\ snd n mod MEM_ALIGN_NUM = 0.

(** ** The scenario of the specification: one region of 1024 bytes *)

Module Scenario.

Definition start_block : Z := 256.

Definition X : Z := 4096.

Definition regions : list mem_region_t := [mkRegion X 1024].

(** The state after [mem_init] of the one region. *)
Definition fresh : state :=
  fst (mem_init start_block (pristine (fun _ => 0)) regions).

Definition state_of (r : option (state * Z)) : state :=
  match r with
  | Some (s, _) => s
  | None => fresh
  end.

(** [mem_malloc(1000)] on the fresh heap, then [mem_free] of its result. *)
Definition taken : state := state_of (mem_malloc start_block 3 fresh 1000).

Definition released : state :=
  match mem_free start_block 3 taken (X + 8) with
  | Some s => s
  | None => taken
  end.

(** [mem_malloc(100)] on the fresh heap, and the block it returns with the
    allocated tag cleared, as [mem_free] hands it to [insert_free_block]. *)
Definition small : state := state_of (mem_malloc start_block 3 fresh 100).

Definition untagged : state := with_mem small (set_size (mem small) X 108).

(** Further calls on these states: a second [mem_malloc], the [mem_free] of
    the first block, a [mem_calloc], a [mem_calloc] whose product passes
    [2^32], and a [mem_realloc]. *)
Definition pair : state := state_of (mem_malloc start_block 3 small 50).

Definition back : state :=
  match mem_free start_block 3 small (X + 8) with
  | Some s => s
  | None => small
  end.

(** The first of the two blocks of [pair] freed. *)
Definition lone : state :=
  match mem_free start_block 3 pair (X + 8) with
  | Some s => s
  | None => pair
  end.

Definition cleared : state := state_of (mem_calloc start_block 3 fresh 5 20).

Definition wrapped : state :=
  state_of (mem_calloc start_block 3 fresh 4 1073741849).

Definition moved : state :=
  state_of (mem_realloc start_block 3 small (X + 8) 200).

End Scenario.

(* ================================================================== *)
(** * Memory and word lemmas *)

Lemma modulus_eq : modulus = 4294967296.
Proof. reflexivity. Qed.

Lemma wrap_range (x : Z) : 0 <= wrap x < modulus.
Proof. unfold wrap. apply Z.mod_pos_bound. reflexivity. Qed.

Lemma wrap_small (x : Z) : 0 <= x < modulus -> wrap x = x.
Proof. intros H. unfold wrap. apply Z.mod_small. exact H. Qed.

Lemma load8_range (m : memory) (a : Z) : 0 <= load8 m a < 256.
Proof. unfold load8. apply Z.mod_pos_bound. reflexivity. Qed.

Lemma load32_range (m : memory) (a : Z) : 0 <= load32 m a < modulus.
Proof.
  unfold load32. rewrite modulus_eq.
  pose proof (load8_range m a). pose proof (load8_range m (a + 1)).
  pose proof (load8_range m (a + 2)). pose proof (load8_range m (a + 3)).
  lia.
Qed.

(** A load depends on the four bytes it reads only. *)
Lemma load32_ext (m m' : memory) (a : Z) :
  (forall x, a <= x < a + 4 -> m' x = m x) -> load32 m' a = load32 m a.
Proof.
  intros H. unfold load32, load8.
  rewrite (H a), (H (a + 1)), (H (a + 2)), (H (a + 3)) by lia. reflexivity.
Qed.

Lemma store32_outside (m : memory) (a v x : Z) :
  x < a \/ a + 4 <= x -> store32 m a v x = m x.
Proof.
  intros H. unfold store32, store8.
  destruct (Z.eqb_spec x (a + 3)); [lia|].
  destruct (Z.eqb_spec x (a + 2)); [lia|].
  destruct (Z.eqb_spec x (a + 1)); [lia|].
  destruct (Z.eqb_spec x a); [lia|]. reflexivity.
Qed.

Lemma load_store_other (m : memory) (a v b : Z) :
  a + 4 <= b \/ b + 4 <= a -> load32 (store32 m a v) b = load32 m b.
Proof.
  intros H. apply load32_ext. intros x Hx. apply store32_outside. lia.
Qed.

Lemma bytes_of_word (v : Z) :
  0 <= v < 4294967296 ->
  v mod 256 + 256 * ((v / 256) mod 256) + 65536 * ((v / 65536) mod 256)
  + 16777216 * ((v / 16777216) mod 256) = v.
Proof.
  intros Hv.
  pose proof (Z.div_mod v 256 ltac:(lia)) as E0.
  pose proof (Z.div_mod (v / 256) 256 ltac:(lia)) as E1.
  pose proof (Z.div_mod (v / 65536) 256 ltac:(lia)) as E2.
  replace (v / 256 / 256) with (v / 65536) in E1
    by (rewrite Z.div_div by lia; reflexivity).
  replace (v / 65536 / 256) with (v / 16777216) in E2
    by (rewrite Z.div_div by lia; reflexivity).
  assert (0 <= v / 16777216 < 256)
    by (split; [apply Z.div_pos; lia | apply Z.div_lt_upper_bound; lia]).
  rewrite (Z.mod_small (v / 16777216) 256) by lia. lia.
Qed.

Lemma load_store_same_small (m : memory) (a v : Z) :
  0 <= v < modulus -> load32 (store32 m a v) a = v.
Proof.
  intros Hv. rewrite modulus_eq in Hv.
  unfold load32, load8, store32, store8.
  repeat match goal with
  | |- context [?x =? ?y] => destruct (Z.eqb_spec x y); try lia
  end.
  rewrite !Z.mod_mod by lia. apply bytes_of_word. exact Hv.
Qed.

Lemma load_store_same (m : memory) (a v : Z) :
  load32 (store32 m a v) a = wrap v.
Proof.
  rewrite <- (load_store_same_small m a (wrap v)) by apply wrap_range.
  apply load32_ext. intros x Hx.
  unfold store32, store8, wrap. rewrite modulus_eq.
  assert (E : forall k, 0 < k -> (k * 256 | 4294967296) ->
              (v mod 4294967296 / k) mod 256 = (v / k) mod 256).
  { intros k Hk [q Hq].
    rewrite (Z.div_mod v 4294967296) at 2 by lia.
    rewrite Hq at 2.
    replace (q * (k * 256) * (v / 4294967296) + v mod 4294967296)
      with (v mod 4294967296 + (q * 256 * (v / 4294967296)) * k) by ring.
    rewrite Z.div_add by lia.
    replace (q * 256 * (v / 4294967296)) with (q * (v / 4294967296) * 256) by ring.
    rewrite Z.mod_add by lia. reflexivity. }
  pose proof (E 1 ltac:(lia) ltac:(exists 16777216; reflexivity)) as E1.
  rewrite !Z.div_1_r in E1.
  pose proof (E 256 ltac:(lia) ltac:(exists 65536; reflexivity)) as E2.
  pose proof (E 65536 ltac:(lia) ltac:(exists 256; reflexivity)) as E3.
  pose proof (E 16777216 ltac:(lia) ltac:(exists 1; reflexivity)) as E4.
  rewrite E1, E2, E3, E4. reflexivity.
Qed.

(** *** Bit operations on the allocated tag and the alignment mask *)

Lemma alloc_bit_value : wrap (Z.shiftl 1 (sizeof_size_t * CHAR_BIT - 1)) = 2 ^ 31.
Proof. reflexivity. Qed.

Lemma META_eq : MEM_BLOCK_META_SIZE = 8.
Proof. reflexivity. Qed.

Lemma land_bit (x : Z) :
  0 <= x < modulus ->
  Z.land x (2 ^ 31) = if x <? 2 ^ 31 then 0 else 2 ^ 31.
Proof.
  intros Hx. rewrite modulus_eq in Hx. apply Z.bits_inj'. intros n Hn.
  rewrite Z.land_spec, Z.pow2_bits_eqb by lia.
  destruct (Z.eqb_spec 31 n) as [<-|Hne].
  - rewrite andb_true_r, Z.testbit_eqb by lia.
    destruct (Z.ltb_spec x (2 ^ 31)).
    + rewrite Z.div_small by lia. reflexivity.
    + replace (x / 2 ^ 31) with 1.
      * rewrite Z.pow2_bits_true by lia. reflexivity.
      * apply Z.div_unique with (r := x - 2 ^ 31); lia.
  - rewrite andb_false_r.
    destruct (x <? 2 ^ 31); [rewrite Z.bits_0 | rewrite Z.pow2_bits_false by lia];
      reflexivity.
Qed.

Lemma land_bit_clear (x : Z) : 0 <= x < 2 ^ 31 -> Z.land x (2 ^ 31) = 0.
Proof.
  intros Hx. rewrite land_bit by (rewrite modulus_eq; lia).
  destruct (Z.ltb_spec x (2 ^ 31)); [reflexivity | lia].
Qed.

Lemma land_bit_set (x : Z) :
  0 <= x < 2 ^ 31 -> Z.land (x + 2 ^ 31) (2 ^ 31) = 2 ^ 31.
Proof.
  intros Hx. rewrite land_bit by (rewrite modulus_eq; lia).
  destruct (Z.ltb_spec (x + 2 ^ 31) (2 ^ 31)); [lia | reflexivity].
Qed.

Lemma lor_bit (x : Z) : 0 <= x < 2 ^ 31 -> Z.lor x (2 ^ 31) = x + 2 ^ 31.
Proof.
  intros Hx. pose proof (Z.add_lor_land x (2 ^ 31)) as E.
  rewrite land_bit_clear in E by exact Hx. lia.
Qed.

Lemma land_wnot_bit (y : Z) : Z.land y (wnot (2 ^ 31)) = y mod 2 ^ 31.
Proof.
  change (wnot (2 ^ 31)) with (Z.ones 31). apply Z.land_ones. lia.
Qed.

Lemma clear_bit (x : Z) :
  0 <= x < 2 ^ 31 -> Z.land (x + 2 ^ 31) (wnot (2 ^ 31)) = x.
Proof.
  intros Hx. rewrite land_wnot_bit.
  replace (x + 2 ^ 31) with (x + 1 * 2 ^ 31) by ring.
  rewrite Z.mod_add by lia. apply Z.mod_small. exact Hx.
Qed.

Lemma land_align_bits (x : Z) : Z.land x MEM_ALIGN_BITS = x mod 4.
Proof. change MEM_ALIGN_BITS with (Z.ones 2). apply Z.land_ones. lia. Qed.

Lemma land_align_mask (y : Z) :
  0 <= y < modulus -> Z.land y (wnot MEM_ALIGN_BITS) = 4 * (y / 4).
Proof.
  intros Hy.
  assert (E : wnot MEM_ALIGN_BITS = Z.land (Z.lnot (Z.ones 2)) (Z.ones 32)).
  { rewrite Z.land_ones by lia. reflexivity. }
  rewrite E, (Z.land_comm (Z.lnot _)), Z.land_assoc.
  rewrite (Z.land_ones y 32) by lia.
  change (2 ^ 32) with modulus. rewrite Z.mod_small by exact Hy.
  rewrite <- Z.ldiff_land, Z.ldiff_ones_r by lia.
  rewrite Z.shiftr_div_pow2, Z.shiftl_mul_pow2 by lia.
  change (2 ^ 2) with 4. ring.
Qed.

Lemma MEM_ALIGN_eq (x : Z) :
  0 <= x < modulus - 3 -> MEM_ALIGN x = 4 * ((x + 3) / 4).
Proof.
  intros Hx. unfold MEM_ALIGN. change MEM_ALIGN_BITS with 3 at 1.
  rewrite wrap_small by lia. apply land_align_mask. lia.
Qed.

Lemma need_eq (sz : Z) :
  0 <= sz < 2 ^ 31 -> need sz = 4 * ((sz + 3) / 4) + 8.
Proof.
  intros Hsz. unfold need.
  rewrite MEM_ALIGN_eq, META_eq by (rewrite modulus_eq; lia).
  apply wrap_small. rewrite modulus_eq.
  pose proof (Z.mod_pos_bound (sz + 3) 4 ltac:(lia)).
  pose proof (Z.div_mod (sz + 3) 4 ltac:(lia)). lia.
Qed.

Lemma need_bounds (sz : Z) :
  0 < sz < 2 ^ 31 -> sz + 8 <= need sz <= sz + 11 /\ 12 <= need sz.
Proof.
  intros Hsz. rewrite need_eq by lia.
  pose proof (Z.mul_div_le (sz + 3) 4 ltac:(lia)).
  pose proof (Z.mod_pos_bound (sz + 3) 4 ltac:(lia)).
  pose proof (Z.div_mod (sz + 3) 4 ltac:(lia)). lia.
Qed.

(** *** Header fields after a store *)

Lemma next_of_range (m : memory) (b : Z) : 0 <= next_of m b < modulus.
Proof. apply load32_range. Qed.

Lemma size_of_range (m : memory) (b : Z) : 0 <= size_of m b < modulus.
Proof. apply load32_range. Qed.

Lemma next_set_next_same (m : memory) (a v : Z) :
  next_of (set_next m a v) a = wrap v.
Proof. apply load_store_same. Qed.

Lemma size_set_size_same (m : memory) (a v : Z) :
  size_of (set_size m a v) a = wrap v.
Proof. apply load_store_same. Qed.

Lemma next_set_next_other (m : memory) (a v b : Z) :
  a + 4 <= b \/ b + 4 <= a -> next_of (set_next m a v) b = next_of m b.
Proof. intros H. apply load_store_other. lia. Qed.

Lemma size_set_size_other (m : memory) (a v b : Z) :
  a + 4 <= b \/ b + 4 <= a -> size_of (set_size m a v) b = size_of m b.
Proof. intros H. apply load_store_other. lia. Qed.

Lemma next_set_size (m : memory) (a v b : Z) :
  a + 8 <= b \/ b <= a -> next_of (set_size m a v) b = next_of m b.
Proof. intros H. apply load_store_other. lia. Qed.

Lemma size_set_next (m : memory) (a v b : Z) :
  a <= b \/ b + 8 <= a -> size_of (set_next m a v) b = size_of m b.
Proof. intros H. apply load_store_other. lia. Qed.

Lemma wrap_wrap (x : Z) : wrap (wrap x) = wrap x.
Proof. apply wrap_small, wrap_range. Qed.

Ltac fields :=
  repeat match goal with
  | |- context [next_of (set_next ?m ?a ?v) ?a] =>
      rewrite (next_set_next_same m a v)
  | |- context [size_of (set_size ?m ?a ?v) ?a] =>
      rewrite (size_set_size_same m a v)
  | |- context [next_of (set_next ?m ?a ?v) ?b] =>
      rewrite (next_set_next_other m a v b) by lia
  | |- context [size_of (set_size ?m ?a ?v) ?b] =>
      rewrite (size_set_size_other m a v b) by lia
  | |- context [next_of (set_size ?m ?a ?v) ?b] =>
      rewrite (next_set_size m a v b) by lia
  | |- context [size_of (set_next ?m ?a ?v) ?b] =>
      rewrite (size_set_next m a v b) by lia
  end.

Ltac unwrap :=
  rewrite ?wrap_wrap;
  repeat match goal with
  | |- context [wrap ?x] => rewrite (wrap_small x) by lia
  end.

Ltac msimp := repeat (progress (fields; unwrap)).

(** *** List segments in memory *)

Lemma lseg_app (m : memory) (A B : list node) :
  forall p q,
    lseg m p (A ++ B) q <-> exists r, lseg m p A r /\ lseg m r B q.
Proof.
  induction A as [|n A IH]; intros p q; simpl.
  - split.
    + intros H. exists p. split; [reflexivity | exact H].
    + intros [r [-> H]]. exact H.
  - split.
    + intros (E & Hn & Hs & H). apply IH in H. destruct H as [r [H1 H2]].
      exists r. repeat split; assumption.
    + intros [r [(E & Hn & Hs & H1) H2]]. repeat split; try assumption.
      apply IH. exists r. split; assumption.
Qed.

Lemma lseg_frame (m m' : memory) (L : list node) :
  forall p q,
    Forall (fun n => next_of m' (fst n) = next_of m (fst n)
                     /\ size_of m' (fst n) = size_of m (fst n)) L ->
    lseg m p L q -> lseg m' p L q.
Proof.
  induction L as [|n L IH]; intros p q HF H; simpl in *.
  - exact H.
  - destruct H as (E & Hn & Hs & H). inversion HF as [|? ? [F1 F2] HF']; subst.
    repeat split; try assumption.
    + rewrite F2. exact Hs.
    + rewrite F1. apply IH; assumption.
Qed.

Lemma lseg_set_next (m : memory) (x v : Z) (L : list node) (p q : Z) :
  Forall (hdr_off x) L -> lseg m p L q -> lseg (set_next m x v) p L q.
Proof.
  intros HF. apply lseg_frame.
  eapply Forall_impl; [|exact HF]. unfold hdr_off. intros n Hn.
  split; fields; reflexivity.
Qed.

Lemma lseg_set_size (m : memory) (x v : Z) (L : list node) (p q : Z) :
  Forall (hdr_off x) L -> lseg m p L q -> lseg (set_size m x v) p L q.
Proof.
  intros HF. apply lseg_frame.
  eapply Forall_impl; [|exact HF]. unfold hdr_off. intros n Hn.
  split; fields; reflexivity.
Qed.

(** The address a segment starts at. *)
Lemma lseg_head (m : memory) (n : node) (L : list node) (p q : Z) :
  lseg m p (n :: L) q -> p = fst n.
Proof. intros H. apply H. Qed.

(** *** The search loop of insert_free_block *)

Lemma find_prev_walk (m : memory) (nb : Z) :
  forall K k p rest fuel,
    lseg m p (K ++ [k]) rest ->
    Forall (fun n => fst n < nb) (tl (K ++ [k])) ->
    nb <= rest ->
    (length K < fuel)%nat ->
    find_prev fuel m nb p = Some (fst k).
Proof.
  induction K as [|x K IH]; intros k p rest fuel HL HF Hr Hfuel.
  - destruct fuel as [|fuel]; [simpl in Hfuel; lia|].
    simpl in HL. destruct HL as (E & Hn & _ & Hq). simpl.
    rewrite Hq. destruct (Z.ltb_spec rest nb); [lia|].
    rewrite andb_false_r. congruence.
  - destruct fuel as [|fuel]; [simpl in Hfuel; lia|].
    simpl in HL. destruct HL as (E & Hn & _ & HL').
    simpl in HF.
    assert (Hlt : next_of m p < nb).
    { destruct (K ++ [k]) as [|y T] eqn:EK.
      - destruct K; discriminate.
      - simpl in HL'. destruct HL' as (-> & _). inversion HF; assumption. }
    simpl. destruct (Z.eqb_spec p NULL); [contradiction|].
    destruct (Z.ltb_spec (next_of m p) nb); [|lia]. simpl.
    apply (IH k _ rest); try assumption.
    + destruct (K ++ [k]); [constructor | inversion HF; assumption].
    + simpl in Hfuel. lia.
Qed.

Lemma Forall_cons_inv {A : Type} (P : A -> Prop) (x : A) (l : list A) :
  Forall P (x :: l) -> P x /\ Forall P l.
Proof. intros H; inversion H; auto. Qed.

(** *** The linking code of insert_free_block *)

Lemma link_free_block_eq (m : memory) (eb nb sz k sk b sb q : Z) :
  size_of m k = sk -> next_of m k = b ->
  size_of m nb = sz ->
  size_of m b = sb -> next_of m b = q ->
  hdr_off nb (k, sk) -> hdr_off nb (b, sb) -> hdr_off k (b, sb) ->
  0 <= k -> 0 <= nb ->
  k + sk < modulus ->
  nb + sz + sb < modulus ->
  link_free_block eb m nb k = link_result eb m nb sz k sk b sb q.
Proof.
  unfold hdr_off. cbn [fst snd].
  intros Hks Hkb Hsz Hbs Hbq Hnbk Hnbb Hkb' Hk0 Hnb0 Hr1 Hr2.
  pose proof modulus_eq as Hmod.
  pose proof (size_of_range m nb) as Rsz.
  pose proof (size_of_range m k) as Rsk.
  pose proof (size_of_range m b) as Rsb.
  pose proof (next_of_range m k) as Rb.
  pose proof (next_of_range m b) as Rq.
  unfold link_free_block, link_result.
  rewrite Hks, Hsz. unwrap.
  destruct (Z.eqb_spec (k + sk) nb) as [El|El].
  - fields. rewrite Hkb. unwrap.
    replace (k + (sk + sz)) with (nb + sz) by lia.
    rewrite Z.eqb_refl. cbn [negb].
    destruct (Z.eqb_spec (nb + sz) b) as [Er|Er]; cbn [andb].
    + destruct (Z.eqb_spec b eb) as [Ee|Ee]; cbn [negb].
      * subst eb. reflexivity.
      * repeat (fields; rewrite ?Hkb, ?Hbs, ?Hbq, ?Hks, ?Hsz). unwrap. reflexivity.
    + reflexivity.
  - rewrite Hsz, Hkb. unwrap.
    destruct (Z.eqb_spec k nb) as [Ek|Ek]; [lia|]. cbn [negb].
    destruct (Z.eqb_spec (nb + sz) b) as [Er|Er]; cbn [andb].
    + destruct (Z.eqb_spec b eb) as [Ee|Ee]; cbn [negb].
      * subst eb. reflexivity.
      * repeat (fields; rewrite ?Hkb, ?Hbs, ?Hbq, ?Hks, ?Hsz). unwrap. reflexivity.
    + reflexivity.
Qed.

Ltac frame_lseg :=
  repeat first [ apply lseg_set_next; [assumption|]
               | apply lseg_set_size; [assumption|] ];
  assumption.

Lemma link_result_lseg (m : memory) (eb nb sz p0 k sk b sb : Z)
      (K Q : list node) :
  lseg m p0 (K ++ (k, sk) :: (b, sb) :: Q) NULL ->
  size_of m nb = sz ->
  Forall (hdr_off nb) (K ++ (k, sk) :: (b, sb) :: Q) ->
  Forall (hdr_off k) (K ++ (b, sb) :: Q) ->
  0 < nb -> 0 <= k ->
  0 <= sk -> 0 <= sb ->
  nb + sz + sb < modulus ->
  lseg (link_result eb m nb sz k sk b sb (next_of m b)) p0
       (K ++ linked eb (k, sk) (nb, sz) ((b, sb) :: Q)) NULL.
Proof.
  intros HL Hsz Hnb Hk Hnb0 Hk0 Hsk Hsb Hr2.
  apply lseg_app in HL. destruct HL as [r [HK HL]].
  cbn [lseg fst snd] in HL.
  destruct HL as (Er & Hkn & Hks & (Eb & Hbn & Hbs & HQ)). subst r.
  apply Forall_app in Hnb. destruct Hnb as [HnbK Hnb].
  apply Forall_cons_inv in Hnb. destruct Hnb as [Hnbk Hnb].
  apply Forall_cons_inv in Hnb. destruct Hnb as [Hnbb HnbQ].
  apply Forall_app in Hk. destruct Hk as [HkK Hk].
  apply Forall_cons_inv in Hk. destruct Hk as [Hkb HkQ].
  unfold hdr_off in Hnbk, Hnbb, Hkb. cbn [fst snd] in *.
  pose proof modulus_eq as Hmod.
  pose proof (size_of_range m nb) as Rsz.
  pose proof (next_of_range m k) as Rb.
  pose proof (next_of_range m b) as Rq.
  rewrite Eb in HQ, Hbs, Hbn.
  apply lseg_app. exists k.
  unfold link_result, linked, absorb_right. cbn [fst snd].
  destruct (Z.eqb_spec (k + sk) nb) as [El|El].
  - replace (k + (sk + sz)) with (nb + sz) by lia.
    destruct ((nb + sz =? b) && negb (b =? eb));
      (split; [frame_lseg|]); cbn [lseg fst snd]; msimp;
      repeat split; try assumption; try lia; frame_lseg.
  - destruct ((nb + sz =? b) && negb (b =? eb));
      (split; [frame_lseg|]); cbn [lseg fst snd]; msimp;
      repeat split; try assumption; try (unfold NULL; lia); frame_lseg.
Qed.

(** *** Address-ordered lists of blocks *)

Lemma foot_ge (n : node) : 8 <= foot n /\ snd n <= foot n.
Proof. unfold foot. rewrite META_eq. lia. Qed.

Lemma spaced_bounds (L : list node) :
  forall lo hi, spaced lo L hi -> lo <= hi.
Proof.
  induction L as [|n L IH]; intros lo hi H; simpl in H.
  - exact H.
  - destruct H as (H1 & H2 & H3). apply IH in H3.
    pose proof (foot_ge n). lia.
Qed.

Lemma spaced_weaken (L : list node) :
  forall lo hi lo' hi',
    spaced lo L hi -> lo' <= lo -> hi <= hi' -> spaced lo' L hi'.
Proof.
  induction L as [|n L IH]; intros lo hi lo' hi' H Hlo Hhi; simpl in *.
  - lia.
  - destruct H as (H1 & H2 & H3). repeat split; try lia.
    apply (IH (fst n + foot n) hi); [assumption | lia | assumption].
Qed.

Lemma spaced_app (A B : list node) :
  forall lo hi,
    spaced lo (A ++ B) hi <-> exists mid, spaced lo A mid /\ spaced mid B hi.
Proof.
  induction A as [|n A IH]; intros lo hi; simpl.
  - split.
    + intros H. exists lo. split; [lia | exact H].
    + intros [mid [H1 H2]]. apply (spaced_weaken B mid hi); [assumption | lia | lia].
  - split.
    + intros (H1 & H2 & H3). apply IH in H3. destruct H3 as [mid [H3 H4]].
      exists mid. repeat split; assumption.
    + intros [mid [(H1 & H2 & H3) H4]]. repeat split; try assumption.
      apply IH. exists mid. split; assumption.
Qed.

Lemma spaced_all (L : list node) :
  forall lo hi,
    spaced lo L hi ->
    Forall (fun n => lo <= fst n /\ 0 <= snd n /\ fst n + foot n <= hi) L.
Proof.
  induction L as [|n L IH]; intros lo hi H; simpl in H.
  - constructor.
  - destruct H as (H1 & H2 & H3). constructor.
    + pose proof (spaced_bounds _ _ _ H3). lia.
    + apply IH in H3. eapply Forall_impl; [|exact H3].
      intros c Hc. cbn beta in Hc. pose proof (foot_ge n). lia.
Qed.

Lemma spaced_sum (L : list node) :
  forall lo hi, spaced lo L hi -> 0 <= sum_sizes L <= hi - lo.
Proof.
  induction L as [|n L IH]; intros lo hi H; simpl in *.
  - lia.
  - destruct H as (H1 & H2 & H3). apply IH in H3.
    pose proof (foot_ge n). lia.
Qed.

Lemma sum_sizes_app (A B : list node) :
  sum_sizes (A ++ B) = sum_sizes A + sum_sizes B.
Proof. induction A as [|n A IH]; simpl; [reflexivity | rewrite IH; ring]. Qed.

(** Splitting an ordered list at an address. *)
Lemma filter_all {A : Type} (f : A -> bool) (l : list A) :
  Forall (fun x => f x = true) l -> filter f l = l.
Proof.
  induction 1 as [|x l Hx _ IH]; simpl; [reflexivity|].
  rewrite Hx, IH. reflexivity.
Qed.

Lemma filter_none {A : Type} (f : A -> bool) (l : list A) :
  Forall (fun x => f x = false) l -> filter f l = [].
Proof.
  induction 1 as [|x l Hx _ IH]; simpl; [reflexivity|].
  rewrite Hx, IH. reflexivity.
Qed.

Lemma spaced_split (a : Z) (L : list node) :
  forall lo hi,
    spaced lo L hi ->
    exists P Q,
      L = P ++ Q
      /\ Forall (fun n => fst n < a) P
      /\ Forall (fun n => a <= fst n) Q.
Proof.
  induction L as [|n L IH]; intros lo hi H.
  - exists [], []. repeat split; constructor.
  - simpl in H. destruct H as (H1 & H2 & H3).
    destruct (Z.ltb_spec (fst n) a) as [Hlt|Hge].
    + destruct (IH _ _ H3) as (P & Q & -> & HP & HQ).
      exists (n :: P), Q. repeat split; [constructor|]; assumption.
    + exists [], (n :: L). repeat split; [constructor|].
      constructor; [exact Hge|].
      apply spaced_all in H3. eapply Forall_impl; [|exact H3].
      intros c Hc. cbn beta in Hc. pose proof (foot_ge n). lia.
Qed.

Lemma coalesce_split (eb : Z) (P Q : list node) (n : node) :
  Forall (fun c => fst c < fst n) P ->
  Forall (fun c => fst n <= fst c) Q ->
  coalesce eb (P ++ Q) n =
  (let '(P', n') := absorb_left P n in P' ++ absorb_right eb n' Q).
Proof.
  intros HP HQ. unfold coalesce. rewrite !filter_app.
  rewrite (filter_all (below (fst n)) P), (filter_none (below (fst n)) Q).
  - rewrite (filter_none _ P), (filter_all _ Q).
    + rewrite app_nil_r. reflexivity.
    + eapply Forall_impl; [|exact HQ]. intros c Hc. unfold below.
      cbn beta in Hc. destruct (Z.ltb_spec (fst c) (fst n)); [lia | reflexivity].
    + eapply Forall_impl; [|exact HP]. intros c Hc. unfold below.
      cbn beta in Hc. destruct (Z.ltb_spec (fst c) (fst n)); [reflexivity | lia].
  - eapply Forall_impl; [|exact HQ]. intros c Hc. unfold below.
    cbn beta in Hc. destruct (Z.ltb_spec (fst c) (fst n)); [lia | reflexivity].
  - eapply Forall_impl; [|exact HP]. intros c Hc. unfold below.
    cbn beta in Hc. destruct (Z.ltb_spec (fst c) (fst n)); [reflexivity | lia].
Qed.

Lemma absorb_left_snoc (P : list node) (k n : node) :
  absorb_left (P ++ [k]) n =
  if fst k + snd k =? fst n then (P, (fst k, snd k + snd n)) else (P ++ [k], n).
Proof.
  unfold absorb_left. rewrite rev_app_distr. simpl.
  rewrite rev_involutive. reflexivity.
Qed.

(** The list of the chain after linking is the coalescing insertion. *)
Lemma linked_coalesce (eb : Z) (P : list node) (k n : node) (Q : list node) :
  Forall (fun c => fst c < fst n) (P ++ [k]) ->
  Forall (fun c => fst n <= fst c) Q ->
  P ++ linked eb k n Q = coalesce eb ((P ++ [k]) ++ Q) n.
Proof.
  intros HP HQ. rewrite coalesce_split by assumption.
  rewrite absorb_left_snoc. unfold linked.
  destruct (fst k + snd k =? fst n).
  - reflexivity.
  - rewrite <- app_assoc. reflexivity.
Qed.

Lemma absorb_right_tail (eb : Z) (n b : node) (Q : list node) :
  (exists Q0, b :: Q = Q0 ++ [(eb, 0)]) ->
  exists R0, absorb_right eb n (b :: Q) = R0 ++ [(eb, 0)].
Proof.
  intros [Q0 E]. unfold absorb_right.
  destruct ((fst n + snd n =? fst b) && negb (fst b =? eb)) eqn:T.
  - destruct Q0 as [|b0 Q0]; simpl in E.
    + injection E as -> ->. simpl in T. rewrite Z.eqb_refl, andb_false_r in T.
      discriminate.
    + injection E as _ ->. exists ((fst n, snd n + snd b) :: Q0). reflexivity.
  - exists (n :: Q0). rewrite E. reflexivity.
Qed.

Lemma absorb_right_spaced (eb lo hi : Z) (n b : node) (Q : list node) :
  spaced (fst b) (b :: Q) hi ->
  lo <= fst n -> 8 <= snd n -> fst n + snd n <= fst b ->
  spaced lo (absorb_right eb n (b :: Q)) hi.
Proof.
  intros H Hlo Hsz Hb. unfold absorb_right. cbn [spaced] in H.
  destruct H as (_ & Hsb & HQ).
  pose proof (foot_ge b) as Fb. unfold foot in *. rewrite META_eq in *.
  destruct ((fst n + snd n =? fst b) && negb (fst b =? eb)) eqn:T.
  - apply andb_prop in T. destruct T as [T _]. apply Z.eqb_eq in T.
    cbn [spaced fst snd]. repeat split; try lia.
    apply (spaced_weaken Q _ hi _ hi HQ); unfold foot; rewrite ?META_eq;
      cbn [fst snd]; lia.
  - cbn [spaced fst snd]. unfold foot; rewrite ?META_eq.
    repeat split; try lia. assumption.
Qed.

Lemma absorb_right_sum (eb : Z) (n : node) (Q : list node) :
  sum_sizes (absorb_right eb n Q) = snd n + sum_sizes Q.
Proof.
  unfold absorb_right. destruct Q as [|b Q]; [reflexivity|].
  destruct ((fst n + snd n =? fst b) && negb (fst b =? eb));
    simpl; lia.
Qed.

Lemma absorb_right_apart (eb : Z) (a n : node) (Q : list node) :
  apart a n -> Forall (apart a) Q -> 8 <= snd n ->
  Forall (apart a) (absorb_right eb n Q).
Proof.
  intros Hn HQ Hsz. unfold absorb_right. destruct Q as [|b Q].
  - constructor; [assumption | constructor].
  - apply Forall_cons_inv in HQ. destruct HQ as [Hb HQ].
    destruct ((fst n + snd n =? fst b) && negb (fst b =? eb)) eqn:T.
    + apply andb_prop in T. destruct T as [T _]. apply Z.eqb_eq in T.
      constructor; [|assumption].
      unfold apart, foot in *. rewrite META_eq in *. cbn [fst snd]. lia.
    + constructor; [assumption|]. constructor; assumption.
Qed.

Lemma linked_sum (eb : Z) (k n : node) (Q : list node) :
  sum_sizes (linked eb k n Q) = snd k + snd n + sum_sizes Q.
Proof.
  unfold linked. destruct (fst k + snd k =? fst n).
  - rewrite absorb_right_sum. cbn [snd]. lia.
  - cbn [sum_sizes fold_right]. fold (sum_sizes (absorb_right eb n Q)).
    rewrite absorb_right_sum. lia.
Qed.

Lemma linked_spaced (eb lo hi : Z) (k n b : node) (Q : list node) :
  spaced lo (k :: b :: Q) hi ->
  fst k + foot k <= fst n -> 8 <= snd n -> fst n + snd n <= fst b ->
  spaced lo (linked eb k n (b :: Q)) hi.
Proof.
  intros H Hk Hsz Hb. cbn [spaced] in H. destruct H as (Hlo & Hsk & H).
  assert (Hb' : spaced (fst b) (b :: Q) hi).
  { cbn [spaced] in *. destruct H as (? & ? & ?). repeat split; try lia. assumption. }
  pose proof (foot_ge k) as Fk.
  unfold linked. destruct (Z.eqb_spec (fst k + snd k) (fst n)) as [E|E].
  - apply absorb_right_spaced; cbn [fst snd]; try assumption; lia.
  - cbn [spaced]. repeat split; try assumption.
    apply absorb_right_spaced; try assumption; lia.
Qed.

Lemma linked_apart (eb : Z) (a k n : node) (Q : list node) :
  apart a k -> apart a n -> Forall (apart a) Q ->
  fst k + foot k <= fst n -> 8 <= snd n ->
  Forall (apart a) (linked eb k n Q).
Proof.
  intros Hk Hn HQ Hkn Hsz. unfold linked.
  pose proof (foot_ge a) as Fa.
  destruct (Z.eqb_spec (fst k + snd k) (fst n)) as [E|E].
  - apply absorb_right_apart; try assumption;
      unfold apart, foot in *; rewrite META_eq in *; cbn [fst snd]; lia.
  - constructor; [assumption|]. apply absorb_right_apart; assumption.
Qed.

Lemma link_result_frame (eb : Z) (m : memory) (nb sz k sk b sb q y : Z) :
  y < k \/ k + 8 <= y -> y < nb \/ nb + 8 <= y ->
  link_result eb m nb sz k sk b sb q y = m y.
Proof.
  intros Hk Hn. unfold link_result, set_next, set_size.
  destruct (k + sk =? nb); destruct ((nb + sz =? b) && negb (b =? eb));
    cbn zeta; rewrite ?store32_outside by lia; reflexivity.
Qed.

Lemma link_result_size (eb : Z) (m : memory) (nb sz k sk b sb q : Z) :
  size_of m nb = sz -> hdr_off nb (k, sk) ->
  0 <= sb -> 0 <= sz + sb < modulus ->
  sz <= size_of (link_result eb m nb sz k sk b sb q) nb <= sz + sb.
Proof.
  unfold hdr_off. cbn [fst]. intros Hsz Hk Hsb Hr. unfold link_result.
  destruct (k + sk =? nb); destruct ((nb + sz =? b) && negb (b =? eb));
    cbn zeta; msimp; lia.
Qed.

(** *** insert_free_block on a well-formed list *)

Section InsertCorrect.

Variable start_block : Z.

Lemma insert_chain (s : state) (K : list node) (k b : node) (Q : list node)
      (nb sz : Z) (fuel : nat) :
  lseg (mem s) start_block (K ++ k :: b :: Q) NULL ->
  Forall (fun c => fst c < nb) (tl (K ++ [k])) ->
  nb <= fst b ->
  (length K < fuel)%nat ->
  size_of (mem s) nb = sz ->
  Forall (hdr_off nb) (K ++ k :: b :: Q) ->
  Forall (hdr_off (fst k)) (K ++ b :: Q) ->
  0 < nb -> 0 <= fst k -> 0 <= snd k -> 0 <= snd b ->
  fst k + snd k < modulus ->
  nb + sz + snd b < modulus ->
  exists m',
    insert_free_block start_block fuel s nb = Some (with_mem s m')
    /\ lseg m' start_block (K ++ linked (end_block s) k (nb, sz) (b :: Q)) NULL
    /\ (forall y, y < fst k \/ fst k + 8 <= y -> y < nb \/ nb + 8 <= y ->
                  m' y = mem s y)
    /\ sz <= size_of m' nb <= sz + snd b.
Proof.
  intros HL Hlt Hge Hfuel Hsz Hnb Hk Hnb0 Hk0 Hsk Hsb Hr1 Hr2.
  destruct k as [k sk], b as [b sb]. cbn [fst snd] in *.
  assert (HL' := HL).
  apply lseg_app in HL'. destruct HL' as [r [HK Hkk]].
  cbn [lseg fst snd] in Hkk.
  destruct Hkk as (-> & Hkn & Hks & Hkb & Hbn & Hbs & _).
  rewrite Hkb in Hbn, Hbs.
  assert (Hfind : find_prev fuel (mem s) nb start_block = Some k).
  { apply (find_prev_walk (mem s) nb K (k, sk) start_block b fuel);
      try assumption.
    apply lseg_app. exists k. split; [assumption|].
    cbn [lseg fst snd]. repeat split; assumption. }
  assert (Hnb' := Hnb). apply Forall_app in Hnb'. destruct Hnb' as [_ Hnb'].
  apply Forall_cons_inv in Hnb'. destruct Hnb' as [Hnbk Hnb'].
  apply Forall_cons_inv in Hnb'. destruct Hnb' as [Hnbb _].
  assert (Hk' := Hk). apply Forall_app in Hk'. destruct Hk' as [_ Hk'].
  apply Forall_cons_inv in Hk'. destruct Hk' as [Hkb' _].
  exists (link_result (end_block s) (mem s) nb sz k sk b sb (next_of (mem s) b)).
  split; [|split; [|split]].
  - unfold insert_free_block. rewrite Hfind. f_equal. f_equal.
    apply link_free_block_eq; try assumption; try reflexivity; try lia.
  - apply link_result_lseg; assumption.
  - intros y Hy1 Hy2. apply link_result_frame; assumption.
  - pose proof (size_of_range (mem s) nb).
    apply link_result_size; try assumption; lia.
Qed.


End InsertCorrect.

Lemma snoc_case {A : Type} (l : list A) :
  l = [] \/ exists l' x, l = l' ++ [x].
Proof.
  destruct l as [|a l]; [left; reflexivity | right].
  destruct (@exists_last A (a :: l)) as (l' & x & E); [discriminate|].
  exists l', x. exact E.
Qed.

Lemma apart_hdr_off (n c : node) : apart n c -> hdr_off (fst n) c.
Proof.
  unfold apart, hdr_off. pose proof (foot_ge n). pose proof (foot_ge c). lia.
Qed.

Lemma spaced_hdr_off_outside (x : Z) (L : list node) (lo hi : Z) :
  spaced lo L hi -> x + 8 <= lo \/ hi <= x -> Forall (hdr_off x) L.
Proof.
  intros H Hx. apply spaced_all in H. eapply Forall_impl; [|exact H].
  intros c Hc. cbn beta in Hc. unfold hdr_off. pose proof (foot_ge c). lia.
Qed.

Lemma spaced_hdr_off_mid (A B : list node) (k : node) (lo hi : Z) :
  spaced lo (A ++ k :: B) hi -> Forall (hdr_off (fst k)) (A ++ B).
Proof.
  intros H. apply spaced_app in H. destruct H as [mid [HA HB]].
  cbn [spaced] in HB. destruct HB as (Hk & Hsk & HB).
  pose proof (foot_ge k). apply Forall_app. split.
  - apply (spaced_hdr_off_outside _ _ _ _ HA). lia.
  - apply (spaced_hdr_off_outside _ _ _ _ HB). lia.
Qed.

(** The hypotheses under which a block is inserted: [P] are the blocks
    below it, [b :: Q] the blocks above. *)
Section Coalesce.

Variables (eb lo hi : Z) (P : list node) (b : node) (Q : list node) (n : node).

Hypothesis Hsp : spaced lo (P ++ b :: Q) hi.
Hypothesis HP : Forall (fun c => fst c < fst n) P.
Hypothesis HQ : Forall (fun c => fst n <= fst c) (b :: Q).
Hypothesis Hap : Forall (apart n) (P ++ b :: Q).
Hypothesis Hlo : lo <= fst n.
Hypothesis Hsz : 8 <= snd n.

Lemma above_new_block : fst n + snd n <= fst b.
Proof.
  apply Forall_app in Hap. destruct Hap as [_ Hb].
  apply Forall_cons_inv in Hb. destruct Hb as [Hb _].
  apply Forall_cons_inv in HQ. destruct HQ as [Hge _].
  unfold apart in Hb. pose proof (foot_ge n). pose proof (foot_ge b). lia.
Qed.

Lemma below_new_block (P' : list node) (k : node) :
  P = P' ++ [k] -> fst k + foot k <= fst n.
Proof.
  intros ->. apply Forall_app in Hap. destruct Hap as [Hk _].
  apply Forall_app in Hk. destruct Hk as [_ Hk].
  apply Forall_cons_inv in Hk. destruct Hk as [Hk _].
  apply Forall_app in HP. destruct HP as [_ Hlt].
  apply Forall_cons_inv in Hlt. destruct Hlt as [Hlt _].
  unfold apart in Hk. pose proof (foot_ge n). lia.
Qed.

Lemma coalesce_spaced : spaced lo (coalesce eb (P ++ b :: Q) n) hi.
Proof.
  pose proof above_new_block as Hb.
  destruct (snoc_case P) as [E | (P' & k & E)].
  - rewrite coalesce_split by assumption. rewrite E in *. cbn [absorb_left rev app].
    simpl in Hsp. destruct Hsp as (H1 & H2 & H3).
    apply absorb_right_spaced; try assumption.
    cbn [spaced]. repeat split; try lia. assumption.
  - pose proof (below_new_block P' k E) as Hk. rewrite E in *.
    rewrite <- linked_coalesce by assumption.
    rewrite <- app_assoc in Hsp. apply spaced_app in Hsp.
    destruct Hsp as [mid [H1 H2]]. apply spaced_app. exists mid.
    split; [assumption|]. apply linked_spaced; assumption.
Qed.

Lemma coalesce_tail :
  (exists L0, P ++ b :: Q = L0 ++ [(eb, 0)]) ->
  exists L0, coalesce eb (P ++ b :: Q) n = L0 ++ [(eb, 0)].
Proof.
  intros [L0 E].
  assert (HbQ : exists Q0, b :: Q = Q0 ++ [(eb, 0)]).
  { destruct (snoc_case Q) as [EQ | (Q' & x & EQ)]; rewrite EQ in E |- *.
    - exists []. simpl. f_equal.
      apply app_inj_tail in E. apply E.
    - exists (b :: Q').
      change (P ++ b :: Q' ++ [x]) with (P ++ (b :: Q') ++ [x]) in E.
      rewrite app_assoc in E. apply app_inj_tail in E.
      destruct E as [_ ->]. reflexivity. }
  rewrite coalesce_split by assumption.
  destruct (absorb_left P n) as [P1 n1].
  destruct (absorb_right_tail eb n1 b Q HbQ) as [R0 ER].
  exists (P1 ++ R0). rewrite ER, app_assoc. reflexivity.
Qed.

Lemma coalesce_sum :
  sum_sizes (coalesce eb (P ++ b :: Q) n) = sum_sizes (P ++ b :: Q) + snd n.
Proof.
  destruct (snoc_case P) as [E | (P' & k & E)]; rewrite E in *.
  - rewrite coalesce_split by assumption. cbn [absorb_left rev app].
    rewrite absorb_right_sum. lia.
  - rewrite <- linked_coalesce by assumption.
    rewrite !sum_sizes_app, linked_sum. simpl. lia.
Qed.

Lemma coalesce_apart (a : node) :
  Forall (apart a) (P ++ b :: Q) -> apart a n ->
  Forall (apart a) (coalesce eb (P ++ b :: Q) n).
Proof.
  intros Ha Han.
  destruct (snoc_case P) as [E | (P' & k & E)].
  - rewrite coalesce_split by assumption. rewrite E in *. cbn [absorb_left rev app].
    apply absorb_right_apart; assumption.
  - pose proof (below_new_block P' k E) as Hk. rewrite E in *.
    rewrite <- linked_coalesce by assumption.
    rewrite <- app_assoc in Ha. apply Forall_app in Ha. destruct Ha as [Ha1 Ha2].
    apply Forall_cons_inv in Ha2. destruct Ha2 as [Hak Ha2].
    apply Forall_app. split; [assumption|].
    apply linked_apart; assumption.
Qed.

End Coalesce.

(** *** The first-fit loop of mem_malloc *)

Lemma last_cons_default {A : Type} (l : list A) :
  forall a d, last (a :: l) d = last l a.
Proof.
  induction l as [|b l IH]; intros a d; [reflexivity|].
  change (last (a :: b :: l) d) with (last (b :: l) d).
  rewrite IH. symmetry. apply IH.
Qed.

Lemma prev_of_cons (start : Z) (x : node) (P : list node) :
  prev_of start (x :: P) = prev_of (fst x) P.
Proof. unfold prev_of. cbn [map]. apply last_cons_default. Qed.

Lemma prev_of_snoc (start : Z) (P : list node) (k : node) :
  prev_of start (P ++ [k]) = fst k.
Proof.
  unfold prev_of. rewrite map_app. cbn [map]. apply last_last.
Qed.

Lemma lseg_nonnull (m : memory) (n : node) (L : list node) (p q : Z) :
  lseg m p (n :: L) q -> p <> NULL.
Proof. intros H. apply H. Qed.

Lemma first_fit_found (m : memory) (eb sz : Z) :
  forall P prev p c sc q fuel,
    lseg m p (P ++ [(c, sc)]) q ->
    Forall (fun x => snd x < sz /\ fst x <> eb) P ->
    sz <= sc ->
    (length P < fuel)%nat ->
    first_fit fuel m eb sz prev p = Some (Some (prev_of prev P, c)).
Proof.
  induction P as [|x P IH]; intros prev p c sc q fuel HL HP Hsc Hfuel;
    (destruct fuel as [|fuel]; [simpl in Hfuel; lia|]).
  - cbn [app lseg fst snd] in HL. destruct HL as (-> & _ & Hs & _).
    cbn [first_fit]. rewrite Hs.
    destruct (Z.ltb_spec sc sz); [lia | reflexivity].
  - cbn [app lseg] in HL. destruct HL as (-> & _ & Hs & HL).
    apply Forall_cons_inv in HP. destruct HP as [[Hx1 Hx2] HP].
    cbn [first_fit]. rewrite Hs.
    destruct (Z.ltb_spec (snd x) sz); [|lia].
    assert (Hn : next_of m (fst x) <> NULL).
    { destruct P; exact (lseg_nonnull _ _ _ _ _ HL). }
    destruct (Z.eqb_spec (next_of m (fst x)) NULL); [contradiction|].
    destruct (Z.eqb_spec (fst x) eb); [contradiction|]. cbn [orb].
    rewrite prev_of_cons. apply (IH _ _ _ sc q); try assumption.
    simpl in Hfuel. lia.
Qed.

Lemma first_fit_exhausted (m : memory) (eb sz : Z) :
  forall L prev p sb fuel,
    lseg m p (L ++ [(eb, sb)]) NULL ->
    Forall (fun x => snd x < sz) L ->
    sb < sz ->
    (length L < fuel)%nat ->
    first_fit fuel m eb sz prev p = Some None.
Proof.
  induction L as [|x L IH]; intros prev p sb fuel HL HF Hsb Hfuel;
    (destruct fuel as [|fuel]; [simpl in Hfuel; lia|]).
  - cbn [app lseg fst snd] in HL. destruct HL as (-> & _ & Hs & _).
    cbn [first_fit]. rewrite Hs.
    destruct (Z.ltb_spec sb sz); [|lia].
    rewrite Z.eqb_refl, orb_true_r. reflexivity.
  - cbn [app lseg] in HL. destruct HL as (-> & _ & Hs & HL).
    apply Forall_cons_inv in HF. destruct HF as [Hx HF].
    cbn [first_fit]. rewrite Hs.
    destruct (Z.ltb_spec (snd x) sz); [|lia].
    destruct ((next_of m (fst x) =? NULL) || (fst x =? eb)); [reflexivity|].
    apply (IH _ _ sb); try assumption. simpl in Hfuel. lia.
Qed.

(** Either every block is too small, or there is a first one that fits. *)
Lemma first_fit_split (sz : Z) (L : list node) :
  Forall (fun x => snd x < sz) L
  \/ exists P c sc R,
       L = P ++ (c, sc) :: R /\ Forall (fun x => snd x < sz) P /\ sz <= sc.
Proof.
  induction L as [|[c sc] L IH].
  - left. constructor.
  - destruct (Z.ltb_spec sc sz) as [Hlt|Hge].
    + destruct IH as [IH | (P & c' & sc' & R & -> & HP & Hsc)].
      * left. constructor; assumption.
      * right. exists ((c, sc) :: P), c', sc', R.
        repeat split; [constructor|]; assumption.
    + right. exists [], c, sc, L. repeat split; [constructor | assumption].
Qed.

(** *** Geometry of a well-formed list *)

Lemma apart_sym (a b : node) : apart a b -> apart b a.
Proof. unfold apart. lia. Qed.

Lemma apart_inside (a k n : node) :
  apart a k -> fst k <= fst n -> fst n + foot n <= fst k + foot k ->
  apart a n.
Proof. unfold apart. pose proof (foot_ge n). lia. Qed.

Lemma spaced_inside_apart (A B : list node) (k n : node) (lo hi : Z) :
  spaced lo (A ++ k :: B) hi ->
  fst k <= fst n -> fst n + foot n <= fst k + foot k ->
  Forall (apart n) (A ++ B).
Proof.
  intros H Hlo Hhi. apply spaced_app in H. destruct H as [mid [HA HB]].
  cbn [spaced] in HB. destruct HB as (Hk & Hsk & HB).
  apply spaced_all in HA. apply spaced_all in HB.
  pose proof (foot_ge n). apply Forall_app. split.
  - eapply Forall_impl; [|exact HA]. intros x Hx. cbn beta in Hx.
    unfold apart. lia.
  - eapply Forall_impl; [|exact HB]. intros x Hx. cbn beta in Hx.
    unfold apart. lia.
Qed.

Lemma spaced_remove (A B : list node) (k : node) (lo hi : Z) :
  spaced lo (A ++ k :: B) hi -> spaced lo (A ++ B) hi.
Proof.
  intros H. apply spaced_app in H. destruct H as [mid [HA HB]].
  cbn [spaced] in HB. destruct HB as (Hk & Hsk & HB).
  apply spaced_app. exists mid. split; [assumption|].
  apply (spaced_weaken B _ hi _ hi HB); [|lia].
  pose proof (foot_ge k). lia.
Qed.

Lemma spaced_before_last (A B B0 : list node) (k e : node) (lo hi : Z) :
  spaced lo (A ++ k :: B) hi -> B = B0 ++ [e] ->
  fst k + foot k <= fst e.
Proof.
  intros H E. apply spaced_app in H. destruct H as [mid [_ HB]].
  cbn [spaced] in HB. destruct HB as (_ & _ & HB).
  apply spaced_all in HB. rewrite Forall_forall in HB.
  specialize (HB e). cbn beta in HB. apply HB. rewrite E. apply in_elt.
Qed.

Lemma tail_remove (P R : list node) (x e : node) :
  (exists L0, P ++ x :: R = L0 ++ [e]) -> x <> e ->
  exists L0, P ++ R = L0 ++ [e].
Proof.
  intros [L0 E] Hx.
  destruct (snoc_case R) as [-> | (R' & y & ->)].
  - apply app_inj_tail in E. destruct E as [_ E]. contradiction.
  - change (P ++ x :: R' ++ [y]) with (P ++ (x :: R') ++ [y]) in E.
    rewrite app_assoc in E. apply app_inj_tail in E. destruct E as [_ ->].
    exists (P ++ R'). rewrite app_assoc. reflexivity.
Qed.

Lemma Forall_remove_mid {A : Type} (Pr : A -> Prop) (l1 l2 : list A) (x : A) :
  Forall Pr (l1 ++ x :: l2) -> Pr x /\ Forall Pr (l1 ++ l2).
Proof.
  intros H. apply Forall_app in H. destruct H as [H1 H2].
  apply Forall_cons_inv in H2. destruct H2 as [Hx H2].
  split; [assumption|]. apply Forall_app. split; assumption.
Qed.

Lemma untouched_headers (L : list node) (y : Z) :
  Forall (fun x => y < fst x \/ fst x + foot x <= y) L ->
  Forall (fun x => y < fst x \/ fst x + 8 <= y) L.
Proof.
  apply Forall_impl. intros x Hx. pose proof (foot_ge x). lia.
Qed.

Lemma all_apart_mid (A1 A2 : list node) (a : node) :
  all_apart (A1 ++ a :: A2) ->
  all_apart (A1 ++ A2) /\ Forall (fun x => apart x a) (A1 ++ A2).
Proof.
  induction A1 as [|x A1 IH]; cbn [app all_apart].
  - intros [Ha H2]. split; [assumption|].
    eapply Forall_impl; [|exact Ha]. intros y. apply apart_sym.
  - intros [Hx H]. destruct (IH H) as [H1 H2].
    apply Forall_remove_mid in Hx. destruct Hx as [Hxa Hx].
    split; [split|]; [assumption | assumption |].
    constructor; assumption.
Qed.

(** *** Bytes held by the blocks of a list *)

Lemma sum_foots_app (A B : list node) :
  sum_foots (A ++ B) = sum_foots A + sum_foots B.
Proof. induction A as [|n A IH]; simpl; [reflexivity | rewrite IH; ring]. Qed.

Lemma sum_foots_nonneg (L : list node) : 0 <= sum_foots L.
Proof.
  induction L as [|n L IH]; simpl; [lia|]. pose proof (foot_ge n). lia.
Qed.

Lemma sum_sizes_le_foots (L : list node) : sum_sizes L <= sum_foots L.
Proof.
  induction L as [|n L IH]; simpl; [lia|]. pose proof (foot_ge n). lia.
Qed.

Lemma foot_le_sum (x : node) (L : list node) : In x L -> foot x <= sum_foots L.
Proof.
  intros H. apply in_split in H. destruct H as (A & B & ->).
  rewrite sum_foots_app. simpl.
  pose proof (sum_foots_nonneg A). pose proof (sum_foots_nonneg B). lia.
Qed.

Lemma absorb_right_foots (eb : Z) (n : node) (Q : list node) :
  sum_foots (absorb_right eb n Q) <= foot n + sum_foots Q.
Proof.
  unfold absorb_right. destruct Q as [|b Q]; [simpl; lia|].
  destruct ((fst n + snd n =? fst b) && negb (fst b =? eb)); simpl; [|lia].
  unfold foot. rewrite META_eq. cbn [snd]. lia.
Qed.

Lemma linked_foots (eb : Z) (k n : node) (Q : list node) :
  sum_foots (linked eb k n Q) <= foot k + foot n + sum_foots Q.
Proof.
  unfold linked. destruct (fst k + snd k =? fst n).
  - pose proof (absorb_right_foots eb (fst k, snd k + snd n) Q) as H.
    revert H. unfold foot. rewrite META_eq. cbn [snd]. lia.
  - cbn [sum_foots fold_right]. fold (sum_foots (absorb_right eb n Q)).
    pose proof (absorb_right_foots eb n Q). lia.
Qed.

Lemma coalesce_foots (eb : Z) (P Q : list node) (n : node) :
  Forall (fun c => fst c < fst n) P ->
  Forall (fun c => fst n <= fst c) Q ->
  sum_foots (coalesce eb (P ++ Q) n) <= sum_foots (P ++ Q) + foot n.
Proof.
  intros HP HQ.
  destruct (snoc_case P) as [E | (P' & k & E)]; subst P.
  - rewrite coalesce_split by assumption. cbn [absorb_left rev app].
    pose proof (absorb_right_foots eb n Q). lia.
  - rewrite <- linked_coalesce by assumption.
    rewrite !sum_foots_app. pose proof (linked_foots eb k n Q).
    simpl. lia.
Qed.

(** *** insert_free_block on a well-formed free list *)

Section Heap.

Variable start_block : Z.

Lemma chain_lseg (lo : Z) (s : state) (L : list node) :
  list_ok start_block lo s L ->
  lseg (mem s) start_block (chain start_block L) NULL.
Proof.
  intros OK. unfold chain. cbn [lseg fst snd].
  pose proof (start_pos _ _ _ _ OK). 
  repeat split; [unfold NULL; lia | apply (start_size _ _ _ _ OK)
                 | apply (list_links _ _ _ _ OK)].
Qed.

Lemma list_ok_intro (lo : Z) (s s' : state) (L L' : list node) :
  list_ok start_block lo s L ->
  end_block s' = end_block s ->
  lseg (mem s') start_block (chain start_block L') NULL ->
  Forall (apart (start_block, 0)) L' ->
  (exists L0, L' = L0 ++ [(end_block s, 0)]) ->
  spaced lo L' (end_block s + MEM_BLOCK_META_SIZE) ->
  list_ok start_block lo s' L'.
Proof.
  intros OK Eeb Hl Hap Ht Hsp.
  unfold chain in Hl. cbn [lseg fst snd] in Hl. destruct Hl as (_ & _ & Hs & Hl).
  constructor; rewrite ?Eeb; try assumption.
  - apply (lo_pos _ _ _ _ OK).
  - apply (hi_fits _ _ _ _ OK).
  - apply (start_pos _ _ _ _ OK).
  - apply (start_fits _ _ _ _ OK).
Qed.

(** The headers of the blocks the code can reach are pairwise disjoint. *)
Lemma chain_sep (lo : Z) (s : state) (L K R : list node) (k : node) :
  list_ok start_block lo s L ->
  chain start_block L = K ++ k :: R ->
  Forall (hdr_off (fst k)) (K ++ R).
Proof.
  intros OK E. pose proof (start_apart _ _ _ _ OK) as Hst.
  pose proof (list_spaced _ _ _ _ OK) as Hsp.
  unfold chain in E.
  destruct K as [|x K]; cbn [app] in E; injection E as E1 E2.
  - subst k L. cbn [fst app].
    eapply Forall_impl; [|exact Hst]. intros c.
    apply (apart_hdr_off (start_block, 0) c).
  - subst x L. cbn [app]. constructor.
    + apply Forall_remove_mid in Hst. destruct Hst as [Hk _].
      apply apart_sym in Hk. apply (apart_hdr_off k _ Hk).
    + apply (spaced_hdr_off_mid _ _ _ _ _ Hsp).
Qed.

(** Where a new block goes in a well-formed list. *)
Lemma insert_position (lo : Z) (s : state) (L : list node) (n : node) :
  list_ok start_block lo s L -> insertable start_block lo s L n ->
  exists P b Q,
    L = P ++ b :: Q
    /\ Forall (fun c => fst c < fst n) P
    /\ Forall (fun c => fst n <= fst c) (b :: Q).
Proof.
  intros OK (Hlo & Hhi & Hsz & _ & Hap).
  pose proof (list_spaced _ _ _ _ OK) as Hsp.
  destruct (spaced_split (fst n) L _ _ Hsp) as (P & Q0 & EL & HP & HQ).
  destruct Q0 as [|b Q].
  - exfalso. destruct (list_tail _ _ _ _ OK) as [L0 ET].
    rewrite app_nil_r in EL. rewrite EL in ET.
    assert (Hin : In (end_block s, 0) P) by (rewrite ET; apply in_elt).
    rewrite Forall_forall in HP. apply HP in Hin. cbn [fst] in Hin.
    rewrite META_eq in *. lia.
  - exists P, b, Q. repeat split; assumption.
Qed.

Lemma insert_free_block_correct (lo : Z) (s : state) (L : list node) (n : node) :
  list_ok start_block lo s L -> insertable start_block lo s L n ->
  forall fuel, (length L < fuel)%nat ->
  exists m',
    insert_free_block start_block fuel s (fst n) = Some (with_mem s m')
    /\ list_ok start_block lo (with_mem s m') (coalesce (end_block s) L n)
    /\ (forall y, y < fst n \/ fst n + 8 <= y ->
                  y < start_block \/ start_block + 8 <= y ->
                  Forall (fun c => y < fst c \/ fst c + 8 <= y) L ->
                  m' y = mem s y)
    /\ snd n <= size_of m' (fst n) <= snd n + sum_foots L.
Proof.
  intros OK INS fuel Hfuel.
  destruct (insert_position lo s L n OK INS) as (P & b & Q & EL & HP & HQ).
  pose proof (chain_lseg lo s L OK) as Hchain.
  destruct INS as (Hlo & Hhi & Hsz & Hsize & Hap).
  pose proof (lo_pos _ _ _ _ OK) as Hlo0.
  pose proof (hi_fits _ _ _ _ OK) as Hfit.
  pose proof (start_pos _ _ _ _ OK) as Hs0.
  pose proof (start_fits _ _ _ _ OK) as Hsfit.
  pose proof (start_apart _ _ _ _ OK) as Hst.
  pose proof (list_tail _ _ _ _ OK) as Htail.
  pose proof (list_spaced _ _ _ _ OK) as Hsp.
  rewrite META_eq in *. subst L.
  unfold chain in Hap, Hchain.
  apply Forall_cons_inv in Hap. destruct Hap as [Hns Hap].
  pose proof (above_new_block P b Q n HQ Hap) as Hnb.
  pose proof modulus_eq as Hmod.
  assert (Hall := spaced_all _ _ _ Hsp).
  assert (Hb : lo <= fst b /\ 0 <= snd b /\ fst b + foot b <= end_block s + 8).
  { apply Forall_remove_mid in Hall. apply Hall. }
  pose proof (foot_ge b) as Fb.
  assert (Hbsum : foot b <= sum_foots (P ++ b :: Q)).
  { apply foot_le_sum. apply in_elt. }
  assert (HnbL : Forall (hdr_off (fst n)) (P ++ b :: Q)).
  { eapply Forall_impl; [|exact Hap]. intros c. apply apart_hdr_off. }
  assert (Hnbs : hdr_off (fst n) (start_block, 0))
    by (apply (apart_hdr_off n _ Hns)).
  assert (Hres :
    exists m',
      insert_free_block start_block fuel s (fst n) = Some (with_mem s m')
      /\ lseg m' start_block
              (chain start_block (coalesce (end_block s) (P ++ b :: Q) n)) NULL
      /\ (forall y, y < fst n \/ fst n + 8 <= y ->
                    y < start_block \/ start_block + 8 <= y ->
                    Forall (fun c => y < fst c \/ fst c + 8 <= y) (P ++ b :: Q) ->
                    m' y = mem s y)
      /\ snd n <= size_of m' (fst n) <= snd n + snd b).
  { unfold chain. destruct (snoc_case P) as [E | (P' & k & E)]; subst P.
    - destruct (insert_chain start_block s [] (start_block, 0) b Q
                             (fst n) (snd n) fuel)
        as (m' & Hins & Hl & Hfr & Hsz'); cbn [fst snd app tl length];
        try assumption; try lia.
      + constructor; assumption.
      + eapply Forall_impl; [|exact Hst]. intros c.
        apply (apart_hdr_off (start_block, 0) c).
      + exists m'. split; [assumption|]. split; [|split; [|exact Hsz']].
        * pose proof (coalesce_split (end_block s) [] (b :: Q) n HP HQ) as Ec.
          cbn [absorb_left rev app] in Ec. rewrite Ec.
          unfold linked in Hl. cbn [fst snd app] in Hl.
          unfold hdr_off in Hnbs. cbn [fst] in Hnbs.
          destruct (Z.eqb_spec (start_block + 0) (fst n)); [lia|].
          destruct n; exact Hl.
        * intros y Hy1 Hy2 _. apply Hfr; assumption.
    - assert (Hk : lo <= fst k /\ 0 <= snd k /\ fst k + foot k <= end_block s + 8).
      { apply Forall_app in Hall. destruct Hall as [Hall _].
        apply Forall_app in Hall. destruct Hall as [_ Hall].
        apply Forall_cons_inv in Hall. apply Hall. }
      pose proof (foot_ge k) as Fk.
      pose proof (chain_sep lo s _ ((start_block, 0) :: P') (b :: Q) k OK) as Hks.
      rewrite <- app_assoc in Hchain, HnbL, Hsp. cbn [app] in Hchain, HnbL, Hsp.
      destruct (insert_chain start_block s ((start_block, 0) :: P') k b Q
                             (fst n) (snd n) fuel)
        as (m' & Hins & Hl & Hfr & Hsz'); cbn [fst snd app tl length];
        try assumption; try lia.
      + rewrite !length_app in Hfuel. cbn [length] in Hfuel. lia.
      + constructor; assumption.
      + apply Hks. unfold chain. rewrite <- app_assoc. reflexivity.
      + exists m'. split; [assumption|]. split; [|split; [|exact Hsz']].
        * rewrite <- linked_coalesce by assumption.
          destruct n; exact Hl.
        * intros y Hy1 Hy2 Hy3. apply Hfr; [|assumption].
          apply Forall_app in Hy3. destruct Hy3 as [Hy3 _].
          apply Forall_app in Hy3. destruct Hy3 as [_ Hy3].
          apply Forall_cons_inv in Hy3. apply Hy3. }
  destruct Hres as (m' & Hins & Hl & Hfr & Hsz').
  exists m'. split; [assumption|]. split; [|split; [assumption|lia]].
  apply (list_ok_intro lo s _ _ _ OK); cbn [mem end_block with_mem];
    rewrite ?META_eq; try assumption; try reflexivity.
  - eapply coalesce_apart; try eassumption. apply apart_sym. assumption.
  - eapply coalesce_tail; eassumption.
  - eapply coalesce_spaced; eassumption.
Qed.

(** *** Taking a block off the list *)

Lemma chain_prev (P : list node) :
  exists K k,
    chain start_block P = K ++ [k] /\ fst k = prev_of start_block P
    /\ length K = length P.
Proof.
  unfold chain. destruct (snoc_case P) as [-> | (P' & k & ->)].
  - exists [], (start_block, 0). repeat split.
  - exists ((start_block, 0) :: P'), k. repeat split.
    + symmetry. apply prev_of_snoc.
    + rewrite length_app. unfold node. simpl. lia.
Qed.

Lemma prev_in (P : list node) :
  prev_of start_block P = start_block
  \/ exists x, In x P /\ fst x = prev_of start_block P.
Proof.
  destruct (snoc_case P) as [-> | (P' & k & ->)].
  - left. reflexivity.
  - right. exists k. split; [apply in_elt | symmetry; apply prev_of_snoc].
Qed.

(** A byte outside [start_block] and outside the blocks of the list is
    outside the header of [prev]. *)
Lemma prev_untouched (P X : list node) (y : Z) :
  y < start_block \/ start_block + 8 <= y ->
  Forall (fun x => y < fst x \/ fst x + foot x <= y) (P ++ X) ->
  y < prev_of start_block P \/ prev_of start_block P + 8 <= y.
Proof.
  intros Hs HL. destruct (prev_in P) as [-> | (x & Hx & <-)]; [assumption|].
  rewrite Forall_forall in HL. specialize (HL x).
  pose proof (foot_ge x). cbn beta in HL.
  assert (Hin : In x (P ++ X)) by (apply in_or_app; left; assumption).
  apply HL in Hin. lia.
Qed.

(** [prev->next = curr->next]. *)
Lemma unlink_ok (lo : Z) (s : state) (P R : list node) (c sc : Z) :
  list_ok start_block lo s (P ++ (c, sc) :: R) ->
  0 < sc ->
  let prev := prev_of start_block P in
  let m1 := set_next (mem s) prev (next_of (mem s) c) in
  next_of (mem s) prev = c
  /\ list_ok start_block lo (with_mem s m1) (P ++ R)
  /\ size_of m1 c = sc
  /\ (forall y, y < prev \/ prev + 8 <= y -> m1 y = mem s y).
Proof.
  intros OK Hsc prev m1.
  pose proof (chain_lseg lo s _ OK) as Hch.
  destruct (chain_prev P) as (K & [k sk] & EK & Ek & _). cbn [fst] in Ek.
  fold prev in Ek. subst k.
  assert (E : chain start_block (P ++ (c, sc) :: R)
              = K ++ (prev, sk) :: (c, sc) :: R).
  { unfold chain in *.
    change ((start_block, 0) :: P ++ (c, sc) :: R)
      with (((start_block, 0) :: P) ++ (c, sc) :: R).
    rewrite EK, <- app_assoc. reflexivity. }
  pose proof (chain_sep lo s _ K ((c, sc) :: R) (prev, sk) OK E) as Hsep.
  cbn [fst] in Hsep.
  rewrite E in Hch. apply lseg_app in Hch. destruct Hch as [r [HK Hk]].
  cbn [lseg fst snd] in Hk.
  destruct Hk as (-> & Hpn & Hps & Hpc & Hcn & Hcs & HR).
  rewrite Hpc in Hcn, Hcs, HR.
  apply Forall_app in Hsep. destruct Hsep as [HsK HsR].
  apply Forall_cons_inv in HsR. destruct HsR as [Hsc' HsR].
  unfold hdr_off in Hsc'. cbn [fst] in Hsc'.
  pose proof (next_of_range (mem s) c) as Rn.
  split; [assumption|]. split; [|split].
  - apply (list_ok_intro lo s _ (P ++ (c, sc) :: R)); try assumption.
    + reflexivity.
    + unfold chain in *.
      change ((start_block, 0) :: P ++ R) with (((start_block, 0) :: P) ++ R).
      rewrite EK, <- app_assoc. cbn [app mem with_mem].
      apply lseg_app. exists prev. split.
      * apply lseg_set_next; assumption.
      * cbn [lseg fst snd]. subst m1. msimp. repeat split; try assumption.
        apply lseg_set_next; assumption.
    + pose proof (start_apart _ _ _ _ OK) as Hst.
      apply Forall_remove_mid in Hst. apply Hst.
    + apply (tail_remove P R (c, sc)); [apply (list_tail _ _ _ _ OK)|].
      intros [= _ ->]. lia.
    + apply (spaced_remove _ _ _ _ _ (list_spaced _ _ _ _ OK)).
  - subst m1. fields. assumption.
  - intros y Hy. subst m1. unfold set_next. apply store32_outside. lia.
Qed.

Lemma coalesce_facts (lo : Z) (s : state) (L : list node) (n : node) :
  list_ok start_block lo s L -> insertable start_block lo s L n ->
  sum_sizes (coalesce (end_block s) L n) = sum_sizes L + snd n
  /\ sum_foots (coalesce (end_block s) L n) <= sum_foots L + foot n
  /\ (forall a, Forall (apart a) (chain start_block L) -> apart a n ->
                Forall (apart a)
                       (chain start_block (coalesce (end_block s) L n))).
Proof.
  intros OK INS.
  destruct (insert_position lo s L n OK INS)
    as (P & b & Q & -> & HP & HQ).
  destruct INS as (Hlo & Hhi & Hsz & _ & Hap). rewrite META_eq in Hsz.
  unfold chain in *. apply Forall_cons_inv in Hap. destruct Hap as [_ Hap].
  pose proof (list_spaced _ _ _ _ OK) as Hsp.
  split; [|split].
  - eapply coalesce_sum; eassumption.
  - apply coalesce_foots; assumption.
  - intros a Ha Han. apply Forall_cons_inv in Ha. destruct Ha as [Has Ha].
    constructor; [assumption|]. eapply coalesce_apart; eassumption.
Qed.

(** *** Allocated blocks are out of the way *)

Lemma allocated_frame (lo : Z) (s s' : state) (L L' : list node) (a : node) :
  allocated start_block lo s L a ->
  end_block s' = end_block s ->
  (forall y, fst a <= y < fst a + 8 -> mem s' y = mem s y) ->
  Forall (apart a) (chain start_block L') ->
  allocated start_block lo s' L' a.
Proof.
  intros (H1 & H2 & H3 & H4 & H5 & _) Eeb Hfr Hap.
  unfold allocated. rewrite Eeb. repeat split; try assumption.
  - rewrite <- H4. apply load32_ext. intros y Hy. apply Hfr. lia.
  - rewrite <- H5. apply load32_ext. intros y Hy. apply Hfr. lia.
Qed.

Lemma allocated_size (lo : Z) (s : state) (L : list node) (a : node) :
  allocated start_block lo s L a -> 12 <= snd a.
Proof.
  intros (_ & _ & H & _). rewrite META_eq in H.
  change MEM_ALIGN_NUM with 4 in H. lia.
Qed.

(** The bytes of an allocated block are neither in the header of
    [start_block] nor in a block of the free list. *)
Lemma allocated_untouched (lo : Z) (s : state) (L : list node) (a : node) (y : Z) :
  allocated start_block lo s L a ->
  fst a <= y < fst a + snd a ->
  (y < start_block \/ start_block + 8 <= y)
  /\ Forall (fun x => y < fst x \/ fst x + foot x <= y) L.
Proof.
  intros Ha Hy. pose proof (allocated_size _ _ _ _ Ha) as Hsa.
  destruct Ha as (_ & _ & _ & _ & _ & Hap).
  unfold chain in Hap. apply Forall_cons_inv in Hap. destruct Hap as [Hs Hap].
  split.
  - revert Hs. unfold apart, foot. rewrite META_eq. cbn [fst snd]. lia.
  - eapply Forall_impl; [|exact Hap]. intros x.
    unfold apart, foot. rewrite META_eq. lia.
Qed.

(** *** mem_malloc on a well-formed heap *)

Lemma fit_not_last (lo : Z) (s : state) (P R : list node) (c sc : Z) :
  list_ok start_block lo s (P ++ (c, sc) :: R) -> 0 < sc ->
  exists R0, R = R0 ++ [(end_block s, 0)].
Proof.
  intros OK Hsc. destruct (list_tail _ _ _ _ OK) as [L0 E].
  destruct (snoc_case R) as [-> | (R' & y & ->)].
  - apply app_inj_tail in E. destruct E as [_ [= _ ->]]. lia.
  - change (P ++ (c, sc) :: R' ++ [y]) with (P ++ ((c, sc) :: R') ++ [y]) in E.
    rewrite app_assoc in E. apply app_inj_tail in E. destruct E as [_ ->].
    exists R'. reflexivity.
Qed.

(** Bounds on a block of the list that is not its last. *)
Lemma fit_bounds (lo : Z) (s : state) (P R : list node) (c sc : Z) :
  list_ok start_block lo s (P ++ (c, sc) :: R) -> 0 < sc ->
  lo <= c /\ c + foot (c, sc) <= end_block s
  /\ Forall (fun x => fst x + foot x <= c) P.
Proof.
  intros OK Hsc. destruct (fit_not_last lo s P R c sc OK Hsc) as [R0 ER].
  pose proof (list_spaced _ _ _ _ OK) as Hsp.
  pose proof (spaced_before_last _ _ _ _ _ _ _ Hsp ER) as Hc. cbn [fst] in Hc.
  apply spaced_app in Hsp. destruct Hsp as [mid [HP Hc']].
  cbn [spaced fst] in Hc'. destruct Hc' as (Hmid & _ & _).
  pose proof (spaced_bounds _ _ _ HP) as Hlo.
  repeat split; try lia.
  apply spaced_all in HP. eapply Forall_impl; [|exact HP].
  intros x Hx. cbn beta in Hx. lia.
Qed.

Lemma end_block_nonnull (lo : Z) (s : state) (L : list node) :
  list_ok start_block lo s L -> lo <= end_block s /\ end_block s <> NULL.
Proof.
  intros OK. pose proof (lo_pos _ _ _ _ OK) as Hlo.
  destruct (list_tail _ _ _ _ OK) as [L0 E].
  pose proof (list_spaced _ _ _ _ OK) as Hsp.
  apply spaced_all in Hsp. rewrite Forall_forall in Hsp.
  specialize (Hsp (end_block s, 0)). cbn [fst] in Hsp.
  assert (lo <= end_block s) by (apply Hsp; rewrite E; apply in_elt).
  unfold NULL. lia.
Qed.

(** The loop of [mem_malloc] stops on the first block that fits. *)
Lemma mem_malloc_fit (lo : Z) (s : state) (Al P R : list node)
      (c sc n0 : Z) (fuel : nat) :
  heap_ok start_block lo s (P ++ (c, sc) :: R) Al ->
  0 < n0 < 2 ^ 31 -> need n0 < 2 ^ 31 ->
  Forall (fun x => snd x < need n0) P -> need n0 <= sc ->
  (length P < fuel)%nat ->
  mem_malloc start_block fuel s n0
  = take_block start_block fuel s (need n0) (prev_of start_block P) c.
Proof.
  intros HOK Hn0 Hneed HP Hsc Hfuel.
  pose proof (heap_list _ _ _ _ _ HOK) as OK.
  pose proof (heap_bit _ _ _ _ _ HOK) as Hbit.
  pose proof (need_bounds n0 Hn0) as Hnb.
  pose proof (end_block_nonnull lo s _ OK) as [_ Heb].
  destruct (fit_bounds lo s P R c sc OK ltac:(lia)) as (Hc1 & Hc2 & HPc).
  pose proof (foot_ge (c, sc)) as Fc.
  unfold mem_malloc. fold (need n0). rewrite Hbit.
  destruct (Z.eqb_spec (end_block s) NULL); [contradiction|].
  destruct (Z.eqb_spec n0 0); [lia|].
  rewrite !land_bit_clear by lia. cbn [orb negb Z.eqb].
  rewrite (first_fit_found (mem s) (end_block s) (need n0) P start_block
             (next_of (mem s) start_block) c sc (next_of (mem s) c) fuel);
    try assumption; [reflexivity| |].
  - pose proof (list_links _ _ _ _ OK) as Hl. unfold free_list in Hl.
    apply lseg_app in Hl. destruct Hl as [r [Hl1 Hl2]].
    apply lseg_app. exists r. split; [assumption|].
    cbn [lseg fst snd] in *. destruct Hl2 as (-> & ? & ? & _).
    repeat split; assumption.
  - rewrite Forall_forall in *. intros x Hx. split; [apply HP; assumption|].
    specialize (HPc x Hx). cbn beta in HPc. pose proof (foot_ge x). lia.
Qed.

Lemma heap_ok_fit_facts (lo : Z) (s : state) (Al P R : list node) (c sc : Z) :
  heap_ok start_block lo s (P ++ (c, sc) :: R) Al -> 0 < sc ->
  Forall (hdr_off c) (chain start_block (P ++ R))
  /\ Forall (apart (c, sc)) (chain start_block (P ++ R))
  /\ Forall (fun a => apart a (c, sc)
                      /\ Forall (apart a) (chain start_block (P ++ R))) Al
  /\ sc + sum_foots (P ++ R) + sum_sizes Al < 2 ^ 31.
Proof.
  intros HOK Hsc.
  pose proof (heap_list _ _ _ _ _ HOK) as OK.
  destruct (fit_bounds lo s P R c sc OK Hsc) as (Hc1 & Hc2 & _).
  pose proof (foot_ge (c, sc)) as Fc. cbn [snd] in Fc.
  split; [|split; [|split]].
  - apply (chain_sep lo s _ ((start_block, 0) :: P) R (c, sc) OK).
    reflexivity.
  - unfold chain. constructor.
    + pose proof (start_apart _ _ _ _ OK) as Hst.
      apply Forall_remove_mid in Hst. apply apart_sym, Hst.
    + apply (spaced_inside_apart _ _ (c, sc) (c, sc) _ _
               (list_spaced _ _ _ _ OK)); lia.
  - eapply Forall_impl; [|exact (heap_alloc _ _ _ _ _ HOK)].
    intros a (_ & _ & _ & _ & _ & Hap).
    unfold chain in *. apply Forall_cons_inv in Hap. destruct Hap as [Has Hap].
    apply Forall_remove_mid in Hap. destruct Hap as [Hac Hap].
    split; [assumption|]. constructor; assumption.
  - pose proof (heap_total _ _ _ _ _ HOK) as Ht.
    rewrite sum_foots_app in *. cbn [sum_foots fold_right] in Ht.
    fold (sum_foots R) in Ht. lia.
Qed.

Lemma take_block_whole (lo : Z) (s : state) (Al P R : list node)
      (c sc nd : Z) (fuel : nat) :
  heap_ok start_block lo s (P ++ (c, sc) :: R) Al ->
  12 <= nd <= sc -> sc - nd <= 16 ->
  exists s',
    take_block start_block fuel s nd (prev_of start_block P) c = Some (s', c + 8)
    /\ mem_available_bytes s' = wrap (mem_available_bytes s - nd)
    /\ end_block s' = end_block s
    /\ mem_regions_count s' = mem_regions_count s
    /\ (forall y, y < start_block \/ start_block + 8 <= y ->
                  Forall (fun x => y < fst x \/ fst x + foot x <= y)
                         (P ++ (c, sc) :: R) ->
                  mem s' y = mem s y)
    /\ heap_ok start_block lo s' (P ++ R) ((c, sc) :: Al).
Proof.
  intros HOK Hnd Hrest.
  destruct (heap_ok_fit_facts lo s Al P R c sc HOK ltac:(lia))
    as (Hsepc & Hapc & HAlc & Htot).
  pose proof (heap_list _ _ _ _ _ HOK) as OK.
  pose proof (heap_bit _ _ _ _ _ HOK) as Hbit.
  pose proof (heap_alloc _ _ _ _ _ HOK) as HAl.
  pose proof (heap_apart _ _ _ _ _ HOK) as Hapart.
  destruct (unlink_ok lo s P R c sc OK ltac:(lia))
    as (Hprev & OK1 & Hsz1 & Hfr1).
  destruct (fit_bounds lo s P R c sc OK ltac:(lia)) as (Hc1 & Hc2 & _).
  pose proof (foot_ge (c, sc)) as Fc. cbn [snd] in Fc.
  pose proof modulus_eq as Hmod.
  pose proof (hi_fits _ _ _ _ OK) as Hfit. rewrite META_eq in Hfit.
  pose proof (lo_pos _ _ _ _ OK) as Hlo0.
  pose proof (sum_foots_nonneg (P ++ R)) as Hf0.
  assert (Ha0 : 0 <= sum_sizes Al).
  { clear - HAl. induction HAl as [|a Al Ha _ IH]; simpl; [lia|].
    pose proof (allocated_size _ _ _ _ Ha). lia. }
  set (m1 := set_next (mem s) (prev_of start_block P) (next_of (mem s) c)) in *.
  assert (Hbytes : forall y,
             y < start_block \/ start_block + 8 <= y ->
             Forall (fun x => y < fst x \/ fst x + foot x <= y)
                    (P ++ (c, sc) :: R) ->
             set_next (set_size m1 c (sc + 2 ^ 31)) c NULL y = mem s y).
  { intros y Hy1 Hy2. unfold set_next, set_size.
    assert (Hyc : y < c \/ c + sc <= y).
    { apply Forall_remove_mid in Hy2. destruct Hy2 as [Hy2 _].
      cbn [fst] in Hy2. lia. }
    rewrite !store32_outside by lia. apply Hfr1.
    apply (prev_untouched P ((c, sc) :: R)); assumption. }
  eexists. split.
  { unfold take_block. rewrite Hprev. fold m1. cbn [mem with_mem].
    rewrite Hsz1, META_eq. unwrap.
    destruct (Z.gtb_spec (sc - nd) (2 * 8)) as [|_]; [lia|].
    cbn [mem with_mem end_block mem_alloc_bit mem_available_bytes
         mem_regions_count].
    rewrite Hsz1, Hbit, lor_bit by lia. unwrap. reflexivity. }
  cbn [mem end_block mem_alloc_bit mem_available_bytes mem_regions_count].
  split; [reflexivity|]. split; [reflexivity|]. split; [reflexivity|].
  split; [exact Hbytes|].
  constructor; cbn [mem end_block mem_alloc_bit].
  - apply (list_ok_intro lo (with_mem s m1) _ (P ++ R));
      try assumption; try reflexivity.
    + cbn [mem]. apply lseg_set_next; [assumption|].
      apply lseg_set_size; [assumption|].
      apply (chain_lseg lo _ _ OK1).
    + apply (start_apart _ _ _ _ OK1).
    + apply (list_tail _ _ _ _ OK1).
    + apply (list_spaced _ _ _ _ OK1).
  - reflexivity.
  - constructor.
    + unfold allocated. cbn [fst snd mem end_block]. rewrite META_eq.
      change MEM_ALIGN_NUM with 4. msimp.
      repeat split; try lia; try assumption.
    + rewrite Forall_forall in *. intros a Ha.
      destruct (HAlc a Ha) as [Hac HaPR].
      pose proof (HAl a Ha) as Haa.
      apply (allocated_frame lo s _ (P ++ (c, sc) :: R));
        [assumption | reflexivity | | assumption].
      intros y Hy. cbn [mem].
      destruct (allocated_untouched lo s _ a y Haa) as [Hy1 Hy2].
      { pose proof (allocated_size _ _ _ _ Haa). lia. }
      apply Hbytes; assumption.
  - cbn [all_apart]. split; [|assumption].
    eapply Forall_impl; [|exact HAlc]. intros a [Ha _]. apply apart_sym, Ha.
  - cbn [sum_sizes fold_right snd]. fold (sum_sizes Al). lia.
Qed.

Lemma take_block_split (lo : Z) (s : state) (Al P R : list node)
      (c sc nd : Z) (fuel : nat) :
  heap_ok start_block lo s (P ++ (c, sc) :: R) Al ->
  12 <= nd -> 16 < sc - nd ->
  (length (P ++ R) < fuel)%nat ->
  exists s',
    take_block start_block fuel s nd (prev_of start_block P) c = Some (s', c + 8)
    /\ mem_available_bytes s' = wrap (mem_available_bytes s - nd)
    /\ end_block s' = end_block s
    /\ mem_regions_count s' = mem_regions_count s
    /\ (forall y, y < start_block \/ start_block + 8 <= y ->
                  Forall (fun x => y < fst x \/ fst x + foot x <= y)
                         (P ++ (c, sc) :: R) ->
                  mem s' y = mem s y)
    /\ heap_ok start_block lo s'
               (coalesce (end_block s) (P ++ R) (c + nd, sc - nd))
               ((c, nd) :: Al)
    /\ sum_sizes (coalesce (end_block s) (P ++ R) (c + nd, sc - nd))
       = sum_sizes (P ++ R) + (sc - nd).
Proof.
  intros HOK Hnd Hrest Hfuel.
  destruct (heap_ok_fit_facts lo s Al P R c sc HOK ltac:(lia))
    as (Hsepc & Hapc & HAlc & Htot).
  pose proof (heap_list _ _ _ _ _ HOK) as OK.
  pose proof (heap_bit _ _ _ _ _ HOK) as Hbit.
  pose proof (heap_alloc _ _ _ _ _ HOK) as HAl.
  pose proof (heap_apart _ _ _ _ _ HOK) as Hapart.
  destruct (unlink_ok lo s P R c sc OK ltac:(lia))
    as (Hprev & OK1 & Hsz1 & Hfr1).
  destruct (fit_bounds lo s P R c sc OK ltac:(lia)) as (Hc1 & Hc2 & _).
  pose proof modulus_eq as Hmod.
  pose proof (hi_fits _ _ _ _ OK) as Hfit. rewrite META_eq in Hfit.
  pose proof (lo_pos _ _ _ _ OK) as Hlo0.
  pose proof (sum_foots_nonneg (P ++ R)) as Hf0.
  assert (Ha0 : 0 <= sum_sizes Al).
  { clear - HAl. induction HAl as [|a Al Ha _ IH]; simpl; [lia|].
    pose proof (allocated_size _ _ _ _ Ha). lia. }
  assert (Efoot : foot (c, sc) = sc)
    by (unfold foot; rewrite META_eq; cbn [snd]; lia).
  rewrite Efoot in Hc2.
  set (m1 := set_next (mem s) (prev_of start_block P) (next_of (mem s) c)) in *.
  set (n := (c + nd, sc - nd)).
  set (m3 := set_size (set_size m1 (c + nd) (sc - nd)) c nd).
  assert (Efn : foot n = sc - nd)
    by (unfold foot, n; rewrite META_eq; cbn [snd]; lia).
  assert (Hapn : Forall (apart n) (chain start_block (P ++ R))).
  { eapply Forall_impl; [|exact Hapc]. intros x Hx.
    apply apart_sym. apply apart_sym in Hx.
    apply (apart_inside x (c, sc) n Hx);
      rewrite ?Efn, ?Efoot; unfold n; cbn [fst]; lia. }
  assert (Hsepn : Forall (hdr_off (c + nd)) (chain start_block (P ++ R))).
  { eapply Forall_impl; [|exact Hapn]. intros x Hx.
    apply (apart_hdr_off n x Hx). }
  assert (OK3 : list_ok start_block lo (with_mem (with_mem s m1) m3) (P ++ R)).
  { apply (list_ok_intro lo (with_mem s m1) _ (P ++ R));
      try assumption; try reflexivity.
    - cbn [mem with_mem]. unfold m3.
      apply lseg_set_size; [assumption|]. apply lseg_set_size; [assumption|].
      apply (chain_lseg lo _ _ OK1).
    - apply (start_apart _ _ _ _ OK1).
    - apply (list_tail _ _ _ _ OK1).
    - apply (list_spaced _ _ _ _ OK1). }
  assert (INS : insertable start_block lo (with_mem (with_mem s m1) m3)
                           (P ++ R) n).
  { unfold insertable, n. cbn [fst snd mem end_block with_mem].
    rewrite META_eq. unfold m3. msimp. repeat split; try lia. exact Hapn. }
  destruct (insert_free_block_correct lo _ _ n OK3 INS fuel Hfuel)
    as (m4 & Hins & OK4 & Hfr4 & _).
  cbn [fst mem end_block with_mem] in Hins, OK4, Hfr4.
  change (fst n) with (c + nd) in Hins, Hfr4.
  assert (Hsz4 : size_of m4 c = nd).
  { transitivity (size_of m3 c).
    - apply load32_ext. intros y Hy.
      unfold chain in Hsepc.
      apply Forall_cons_inv in Hsepc. destruct Hsepc as [Hs Hsepc].
      unfold hdr_off in Hs. cbn [fst] in Hs.
      apply Hfr4; try lia.
      eapply Forall_impl; [|exact Hsepc]. unfold hdr_off. intros x Hx. lia.
    - unfold m3. msimp. reflexivity. }
  destruct (coalesce_facts lo _ _ n OK3 INS) as (Hsum & Hfoots & Hcoal).
  cbn [end_block with_mem] in Hsum, Hfoots, Hcoal.
  assert (Hapcn : Forall (apart (c, nd))
                         (chain start_block (coalesce (end_block s) (P ++ R) n))).
  { apply Hcoal.
    - eapply Forall_impl; [|exact Hapc]. intros x.
      unfold apart, foot. rewrite META_eq. cbn [fst snd]. lia.
    - unfold apart, n, foot. rewrite META_eq. cbn [fst snd]. lia. }
  assert (Hbytes : forall y,
             y < start_block \/ start_block + 8 <= y ->
             Forall (fun x => y < fst x \/ fst x + foot x <= y)
                    (P ++ (c, sc) :: R) ->
             set_next (set_size m4 c (nd + 2 ^ 31)) c NULL y = mem s y).
  { intros y Hy1 Hy2. unfold set_next, set_size.
    apply Forall_remove_mid in Hy2. destruct Hy2 as [Hyc Hy2].
    rewrite Efoot in Hyc. cbn [fst] in Hyc.
    rewrite !store32_outside by lia.
    rewrite Hfr4; try lia.
    - unfold m3, set_size. rewrite !store32_outside by lia. apply Hfr1.
      apply (prev_untouched P R); assumption.
    - apply untouched_headers. assumption. }
  eexists. split.
  { unfold take_block. rewrite Hprev. fold m1. cbn [mem with_mem].
    rewrite Hsz1, META_eq. unwrap.
    destruct (Z.gtb_spec (sc - nd) (2 * 8)) as [_|]; [|lia].
    fold m3. rewrite Hins.
    cbn [mem with_mem end_block mem_alloc_bit mem_available_bytes
         mem_regions_count].
    rewrite Hsz4, Hbit, lor_bit by lia. unwrap. reflexivity. }
  cbn [mem end_block mem_alloc_bit mem_available_bytes mem_regions_count].
  split; [reflexivity|]. split; [reflexivity|]. split; [reflexivity|].
  split; [exact Hbytes|]. split; [|exact Hsum].
  constructor; cbn [mem end_block mem_alloc_bit].
  - apply (list_ok_intro lo _ _ _ _ OK4); try reflexivity.
    + cbn [mem with_mem].
      assert (Hsep4 : Forall (hdr_off c)
                (chain start_block (coalesce (end_block s) (P ++ R) n))).
      { eapply Forall_impl; [|exact Hapcn]. intros x Hx.
        apply (apart_hdr_off (c, nd) x Hx). }
      apply lseg_set_next; [assumption|]. apply lseg_set_size; [assumption|].
      apply (chain_lseg lo _ _ OK4).
    + apply (start_apart _ _ _ _ OK4).
    + apply (list_tail _ _ _ _ OK4).
    + apply (list_spaced _ _ _ _ OK4).
  - reflexivity.
  - constructor.
    + unfold allocated. cbn [fst snd mem end_block]. rewrite META_eq.
      change MEM_ALIGN_NUM with 4. msimp.
      repeat split; try lia; try assumption.
    + rewrite Forall_forall in *. intros a Ha.
      destruct (HAlc a Ha) as [Hac HaPR].
      pose proof (HAl a Ha) as Haa.
      apply (allocated_frame lo s _ (P ++ (c, sc) :: R));
        [assumption | reflexivity | |].
      * intros y Hy. cbn [mem].
        destruct (allocated_untouched lo s _ a y Haa) as [Hy1 Hy2].
        { pose proof (allocated_size _ _ _ _ Haa). lia. }
        apply Hbytes; assumption.
      * apply Hcoal; [assumption|].
        apply (apart_inside a (c, sc) n Hac);
          rewrite ?Efn, ?Efoot; unfold n; cbn [fst]; lia.
  - cbn [all_apart]. split; [|assumption].
    eapply Forall_impl; [|exact HAlc]. intros a [Ha _].
    apply apart_sym. revert Ha.
    unfold apart, foot. rewrite META_eq. cbn [fst snd]. lia.
  - cbn [sum_sizes fold_right snd]. fold (sum_sizes Al). fold n. lia.
Qed.

(** *** mem_free on a well-formed heap *)

Lemma mem_free_ok (lo : Z) (s : state) (L A1 A2 : list node) (a : node)
      (fuel : nat) :
  heap_ok start_block lo s L (A1 ++ a :: A2) ->
  (length L < fuel)%nat ->
  exists s',
    mem_free start_block fuel s (fst a + 8) = Some s'
    /\ mem_available_bytes s' = wrap (mem_available_bytes s + snd a)
    /\ end_block s' = end_block s
    /\ mem_regions_count s' = mem_regions_count s
    /\ (forall y, y < start_block \/ start_block + 8 <= y ->
                  Forall (fun x => y < fst x \/ fst x + foot x <= y) L ->
                  y < fst a \/ fst a + 8 <= y ->
                  mem s' y = mem s y)
    /\ heap_ok start_block lo s' (coalesce (end_block s) L a) (A1 ++ A2)
    /\ Z.land (size_of (mem s') (fst a)) (mem_alloc_bit s') = 0
    /\ sum_sizes (coalesce (end_block s) L a) = sum_sizes L + snd a.
Proof.
  intros HOK Hfuel.
  pose proof (heap_list _ _ _ _ _ HOK) as OK.
  pose proof (heap_bit _ _ _ _ _ HOK) as Hbit.
  pose proof (heap_alloc _ _ _ _ _ HOK) as HAl.
  pose proof (heap_apart _ _ _ _ _ HOK) as Hapart.
  pose proof (heap_total _ _ _ _ _ HOK) as Htot.
  destruct (all_apart_mid A1 A2 a Hapart) as [Hapart' Haa].
  apply Forall_remove_mid in HAl. destruct HAl as [Ha HAl].
  assert (Ha0 : 0 <= sum_sizes (A1 ++ A2)).
  { clear - HAl. induction HAl as [|x Al Hx _ IH]; simpl; [lia|].
    pose proof (allocated_size _ _ _ _ Hx). lia. }
  rewrite sum_sizes_app in Htot. cbn [sum_sizes fold_right] in Htot.
  fold (sum_sizes A2) in Htot. rewrite sum_sizes_app in Ha0.
  pose proof (sum_foots_nonneg L) as Hf0.
  destruct a as [a sa]. cbn [fst snd] in *.
  pose proof (allocated_size _ _ _ _ Ha) as Ha3. cbn [snd] in Ha3.
  pose proof Ha as (Ha1 & Ha2 & _ & Ha4 & Ha5 & Ha6).
  cbn [fst snd] in Ha1, Ha2, Ha4, Ha5.
  pose proof modulus_eq as Hmod.
  pose proof (hi_fits _ _ _ _ OK) as Hfit. rewrite META_eq in Hfit.
  pose proof (lo_pos _ _ _ _ OK) as Hlo0.
  set (m1 := set_size (mem s) a sa).
  set (s1 := mkState m1 (end_block s) (mem_alloc_bit s)
                     (wrap (mem_available_bytes s + sa)) (mem_regions_count s)).
  assert (Hsepa : Forall (hdr_off a) (chain start_block L)).
  { eapply Forall_impl; [|exact Ha6]. intros x Hx.
    apply (apart_hdr_off (a, sa) x Hx). }
  assert (OK1 : list_ok start_block lo s1 L).
  { apply (list_ok_intro lo s s1 L L OK); try reflexivity.
    - cbn [mem s1]. apply lseg_set_size; [assumption|].
      apply (chain_lseg lo _ _ OK).
    - apply (start_apart _ _ _ _ OK).
    - apply (list_tail _ _ _ _ OK).
    - apply (list_spaced _ _ _ _ OK). }
  assert (INS : insertable start_block lo s1 L (a, sa)).
  { unfold insertable. cbn [fst snd mem end_block s1]. rewrite META_eq.
    unfold m1. msimp. repeat split; try lia. assumption. }
  destruct (insert_free_block_correct lo s1 L (a, sa) OK1 INS fuel Hfuel)
    as (m2 & Hins & OK2 & Hfr2 & Hsz2).
  cbn [fst snd mem end_block s1] in Hins, OK2, Hfr2, Hsz2.
  destruct (coalesce_facts lo s1 L (a, sa) OK1 INS) as (Hsum & Hfoots & Hcoal).
  cbn [snd end_block s1] in Hsum, Hfoots, Hcoal.
  assert (Efa : foot (a, sa) = sa)
    by (unfold foot; rewrite META_eq; cbn [snd]; lia).
  rewrite Efa in Hfoots.
  exists (with_mem s1 m2). split.
  { unfold mem_free. rewrite META_eq.
    destruct (Z.eqb_spec (a + 8) NULL) as [E|_]; [unfold NULL in E; lia|].
    replace (a + 8 - 8) with a by ring. unwrap.
    assert (Hc : negb (Z.land (size_of (mem s) a) (mem_alloc_bit s) =? 0)
                 && (next_of (mem s) a =? NULL) = true).
    { rewrite Ha5, Ha4, Hbit, land_bit_set by lia. reflexivity. }
    assert (Hclr : Z.land (size_of (mem s) a) (wnot (mem_alloc_bit s)) = sa).
    { rewrite Ha5, Hbit, clear_bit by lia. reflexivity. }
    rewrite Hc, Hclr. fold m1.
    replace (size_of m1 a) with sa by (unfold m1; msimp; reflexivity).
    exact Hins. }
  cbn [mem end_block mem_alloc_bit mem_available_bytes mem_regions_count
       with_mem s1].
  split; [reflexivity|]. split; [reflexivity|]. split; [reflexivity|].
  assert (Hbytes : forall y,
             y < start_block \/ start_block + 8 <= y ->
             Forall (fun x => y < fst x \/ fst x + foot x <= y) L ->
             y < a \/ a + 8 <= y -> m2 y = mem s y).
  { intros y Hy1 Hy2 Hy3. rewrite Hfr2; try assumption.
    - unfold m1, set_size. apply store32_outside. lia.
    - apply untouched_headers. assumption. }
  split; [exact Hbytes|]. split; [|split].
  - constructor; cbn [mem end_block mem_alloc_bit with_mem s1];
      try assumption.
    + rewrite Forall_forall in *. intros x Hx.
      pose proof (HAl x Hx) as Hxa. pose proof (Haa x Hx) as Hxap.
      pose proof (allocated_size _ _ _ _ Hxa) as Hsx.
      apply (allocated_frame lo s _ L); [assumption | reflexivity | |].
      * intros y Hy. cbn [mem with_mem].
        destruct (allocated_untouched lo s _ x y Hxa) as [Hy1 Hy2]; [lia|].
        apply Hbytes; try assumption.
        unfold apart, foot in Hxap. rewrite META_eq in Hxap.
        cbn [fst snd] in Hxap. lia.
      * apply Hcoal; [|assumption].
        destruct Hxa as (_ & _ & _ & _ & _ & H). exact H.
    + rewrite sum_sizes_app. lia.
  - rewrite Hbit. apply land_bit_clear. pose proof (size_of_range m2 a). lia.
  - exact Hsum.
Qed.

End Heap.

(* ================================================================== *)
(** * mem_init *)

Lemma align_region_eq (r : mem_region_t) :
  in_space r -> 12 <= size r ->
  align_region r
  = (align_up (start_addr r), usable_size r)
  /\ start_addr r <= align_up (start_addr r) <= start_addr r + 3.
Proof.
  intros (H0 & H1 & H2) Hsz. pose proof modulus_eq as Hmod.
  unfold align_region, usable_size, align_up, align_down.
  change MEM_ALIGN_NUM with 4. rewrite !land_align_bits.
  pose proof (Z.mod_pos_bound (start_addr r) 4 ltac:(lia)) as Hm.
  pose proof (Z.div_mod (start_addr r) 4 ltac:(lia)) as Hd.
  assert (Eup : 4 * ((start_addr r + 4 - 1) / 4)
                = if start_addr r mod 4 =? 0 then start_addr r
                  else start_addr r + (4 - start_addr r mod 4)).
  { destruct (Z.eqb_spec (start_addr r mod 4) 0) as [E|E].
    - replace (start_addr r + 4 - 1) with (3 + (start_addr r / 4) * 4) by lia.
      rewrite Z.div_add by lia. rewrite Z.div_small by lia. lia.
    - replace (start_addr r + 4 - 1)
        with ((start_addr r mod 4 - 1) + (start_addr r / 4 + 1) * 4) by lia.
      rewrite Z.div_add by lia. rewrite Z.div_small by lia. lia. }
  rewrite Eup.
  destruct (Z.eqb_spec (start_addr r mod 4) 0) as [E|E]; cbn [negb].
  - split; [|lia].
    replace (start_addr r - start_addr r) with 0 by ring. rewrite Z.sub_0_r.
    rewrite ?land_align_bits.
    destruct (Z.eqb_spec (size r mod 4) 0) as [E2|E2]; cbn [negb].
    + pose proof (Z.div_mod (size r) 4 ltac:(lia)). f_equal. lia.
    + rewrite land_align_mask by lia. reflexivity.
  - split; [|lia].
    rewrite (wrap_small (4 - _)) by lia.
    rewrite (wrap_small (start_addr r + _)) by lia.
    replace (start_addr r + (4 - start_addr r mod 4) - start_addr r)
      with (4 - start_addr r mod 4) by ring.
    rewrite (wrap_small (4 - _)) by lia.
    rewrite (wrap_small (size r - _)) by lia.
    set (n := size r - (4 - start_addr r mod 4)). rewrite ?land_align_bits.
    destruct (Z.eqb_spec (n mod 4) 0) as [E2|E2]; cbn [negb].
    + pose proof (Z.div_mod n 4 ltac:(lia)). f_equal. lia.
    + rewrite land_align_mask by (unfold n; lia). reflexivity.
Qed.

Lemma kept_skipped (r : mem_region_t) :
  in_space r -> kept r = negb (skipped r).
Proof.
  intros Hr. unfold kept, skipped. rewrite META_eq.
  change MEM_ALIGN_NUM with 4. change (wrap (8 + 4)) with 12.
  change (8 + 4) with 12.
  destruct (Z.ltb_spec (size r) 12) as [Hlt|Hge]; [reflexivity|].
  destruct (align_region_eq r Hr Hge) as [-> _]. cbn [snd negb andb orb].
  reflexivity.
Qed.

Lemma usable_size_bounds (r : mem_region_t) :
  in_space r -> 12 <= size r ->
  size r - 6 <= usable_size r
  /\ align_up (start_addr r) + usable_size r <= start_addr r + size r.
Proof.
  intros Hr Hsz. destruct (align_region_eq r Hr Hsz) as [_ Hup].
  unfold usable_size, align_down. change MEM_ALIGN_NUM with 4.
  set (n := size r - (align_up (start_addr r) - start_addr r)).
  pose proof (Z.mod_pos_bound n 4 ltac:(lia)).
  pose proof (Z.div_mod n 4 ltac:(lia)). unfold n in *. lia.
Qed.

(** The first loop. *)
Lemma regions_grow_spec (regions : list mem_region_t) :
  forall a n,
    0 <= a + n < modulus ->
    Forall in_space regions ->
    regions_grow a n regions = false
    <-> out_of_order (mkRegion a n :: regions).
Proof.
  induction regions as [|r rs IH]; intros a n Han HF; cbn [regions_grow].
  - split; [discriminate|]. intros H. inversion H; subst.
    match goal with H : out_of_order [] |- _ => inversion H end.
  - apply Forall_cons_inv in HF. destruct HF as [Hr HF].
    rewrite wrap_small by lia.
    destruct (Z.gtb_spec (a + n) (start_addr r)) as [Hgt|Hle].
    + split; [|reflexivity]. intros _. apply ooo_here. cbn [start_addr size]. lia.
    + destruct Hr as (H0 & H1 & H2).
      rewrite (IH (start_addr r) (size r)) by (assumption || lia).
      split.
      * intros H. apply ooo_later.
        inversion H; subst; [apply ooo_here | apply ooo_later]; assumption.
      * intros H. inversion H; subst; [cbn [start_addr size] in *; lia|].
        match goal with H : out_of_order (r :: rs) |- _ =>
          inversion H; subst; [apply ooo_here | apply ooo_later]; assumption
        end.
Qed.

Lemma regions_grow_out_of_order (regions : list mem_region_t) :
  Forall in_space regions ->
  regions_grow 0 0 regions = false <-> out_of_order regions.
Proof.
  intros HF. rewrite (regions_grow_spec regions 0 0) by (rewrite ?modulus_eq; lia || assumption).
  split.
  - intros H. inversion H; subst; [|assumption].
    apply Forall_cons_inv in HF. destruct HF as [(H0 & _) _].
    cbn [start_addr size] in *. lia.
  - apply ooo_later.
Qed.

(** One pass of the second loop either leaves the state alone or appends a
    region. *)
Lemma init_region_skip (start_block : Z) (s : state) (r : mem_region_t) :
  kept r = false -> init_region start_block s r = s.
Proof.
  unfold kept, init_region. intros H.
  destruct (size r <? wrap (MEM_BLOCK_META_SIZE + MEM_ALIGN_NUM));
    [reflexivity|].
  destruct (align_region r) as [a n]. cbn [snd negb andb] in H.
  destruct (n <? wrap (MEM_BLOCK_META_SIZE + MEM_ALIGN_NUM));
    [reflexivity | discriminate].
Qed.

Lemma init_region_kept (start_block : Z) (s : state) (r : mem_region_t) :
  in_space r -> kept r = true ->
  12 <= size r /\ 12 <= usable_size r
  /\ end_block (init_region start_block s r)
     = align_up (start_addr r) + usable_size r - 8
  /\ mem_regions_count (init_region start_block s r)
     = wrap (mem_regions_count s + 1)
  /\ mem_alloc_bit (init_region start_block s r) = mem_alloc_bit s.
Proof.
  intros Hr H. unfold kept in H. unfold init_region.
  rewrite META_eq in *. change MEM_ALIGN_NUM with 4 in *.
  change (wrap (8 + 4)) with 12 in *.
  destruct (Z.ltb_spec (size r) 12) as [|Hsz]; [discriminate|].
  destruct (align_region_eq r Hr Hsz) as [E Hup]. rewrite E in *.
  cbn [snd negb andb] in H.
  destruct (Z.ltb_spec (usable_size r) 12) as [|Hn]; [discriminate|].
  cbn [end_block mem_regions_count mem_alloc_bit].
  pose proof (usable_size_bounds r Hr Hsz) as [_ Hb].
  destruct Hr as (H0 & H1 & H2). pose proof modulus_eq.
  repeat split; try assumption. unwrap. reflexivity.
Qed.

Lemma fold_init_unchanged (start_block : Z) (regions : list mem_region_t) :
  forall s,
    Forall (fun r => kept r = false) regions ->
    fold_left (init_region start_block) regions s = s.
Proof.
  induction regions as [|r rs IH]; intros s HF; [reflexivity|].
  apply Forall_cons_inv in HF. destruct HF as [Hr HF]. cbn [fold_left].
  rewrite init_region_skip by assumption. apply IH. assumption.
Qed.

Lemma fold_init_count (start_block : Z) (regions : list mem_region_t) :
  forall s,
    Forall in_space regions ->
    0 <= mem_regions_count s ->
    mem_regions_count s + Z.of_nat (length regions) < modulus ->
    mem_regions_count (fold_left (init_region start_block) regions s)
    = mem_regions_count s + Z.of_nat (length (filter kept regions)).
Proof.
  induction regions as [|r rs IH]; intros s HF H0 Hlen.
  - cbn. lia.
  - apply Forall_cons_inv in HF. destruct HF as [Hr HF].
    cbn [fold_left filter]. cbn [length] in Hlen.
    destruct (kept r) eqn:Hk.
    + destruct (init_region_kept start_block s r Hr Hk) as (_ & _ & _ & Hc & _).
      rewrite wrap_small in Hc by lia.
      rewrite IH; try assumption; rewrite Hc; cbn [length]; lia.
    + rewrite init_region_skip by assumption.
      rewrite IH; try assumption; lia.
Qed.

Lemma fold_init_end_block (start_block : Z) (regions : list mem_region_t) :
  forall s,
    Forall in_space regions ->
    end_block s <> NULL \/ filter kept regions <> [] ->
    end_block (fold_left (init_region start_block) regions s) <> NULL.
Proof.
  induction regions as [|r rs IH]; intros s HF H.
  - cbn in *. destruct H as [H|H]; [assumption | contradiction].
  - apply Forall_cons_inv in HF. destruct HF as [Hr HF].
    cbn [fold_left filter] in *. apply IH; [assumption|].
    destruct (kept r) eqn:Hk.
    + left.
      destruct (init_region_kept start_block s r Hr Hk) as (Hsz & Hn & -> & _).
      destruct (align_region_eq r Hr Hsz) as [_ Hup].
      destruct Hr as (H0 & _). unfold NULL. lia.
    + rewrite init_region_skip by assumption. assumption.
Qed.

Lemma filter_kept_skipped (regions : list mem_region_t) :
  Forall in_space regions ->
  filter kept regions = filter (fun r => negb (skipped r)) regions.
Proof.
  induction 1 as [|r rs Hr _ IH]; [reflexivity|].
  cbn [filter]. rewrite kept_skipped, IH by assumption. reflexivity.
Qed.

(** *** mem_init builds a well-formed heap *)

Section InitHeap.

Variable start_block : Z.

Lemma init_region_first (s : state) (r : mem_region_t) (cap : Z) :
  0 < start_block -> start_block + 8 <= modulus ->
  region_ok start_block r -> kept r = true ->
  end_block s = NULL -> mem_available_bytes s = 0 ->
  0 <= cap ->
  init_inv start_block (init_region start_block s r)
           (start_addr r + size r) (cap + size r).
Proof.
  intros Hs0 Hsfit (Hpos & Hr & Hout & Hroom) Hk Heb Hav Hcap.
  rewrite kept_skipped in Hk by assumption.
  apply negb_true_iff in Hk. specialize (Hroom Hk).
  unfold skipped in Hk. apply orb_false_iff in Hk. destruct Hk as [Hk1 Hk2].
  rewrite META_eq in *. change MEM_ALIGN_NUM with 4 in *.
  apply Z.ltb_ge in Hk1, Hk2.
  destruct (align_region_eq r Hr ltac:(lia)) as [E Hup].
  destruct (usable_size_bounds r Hr ltac:(lia)) as [_ Hb].
  pose proof modulus_eq as Hmod.
  set (a := align_up (start_addr r)) in *.
  set (n := usable_size r) in *.
  split; [destruct Hr as (_ & ? & _); lia|]. right.
  exists a, [(a, n - 8); (a + n - 8, 0)].
  unfold init_region. rewrite META_eq. change MEM_ALIGN_NUM with 4.
  change (wrap (8 + 4)) with 12. rewrite E.
  destruct (Z.ltb_spec (size r) 12) as [|_]; [lia|].
  destruct (Z.ltb_spec n 12) as [|_]; [lia|].
  rewrite Heb, Hav. cbn [Z.eqb NULL negb]. change (0 =? 0) with true. cbv iota.
  destruct Hr as (Hr0 & Hr1 & Hr2).
  unwrap.
  match goal with
  | |- context [mkState ?m _ _ _ _] => set (m5 := m)
  end.
  assert (Hn5 : next_of m5 start_block = a) by (unfold m5; msimp; reflexivity).
  assert (Hs5 : size_of m5 start_block = 0) by (unfold m5; msimp; reflexivity).
  assert (Hna : next_of m5 a = a + n - 8) by (unfold m5; msimp; reflexivity).
  assert (Hsa : size_of m5 a = n - 8) by (unfold m5; msimp; reflexivity).
  assert (Hne : next_of m5 (a + n - 8) = NULL) by (unfold m5; msimp; reflexivity).
  assert (Hse : size_of m5 (a + n - 8) = 0) by (unfold m5; msimp; reflexivity).
  rewrite Hsa. unwrap. split; [|split; [|split]].
  - constructor; cbn [mem end_block]; rewrite ?META_eq.
    + lia.
    + lia.
    + lia.
    + lia.
    + constructor; [|constructor; [|constructor]];
        unfold apart, foot; rewrite META_eq; cbn [fst snd]; lia.
    + assumption.
    + unfold free_list. cbn [mem lseg fst snd].
      rewrite Hn5, Hna, Hsa, Hne, Hse. unfold NULL. repeat split; lia.
    + exists [(a, n - 8)]. reflexivity.
    + cbn [spaced fst snd]. unfold foot. rewrite META_eq. cbn [snd]. lia.
  - cbn [mem_available_bytes sum_sizes fold_right snd]. lia.
  - cbn [end_block]. rewrite ?META_eq. lia.
  - cbn [sum_foots fold_right]. unfold foot. rewrite ?META_eq. cbn [snd]. lia.
Qed.


Lemma init_region_next (s : state) (r : mem_region_t) (lo hw cap : Z)
      (L : list node) :
  region_ok start_block r -> kept r = true ->
  list_ok start_block lo s L ->
  mem_available_bytes s = sum_sizes L ->
  end_block s + 8 <= hw -> hw <= start_addr r ->
  sum_foots L <= cap -> cap + size r < 2 ^ 31 ->
  init_inv start_block (init_region start_block s r)
           (start_addr r + size r) (cap + size r).
Proof.
  intros (Hpos & Hr & Hout & Hroom) Hk OK Hav Hhw Hord Hcap Htot.
  rewrite kept_skipped in Hk by assumption.
  apply negb_true_iff in Hk. specialize (Hroom Hk).
  unfold skipped in Hk. apply orb_false_iff in Hk. destruct Hk as [Hk1 Hk2].
  rewrite META_eq in *. change MEM_ALIGN_NUM with 4 in *.
  apply Z.ltb_ge in Hk1, Hk2.
  destruct (align_region_eq r Hr ltac:(lia)) as [E Hup].
  destruct (usable_size_bounds r Hr ltac:(lia)) as [_ Hb].
  pose proof modulus_eq as Hmod.
  set (a := align_up (start_addr r)) in *.
  set (n := usable_size r) in *.
  pose proof (sum_foots_nonneg L) as Hf0.
  pose proof (spaced_sum _ _ _ (list_spaced _ _ _ _ OK)) as Hsum.
  pose proof (sum_sizes_le_foots L) as Hle.
  pose proof (end_block_nonnull start_block lo s L OK) as [Hlo Hebn].
  pose proof (lo_pos _ _ _ _ OK) as Hlo0.
  pose proof (start_pos _ _ _ _ OK) as Hs0.
  pose proof (start_fits _ _ _ _ OK) as Hsfit. rewrite META_eq in Hsfit.
  destruct (list_tail _ _ _ _ OK) as [L0 EL].
  set (eb0 := end_block s) in *.
  set (tl2 := [(a, n - 8); (a + n - 8, 0)]).
  split; [destruct Hr as (_ & ? & _); lia|]. right.
  exists lo, (L ++ tl2).
  (* the blocks already on the list are below the new region *)
  assert (Hbelow : Forall (fun x => fst x + foot x <= a) L).
  { pose proof (spaced_all _ _ _ (list_spaced _ _ _ _ OK)) as Hall.
    eapply Forall_impl; [|exact Hall]. intros x Hx. cbn beta in Hx.
    rewrite META_eq in Hx. lia. }
  assert (Hsa : Forall (hdr_off a) (chain start_block L)).
  { unfold chain. constructor.
    - unfold hdr_off. cbn [fst]. lia.
    - eapply Forall_impl; [|exact Hbelow]. intros x Hx. cbn beta in Hx.
      unfold hdr_off. pose proof (foot_ge x). lia. }
  assert (Hse : Forall (hdr_off (a + n - 8)) (chain start_block L)).
  { unfold chain. constructor.
    - unfold hdr_off. cbn [fst]. lia.
    - eapply Forall_impl; [|exact Hbelow]. intros x Hx. cbn beta in Hx.
      unfold hdr_off. pose proof (foot_ge x). lia. }
  pose proof (chain_lseg start_block lo s L OK) as Hch.
  assert (Ech : chain start_block L = chain start_block L0 ++ [(eb0, 0)])
    by (unfold chain; rewrite EL; reflexivity).
  pose proof (chain_sep start_block lo s L (chain start_block L0) []
                        (eb0, 0) OK Ech) as Hs0'.
  rewrite app_nil_r in Hs0'. cbn [fst] in Hs0'.
  rewrite Ech in Hch, Hsa, Hse.
  apply lseg_app in Hch. destruct Hch as [q [HK Hq]].
  cbn [lseg fst snd] in Hq. destruct Hq as (-> & _ & Hs0sz & _).
  apply Forall_app in Hsa. destruct Hsa as [HsaK Hsa0].
  apply Forall_cons_inv in Hsa0. destruct Hsa0 as [Hsa0 _].
  apply Forall_app in Hse. destruct Hse as [HseK Hse0].
  apply Forall_cons_inv in Hse0. destruct Hse0 as [Hse0 _].
  unfold hdr_off in Hsa0, Hse0. cbn [fst] in Hsa0, Hse0.
  unfold init_region. rewrite META_eq. change MEM_ALIGN_NUM with 4.
  change (wrap (8 + 4)) with 12. rewrite E.
  destruct (Z.ltb_spec (size r) 12) as [|_]; [lia|].
  destruct (Z.ltb_spec n 12) as [|_]; [lia|].
  fold eb0.
  destruct (Z.eqb_spec eb0 NULL) as [|_]; [contradiction|]. cbn [negb].
  destruct Hr as (Hr0 & Hr1 & Hr2).
  unwrap.
  match goal with
  | |- context [mkState ?m _ _ _ _] => set (m6 := m)
  end.
  assert (HK6 : lseg m6 start_block (chain start_block L0) eb0).
  { unfold m6. frame_lseg. }
  assert (Hn0 : next_of m6 eb0 = a) by (unfold m6; msimp; reflexivity).
  assert (Hz0 : size_of m6 eb0 = 0) by (unfold m6; msimp; assumption).
  assert (Hna : next_of m6 a = a + n - 8) by (unfold m6; msimp; reflexivity).
  assert (Hza : size_of m6 a = n - 8) by (unfold m6; msimp; reflexivity).
  assert (Hne : next_of m6 (a + n - 8) = NULL) by (unfold m6; msimp; reflexivity).
  assert (Hze : size_of m6 (a + n - 8) = 0) by (unfold m6; msimp; reflexivity).
  rewrite Hza. rewrite Hav. unwrap.
  split; [|split; [|split]].
  - assert (Hch6 : lseg m6 start_block (chain start_block (L ++ tl2)) NULL).
    { replace (chain start_block (L ++ tl2))
        with (chain start_block L0 ++ (eb0, 0) :: tl2)
        by (unfold chain; rewrite EL, <- !app_assoc; reflexivity).
      apply lseg_app. exists eb0. split; [assumption|].
      unfold tl2. cbn [lseg fst snd].
      rewrite Hn0, Hz0, Hna, Hza, Hne, Hze. unfold NULL in *.
      repeat split; lia. }
    unfold chain in Hch6. cbn [lseg fst snd] in Hch6.
    destruct Hch6 as (_ & _ & Hst6 & Hl6).
    constructor; cbn [mem end_block]; rewrite ?META_eq.
    + lia.
    + lia.
    + lia.
    + lia.
    + apply Forall_app. split; [apply (start_apart _ _ _ _ OK)|].
      unfold tl2. constructor; [|constructor; [|constructor]];
        unfold apart, foot; rewrite META_eq; cbn [fst snd]; lia.
    + assumption.
    + assumption.
    + exists (L ++ [(a, n - 8)]). unfold tl2. rewrite <- app_assoc. reflexivity.
    + apply spaced_app. exists (eb0 + 8). split.
      * pose proof (list_spaced _ _ _ _ OK) as Hsp.
        rewrite META_eq in Hsp. exact Hsp.
      * unfold tl2. cbn [spaced fst snd]. unfold foot. rewrite META_eq.
        cbn [snd]. lia.
  - cbn [mem_available_bytes]. rewrite sum_sizes_app. unfold tl2.
    cbn [sum_sizes fold_right snd]. lia.
  - cbn [end_block]. rewrite ?META_eq. lia.
  - rewrite sum_foots_app. unfold tl2. cbn [sum_foots fold_right].
    unfold foot. rewrite ?META_eq. cbn [snd]. lia.
Qed.

Lemma total_size_nonneg (regions : list mem_region_t) :
  Forall (region_ok start_block) regions -> 0 <= total_size regions.
Proof.
  induction 1 as [|r rs (_ & (_ & Hr & _) & _) _ IH]; cbn; [lia|].
  fold (total_size rs). lia.
Qed.

(** The second loop of [mem_init]. *)
Lemma fold_init_inv (regions : list mem_region_t) :
  forall s a n cap,
    0 < start_block -> start_block + 8 <= modulus ->
    Forall (region_ok start_block) regions ->
    regions_grow a n regions = true ->
    0 <= a + n < modulus ->
    init_inv start_block s (a + n) cap ->
    cap + total_size regions < 2 ^ 31 ->
    exists hw cap',
      init_inv start_block
               (fold_left (init_region start_block) regions s) hw cap'
      /\ cap' < 2 ^ 31.
Proof.
  induction regions as [|r rs IH]; intros s a n cap Hs0 Hsfit HF Hg Han Hinv Htot.
  - exists (a + n), cap. cbn in *. split; [assumption | lia].
  - apply Forall_cons_inv in HF. destruct HF as [Hr HF].
    cbn [regions_grow] in Hg. rewrite wrap_small in Hg by lia.
    destruct (Z.gtb_spec (a + n) (start_addr r)) as [|Hle]; [discriminate|].
    cbn [total_size fold_right] in Htot. fold (total_size rs) in Htot.
    pose proof Hr as (Hpos & (Hr0 & Hr1 & Hr2) & _).
    pose proof (total_size_nonneg rs HF) as Ht0.
    cbn [fold_left].
    apply (IH _ (start_addr r) (size r) (cap + size r));
      try assumption; try lia.
    destruct (kept r) eqn:Hk.
    + destruct Hinv as [Hcap [[Heb Hav] | (lo & L & OK & Hav & Hhw & Hf)]].
      * apply init_region_first; assumption.
      * rewrite META_eq in Hhw.
        apply (init_region_next s r lo (a + n) cap L); try assumption; lia.
    + rewrite init_region_skip by assumption.
      destruct Hinv as [Hcap [[Heb Hav] | (lo & L & OK & Hav & Hhw & Hf)]].
      * split; [lia|]. left. split; assumption.
      * split; [lia|]. right. exists lo, L.
        rewrite META_eq in *.
        split; [assumption|]. split; [assumption|]. split; lia.
Qed.


Lemma region_ok_in_space (regions : list mem_region_t) :
  Forall (region_ok start_block) regions -> Forall in_space regions.
Proof. apply Forall_impl. intros r (_ & H & _). exact H. Qed.

(** A successful [mem_init] leaves a well-formed heap with nothing
    allocated, whose counter is the total of the sizes on the free list. *)
Lemma mem_init_heap_ok (s0 s : state) (regions : list mem_region_t) (k : Z) :
  regions_ok start_block regions ->
  Z.of_nat (length regions) < modulus ->
  uninitialised s0 ->
  mem_init start_block s0 regions = (s, k) -> k <> 0 ->
  exists lo L,
    heap_ok start_block lo s L [] /\ mem_available_bytes s = sum_sizes L.
Proof.
  intros (Hs0 & Hsfit & HF & Htot) Hlen (Heb & Hav & Hcnt) Hinit Hk.
  rewrite META_eq in Hsfit.
  pose proof (region_ok_in_space regions HF) as Hsp.
  pose proof modulus_eq as Hmod.
  unfold mem_init in Hinit. rewrite Heb in Hinit.
  change (negb (NULL =? NULL)) with false in Hinit. cbv iota in Hinit.
  destruct (regions_grow 0 0 regions) eqn:Hg; cbn [negb] in Hinit;
    [|injection Hinit as _ <-; contradiction].
  set (s1 := fold_left (init_region start_block) regions s0) in *.
  injection Hinit as <- <-. cbn [mem_regions_count] in Hk.
  destruct (fold_init_inv regions s0 0 0 0) as (hw & cap & [Hcap Hinv] & Hc31);
    try assumption; try lia.
  { split; [lia|]. left. split; assumption. }
  fold s1 in Hinv.
  assert (Hne : end_block s1 <> NULL).
  { apply fold_init_end_block; [assumption|]. right. intros Hnil.
    apply Hk. unfold s1.
    rewrite fold_init_count by (assumption || lia).
    rewrite Hnil, Hcnt. reflexivity. }
  destruct Hinv as [[Heb1 _] | (lo & L & OK & Hav1 & _ & Hf)]; [contradiction|].
  exists lo, L. split; [|exact Hav1].
  constructor; cbn [mem_alloc_bit].
  - apply (list_ok_intro start_block lo s1 _ L L OK); try reflexivity.
    + cbn [mem]. apply (chain_lseg start_block lo s1 L OK).
    + apply (start_apart _ _ _ _ OK).
    + apply (list_tail _ _ _ _ OK).
    + apply (list_spaced _ _ _ _ OK).
  - reflexivity.
  - constructor.
  - exact I.
  - cbn [sum_sizes fold_right]. lia.
Qed.

End InitHeap.

(* ================================================================== *)
(** * More loop tests never change a result *)

Section Fuel.

Variable start_block : Z.

Lemma find_prev_mono (m : memory) (nb : Z) :
  forall fuel fuel' curr r,
    find_prev fuel m nb curr = Some r -> (fuel <= fuel')%nat ->
    find_prev fuel' m nb curr = Some r.
Proof.
  induction fuel as [|fuel IH]; intros fuel' curr r H Hle; [discriminate|].
  destruct fuel' as [|fuel']; [lia|]. cbn [find_prev] in *.
  destruct (negb (curr =? NULL) && (next_of m curr <? nb)); [|assumption].
  apply IH; [assumption | lia].
Qed.

Lemma first_fit_mono (m : memory) (eb sz : Z) :
  forall fuel fuel' prev curr r,
    first_fit fuel m eb sz prev curr = Some r -> (fuel <= fuel')%nat ->
    first_fit fuel' m eb sz prev curr = Some r.
Proof.
  induction fuel as [|fuel IH]; intros fuel' prev curr r H Hle; [discriminate|].
  destruct fuel' as [|fuel']; [lia|]. cbn [first_fit] in *.
  destruct (size_of m curr <? sz); [|assumption].
  destruct ((next_of m curr =? NULL) || (curr =? eb)); [assumption|].
  apply IH; [assumption | lia].
Qed.

Lemma insert_free_block_mono (fuel fuel' : nat) (s s' : state) (nb : Z) :
  insert_free_block start_block fuel s nb = Some s' -> (fuel <= fuel')%nat ->
  insert_free_block start_block fuel' s nb = Some s'.
Proof.
  unfold insert_free_block. intros H Hle.
  destruct (find_prev fuel (mem s) nb start_block) as [c|] eqn:E; [|discriminate].
  rewrite (find_prev_mono _ _ _ _ _ _ E Hle). assumption.
Qed.

Lemma take_block_mono (fuel fuel' : nat) (s : state) (sz prev curr : Z)
      (r : state * Z) :
  take_block start_block fuel s sz prev curr = Some r -> (fuel <= fuel')%nat ->
  take_block start_block fuel' s sz prev curr = Some r.
Proof.
  unfold take_block. intros H Hle.
  destruct (wrap (size_of _ curr - sz) >? wrap (2 * MEM_BLOCK_META_SIZE));
    [|assumption].
  match type of H with
  | match ?x with _ => _ end = _ => destruct x as [s1|] eqn:E; [|discriminate]
  end.
  rewrite (insert_free_block_mono _ _ _ _ _ E Hle). assumption.
Qed.

Lemma mem_malloc_mono (fuel fuel' : nat) (s : state) (sz : Z) (r : state * Z) :
  mem_malloc start_block fuel s sz = Some r -> (fuel <= fuel')%nat ->
  mem_malloc start_block fuel' s sz = Some r.
Proof.
  unfold mem_malloc. intros H Hle.
  destruct ((end_block s =? NULL) || (sz =? 0)
            || negb (Z.land sz (mem_alloc_bit s) =? 0)); [assumption|].
  destruct (negb (Z.land _ (mem_alloc_bit s) =? 0)); [assumption|].
  match type of H with
  | match ?x with _ => _ end = _ => destruct x as [[[p c]|]|] eqn:E;
                                    [| |discriminate]
  end.
  - rewrite (first_fit_mono _ _ _ _ _ _ _ _ E Hle).
    apply (take_block_mono _ _ _ _ _ _ _ H Hle).
  - rewrite (first_fit_mono _ _ _ _ _ _ _ _ E Hle). assumption.
Qed.

Lemma mem_free_mono (fuel fuel' : nat) (s s' : state) (ptr : Z) :
  mem_free start_block fuel s ptr = Some s' -> (fuel <= fuel')%nat ->
  mem_free start_block fuel' s ptr = Some s'.
Proof.
  unfold mem_free. intros H Hle.
  destruct (ptr =? NULL); [assumption|].
  destruct (negb (Z.land _ (mem_alloc_bit s) =? 0) && _); [|assumption].
  apply (insert_free_block_mono _ _ _ _ _ H Hle).
Qed.

(** Two runs that both finish agree. *)
Lemma mem_malloc_det (fuel fuel' : nat) (s : state) (sz : Z) (r r' : state * Z) :
  mem_malloc start_block fuel s sz = Some r ->
  mem_malloc start_block fuel' s sz = Some r' -> r = r'.
Proof.
  intros H H'.
  apply (mem_malloc_mono _ (Nat.max fuel fuel')) in H; [|lia].
  apply (mem_malloc_mono _ (Nat.max fuel fuel')) in H'; [|lia].
  congruence.
Qed.

Lemma mem_free_det (fuel fuel' : nat) (s s1 s2 : state) (ptr : Z) :
  mem_free start_block fuel s ptr = Some s1 ->
  mem_free start_block fuel' s ptr = Some s2 -> s1 = s2.
Proof.
  intros H H'.
  apply (mem_free_mono _ (Nat.max fuel fuel')) in H; [|lia].
  apply (mem_free_mono _ (Nat.max fuel fuel')) in H'; [|lia].
  congruence.
Qed.

End Fuel.

(* ================================================================== *)
(** * The invariant of the reachable states *)

Lemma lseg_unique (m : memory) (L : list node) :
  forall L' p, lseg m p L NULL -> lseg m p L' NULL -> L = L'.
Proof.
  induction L as [|n L IH]; intros [|n' L'] p H H'; cbn [lseg] in *.
  - reflexivity.
  - destruct H' as (_ & Hn & _). congruence.
  - destruct H as (_ & Hn & _). congruence.
  - destruct H as (E1 & _ & S1 & T1), H' as (E2 & _ & S2 & T2).
    assert (n = n') by (destruct n, n'; cbn [fst snd] in *; congruence).
    subst n'. f_equal. eapply IH; eassumption.
Qed.

Lemma wrap_add_l (x y : Z) : wrap (wrap x + y) = wrap (x + y).
Proof. unfold wrap. apply Zplus_mod_idemp_l. Qed.

Lemma wrap_sub_l (x y : Z) : wrap (wrap x - y) = wrap (x - y).
Proof. unfold wrap. apply Zminus_mod_idemp_l. Qed.

Section Reach.

Variable start_block : Z.

Lemma mem_malloc_refused (lo : Z) (s : state) (L Al : list node) (sz : Z)
      (fuel : nat) :
  heap_ok start_block lo s L Al -> 0 <= sz < modulus ->
  (length L < fuel)%nat ->
  sz = 0 \/ Z.land sz (mem_alloc_bit s) <> 0
  \/ Z.land (need sz) (mem_alloc_bit s) <> 0
  \/ Forall (fun x => snd x < need sz) L ->
  mem_malloc start_block fuel s sz = Some (s, NULL).
Proof.
  intros HOK Hsz Hfuel Hc. unfold mem_malloc. fold (need sz).
  destruct ((end_block s =? NULL) || (sz =? 0)
            || negb (Z.land sz (mem_alloc_bit s) =? 0)) eqn:E1; [reflexivity|].
  apply orb_false_elim in E1. destruct E1 as [E1 E3].
  apply orb_false_elim in E1. destruct E1 as [E1 E2].
  apply Z.eqb_neq in E2. apply negb_false_iff, Z.eqb_eq in E3.
  destruct (negb (Z.land (need sz) (mem_alloc_bit s) =? 0)) eqn:E4; [reflexivity|].
  apply negb_false_iff, Z.eqb_eq in E4.
  destruct Hc as [Hc|[Hc|[Hc|Hc]]]; try congruence.
  pose proof (heap_list _ _ _ _ _ HOK) as LOK.
  destruct (list_tail _ _ _ _ LOK) as [L0 EL]. subst L.
  apply Forall_app in Hc. destruct Hc as [H0 Hl].
  apply Forall_inv in Hl. cbn [snd] in Hl.
  rewrite (first_fit_exhausted (mem s) (end_block s) (need sz) L0
             start_block _ 0 fuel); try assumption.
  - reflexivity.
  - exact (list_links _ _ _ _ LOK).
  - rewrite length_app in Hfuel. cbn in Hfuel. lia.
Qed.

Lemma mem_malloc_served (lo : Z) (s : state) (Al P R : list node)
      (c sc sz : Z) (fuel : nat) :
  heap_ok start_block lo s (P ++ (c, sc) :: R) Al ->
  0 < sz < 2 ^ 31 -> need sz < 2 ^ 31 ->
  Forall (fun x => snd x < need sz) P -> need sz <= sc ->
  (length (P ++ (c, sc) :: R) < fuel)%nat ->
  exists s' L' b,
    mem_malloc start_block fuel s sz = Some (s', c + 8)
    /\ heap_ok start_block lo s' L' ((c, b) :: Al)
    /\ mem_available_bytes s' = wrap (mem_available_bytes s - need sz)
    /\ end_block s' = end_block s
    /\ mem_regions_count s' = mem_regions_count s
    /\ sum_sizes L' = sum_sizes (P ++ (c, sc) :: R) - b
    /\ ((sc - need sz <= 16 /\ b = sc /\ L' = P ++ R)
        \/ (16 < sc - need sz /\ b = need sz
            /\ L' = coalesce (end_block s) (P ++ R)
                             (c + need sz, sc - need sz))).
Proof.
  intros HOK Hsz Hnd HP Hfit Hfuel.
  pose proof (need_bounds sz Hsz) as [_ H12].
  assert (HfP : (length P < fuel)%nat).
  { rewrite length_app in Hfuel. lia. }
  assert (HfPR : (length (P ++ R) < fuel)%nat).
  { rewrite length_app in *. cbn [length] in Hfuel. lia. }
  rewrite (mem_malloc_fit start_block lo s Al P R c sc sz fuel)
    by assumption.
  assert (Esum : sum_sizes (P ++ (c, sc) :: R) = sum_sizes (P ++ R) + sc).
  { rewrite !sum_sizes_app. cbn [sum_sizes fold_right snd].
    fold (sum_sizes R). lia. }
  destruct (Z_le_gt_dec (sc - need sz) 16) as [Hs|Hs].
  - destruct (take_block_whole start_block lo s Al P R c sc (need sz) fuel HOK)
      as (s' & E & Hav & Heb & Hrc & _ & HOK'); [lia|lia|].
    exists s', (P ++ R), sc. repeat (split; [assumption|]).
    split; [lia|]. left. repeat split; try reflexivity. lia.
  - destruct (take_block_split start_block lo s Al P R c sc (need sz) fuel HOK)
      as (s' & E & Hav & Heb & Hrc & _ & HOK' & Hsum); [lia|lia|assumption|].
    exists s', (coalesce (end_block s) (P ++ R) (c + need sz, sc - need sz)),
      (need sz).
    repeat (split; [assumption|]).
    split; [lia|]. right. repeat split; try reflexivity. lia.
Qed.


(** *** Facts about allocated blocks *)

Lemma sum_sizes_in (Al : list node) (a : node) :
  Forall (fun x => 0 <= snd x) Al -> In a Al -> snd a <= sum_sizes Al.
Proof.
  induction Al as [|x Al IH]; intros HF HI; [destruct HI|].
  apply Forall_cons_inv in HF. destruct HF as [Hx HF].
  cbn [sum_sizes fold_right]. fold (sum_sizes Al).
  assert (0 <= sum_sizes Al).
  { clear -HF. induction Al as [|y Al IH]; cbn; [lia|].
    apply Forall_cons_inv in HF. destruct HF as [Hy HF].
    specialize (IH HF). unfold sum_sizes in IH. lia. }
  destruct HI as [->|HI]; [lia|]. specialize (IH HF HI). lia.
Qed.

Lemma alloc_facts (lo : Z) (s : state) (L Al : list node) (a : node) :
  heap_ok start_block lo s L Al -> In a Al ->
  allocated start_block lo s L a
  /\ 12 <= snd a < 2 ^ 31
  /\ 0 < fst a /\ fst a + snd a < modulus - 8
  /\ block_of (payload a) = fst a
  /\ block_size s (payload a) = snd a
  /\ payload a <> NULL.
Proof.
  intros HOK HI.
  pose proof (heap_alloc _ _ _ _ _ HOK) as HA.
  pose proof (heap_list _ _ _ _ _ HOK) as LOK.
  assert (Ha : allocated start_block lo s L a).
  { rewrite Forall_forall in HA. apply HA, HI. }
  pose proof (allocated_size _ _ _ _ _ Ha) as H12.
  assert (Hlt : snd a < 2 ^ 31).
  { assert (snd a <= sum_sizes Al).
    { apply sum_sizes_in; [|assumption].
      eapply Forall_impl; [|exact HA]. intros x Hx.
      apply allocated_size in Hx. lia. }
    pose proof (sum_foots_nonneg L). pose proof (heap_total _ _ _ _ _ HOK). lia. }
  destruct Ha as (H1 & H2 & H3 & H4 & H5 & H6).
  pose proof (lo_pos _ _ _ _ LOK). pose proof (hi_fits _ _ _ _ LOK).
  rewrite META_eq in *. pose proof modulus_eq.
  assert (Eb : block_of (payload a) = fst a).
  { unfold block_of, payload. rewrite META_eq.
    replace (fst a + 8 - 8) with (fst a) by lia. apply wrap_small. lia. }
  split; [repeat split; assumption|].
  split; [lia|]. split; [lia|]. split; [lia|]. split; [exact Eb|].
  split.
  - unfold block_size. rewrite Eb, H5, (heap_bit _ _ _ _ _ HOK).
    apply clear_bit. lia.
  - unfold payload, NULL. rewrite META_eq. lia.
Qed.

Lemma payload_inj (lo : Z) (s : state) (L Al : list node) :
  heap_ok start_block lo s L Al -> NoDup (map payload Al).
Proof.
  intros HOK.
  pose proof (heap_apart _ _ _ _ _ HOK) as HAp.
  assert (HA : Forall (fun a => 12 <= snd a) Al).
  { eapply Forall_impl; [|exact (heap_alloc _ _ _ _ _ HOK)]. intros x Hx.
    eapply allocated_size; eassumption. }
  clear HOK. induction Al as [|a Al IH]; cbn [map]; constructor.
  - cbn [all_apart] in HAp. destruct HAp as [Ha _].
    intros HI. apply in_map_iff in HI. destruct HI as (x & Ex & Hx).
    rewrite Forall_forall in Ha. specialize (Ha x Hx).
    apply Forall_cons_inv in HA. destruct HA as [Hsa HA].
    rewrite Forall_forall in HA. specialize (HA x Hx). cbn beta in HA.
    unfold payload in Ex. revert Ha. unfold apart, foot. rewrite META_eq. lia.
  - apply Forall_cons_inv in HA. destruct HA as [_ HA].
    cbn [all_apart] in HAp. destruct HAp as [_ HAp]. apply IH; assumption.
Qed.

Lemma remove_mid (A1 A2 : list node) (a : node) :
  NoDup (map payload (A1 ++ a :: A2)) ->
  remove Z.eq_dec (payload a) (map payload (A1 ++ a :: A2))
  = map payload (A1 ++ A2).
Proof.
  intros ND. rewrite map_app in ND. cbn [map] in ND.
  pose proof (NoDup_remove_2 _ _ _ ND) as Hn.
  rewrite !map_app. cbn [map]. rewrite remove_app, remove_cons.
  rewrite <- remove_app. apply notin_remove. exact Hn.
Qed.

(** *** The steps *)

Lemma heap_inv_malloc (s s' : state) (Al : list node) (D : Z) (fuel : nat)
      (sz p : Z) :
  heap_inv start_block s Al D -> 0 <= sz < modulus ->
  mem_malloc start_block fuel s sz = Some (s', p) ->
  (p = NULL /\ s' = s)
  \/ (exists a, p = payload a /\ p <> NULL
                /\ need sz <= snd a /\ sz + 8 <= snd a
                /\ heap_inv start_block s' (a :: Al) (D + (snd a - need sz))).
Proof.
  intros (lo & L & HOK & Hav & HD) Hsz E.
  pose proof (heap_bit _ _ _ _ _ HOK) as Hbit.
  pose proof modulus_eq as HM.
  assert (Refuse :
    (sz = 0 \/ Z.land sz (mem_alloc_bit s) <> 0
     \/ Z.land (need sz) (mem_alloc_bit s) <> 0
     \/ Forall (fun x => snd x < need sz) L) -> p = NULL /\ s' = s).
  { intros Hc.
    pose proof (mem_malloc_refused lo s L Al sz (S (length L)) HOK Hsz
                  (Nat.lt_succ_diag_r _) Hc) as E'.
    pose proof (mem_malloc_det _ _ _ _ _ _ _ E E') as EE.
    inversion EE. split; reflexivity. }
  destruct (Z.eq_dec sz 0) as [Hz|Hz]; [left; apply Refuse; auto|].
  destruct (Z_lt_ge_dec sz (2 ^ 31)) as [Hs|Hs].
  2:{ left. apply Refuse. right. left. rewrite Hbit, land_bit by lia.
      destruct (Z.ltb_spec sz (2 ^ 31)); lia. }
  pose proof (wrap_range (MEM_ALIGN sz + MEM_BLOCK_META_SIZE)) as Hnr.
  fold (need sz) in Hnr.
  destruct (Z_lt_ge_dec (need sz) (2 ^ 31)) as [Hn|Hn].
  2:{ left. apply Refuse. right. right. left. rewrite Hbit, land_bit by lia.
      destruct (Z.ltb_spec (need sz) (2 ^ 31)); lia. }
  destruct (first_fit_split (need sz) L) as [HF|(P & c & sc & R & EL & HP & Hfit)].
  { left. apply Refuse. auto. }
  right. subst L.
  destruct (mem_malloc_served lo s Al P R c sc sz
              (S (length (P ++ (c, sc) :: R))) HOK ltac:(lia) Hn HP Hfit
              (Nat.lt_succ_diag_r _))
    as (s1 & L' & b & E' & HOK' & Hav' & Heb & Hrc & Hsum & Hcase).
  pose proof (mem_malloc_det _ _ _ _ _ _ _ E E') as EE.
  inversion EE. subst s1 p. clear EE.
  destruct (alloc_facts lo s' L' ((c, b) :: Al) (c, b) HOK' (or_introl eq_refl))
    as (_ & Hb & Hc & _ & _ & _ & Hnn).
  cbn [fst snd] in *.
  pose proof (need_bounds sz ltac:(lia)) as [Hnb _].
  assert (Hbn : need sz <= b) by (destruct Hcase as [(?&?&?)|(?&?&?)]; lia).
  exists (c, b). cbn [fst snd].
  split; [unfold payload; rewrite META_eq; reflexivity|].
  split; [unfold payload in Hnn; rewrite META_eq in Hnn; exact Hnn|].
  split; [assumption|]. split; [lia|].
  exists lo, L'. split; [assumption|]. split; [|lia].
  rewrite Hav', Hav, wrap_sub_l, Hsum. f_equal. unfold node in *. lia.
Qed.

Lemma heap_inv_free (s s' : state) (A1 A2 : list node) (a : node) (D : Z)
      (fuel : nat) :
  heap_inv start_block s (A1 ++ a :: A2) D ->
  mem_free start_block fuel s (payload a) = Some s' ->
  heap_inv start_block s' (A1 ++ A2) D
  /\ (forall x, In x (A1 ++ A2) -> block_size s' (payload x) = snd x).
Proof.
  intros (lo & L & HOK & Hav & HD) E.
  destruct (mem_free_ok start_block lo s L A1 A2 a (S (length L)) HOK
              (Nat.lt_succ_diag_r _))
    as (s1 & E' & Hav' & Heb & Hrc & _ & HOK' & _ & Hsum).
  unfold payload in E. rewrite META_eq in E.
  pose proof (mem_free_det _ _ _ _ _ _ _ E E'). subst s1.
  split.
  - exists lo, (coalesce (end_block s) L a). split; [assumption|].
    split; [|assumption].
    rewrite Hav', Hav, wrap_add_l, Hsum. f_equal. lia.
  - intros x Hx. eapply alloc_facts; eassumption.
Qed.

Lemma heap_inv_write (s : state) (A1 A2 : list node) (a : node) (D : Z)
      (m' : memory) :
  heap_inv start_block s (A1 ++ a :: A2) D ->
  (forall y, y < payload a \/ fst a + snd a <= y -> m' y = mem s y) ->
  heap_inv start_block (with_mem s m') (A1 ++ a :: A2) D.
Proof.
  intros (lo & L & HOK & Hav & HD) Hfr.
  exists lo, L. split; [|split; assumption].
  pose proof (heap_list _ _ _ _ _ HOK) as LOK.
  pose proof (heap_alloc _ _ _ _ _ HOK) as HA.
  destruct (all_apart_mid _ _ _ (heap_apart _ _ _ _ _ HOK)) as [_ Hoth].
  destruct (Forall_remove_mid _ _ _ _ HA) as [Ha _].
  pose proof (allocated_size _ _ _ _ _ Ha) as H12.
  assert (Hch : Forall (apart a) (chain start_block L)).
  { destruct Ha as (_ & _ & _ & _ & _ & H). exact H. }
  assert (Hhdr : forall n, apart a n \/ n = a ->
                           forall y, fst n <= y < fst n + 8 -> m' y = mem s y).
  { intros n Hn y Hy. apply Hfr. unfold payload. rewrite META_eq.
    destruct Hn as [Hn| ->]; [|lia].
    revert Hn. unfold apart, foot. rewrite META_eq. lia. }
  constructor.
  - apply (list_ok_intro start_block lo s (with_mem s m') L L LOK).
    + reflexivity.
    + cbn [mem with_mem].
      apply (lseg_frame (mem s)); [|apply (chain_lseg _ _ _ _ LOK)].
      eapply Forall_impl; [|exact Hch]. intros n Hn. split.
      * apply load32_ext. intros y Hy. apply (Hhdr n); [auto|lia].
      * apply load32_ext. intros y Hy. apply (Hhdr n); [auto|lia].
    + exact (start_apart _ _ _ _ LOK).
    + exact (list_tail _ _ _ _ LOK).
    + exact (list_spaced _ _ _ _ LOK).
  - exact (heap_bit _ _ _ _ _ HOK).
  - rewrite Forall_forall in HA |- *. intros x Hx.
    apply (allocated_frame start_block lo s (with_mem s m') L L x (HA x Hx)).
    + reflexivity.
    + cbn [mem with_mem]. apply Hhdr.
      apply in_app_or in Hx. destruct Hx as [Hx|[Hx|Hx]].
      * left. apply apart_sym. rewrite Forall_forall in Hoth.
        apply Hoth. apply in_or_app. auto.
      * auto.
      * left. apply apart_sym. rewrite Forall_forall in Hoth.
        apply Hoth. apply in_or_app. auto.
    + destruct (HA x Hx) as (_ & _ & _ & _ & _ & H). exact H.
  - exact (heap_apart _ _ _ _ _ HOK).
  - exact (heap_total _ _ _ _ _ HOK).
Qed.

Lemma heap_inv_sizes (s : state) (Al : list node) (D : Z) (x : node) :
  heap_inv start_block s Al D -> In x Al ->
  block_size s (payload x) = snd x /\ payload x <> NULL
  /\ block_of (payload x) = fst x.
Proof.
  intros (lo & L & HOK & _) Hx.
  destruct (alloc_facts lo s L Al x HOK Hx) as (_ & _ & _ & _ & H1 & H2 & H3).
  auto.
Qed.

Lemma heap_inv_nodup (s : state) (Al : list node) (D : Z) :
  heap_inv start_block s Al D -> NoDup (map payload Al).
Proof. intros (lo & L & HOK & _). eapply payload_inj; eassumption. Qed.


Lemma heap_inv_filled (s s' : state) (Al : list node) (D : Z) (fuel : nat)
      (sz p : Z) (m' : memory) :
  heap_inv start_block s Al D -> 0 <= sz < modulus ->
  mem_malloc start_block fuel s sz = Some (s', p) -> p <> NULL ->
  (forall y, y < p \/ p + sz <= y -> m' y = mem s' y) ->
  exists a, p = payload a
            /\ heap_inv start_block (with_mem s' m') (a :: Al)
                        (D + (block_size (with_mem s' m') p - need sz)).
Proof.
  intros HI Hsz E Hp Hfr.
  destruct (heap_inv_malloc s s' Al D fuel sz p HI Hsz E)
    as [[Hn _]|(a & Ep & _ & Hnd & Hsa & HI')]; [contradiction|].
  exists a. split; [assumption|].
  assert (HW : heap_inv start_block (with_mem s' m') ([] ++ a :: Al)
                        (D + (snd a - need sz))).
  { apply heap_inv_write; [exact HI'|].
    intros y Hy. apply Hfr. subst p. unfold payload in *.
    rewrite META_eq in *. lia. }
  cbn [app] in HW.
  destruct (heap_inv_sizes _ _ _ a HW (or_introl eq_refl)) as (Hbs & _).
  subst p. rewrite Hbs. exact HW.
Qed.

Lemma memset_outside (m : memory) (dst c n y : Z) :
  y < dst \/ dst + n <= y -> memset m dst c n y = m y.
Proof.
  intros H. unfold memset.
  destruct (Z.leb_spec dst y); destruct (Z.ltb_spec y (dst + n)); cbn; lia || reflexivity.
Qed.

Lemma memcpy_outside (m : memory) (dst src n y : Z) :
  y < dst \/ dst + n <= y -> memcpy m dst src n y = m y.
Proof.
  intros H. unfold memcpy.
  destruct (Z.leb_spec dst y); destruct (Z.ltb_spec y (dst + n)); cbn; lia || reflexivity.
Qed.

Lemma store8_outside (m : memory) (a v y : Z) :
  y <> a -> store8 m a v y = m y.
Proof.
  intros H. unfold store8. destruct (Z.eqb_spec y a); [contradiction|reflexivity].
Qed.

Lemma in_payloads (Al : list node) (p : Z) :
  In p (map payload Al) ->
  exists A1 a A2, Al = A1 ++ a :: A2 /\ payload a = p.
Proof.
  intros H. apply in_map_iff in H. destruct H as (a & Ea & Ha).
  apply in_split in Ha. destruct Ha as (A1 & A2 & ->).
  exists A1, a, A2. auto.
Qed.

Lemma reachable_heap_inv (s : state) (P : list Z) (D : Z) :
  reachable start_block s P D ->
  exists Al, heap_inv start_block s Al D /\ map payload Al = P.
Proof.
  induction 1 as
    [s0 s regions k Hreg Hlen Hun Hinit Hk
    |s s' P D fuel sz p Hr IH Hsz E Hp
    |s s' P D fuel sz Hr IH Hsz E
    |s s' P D fuel nitems sz p Hr IH E Hp
    |s s' P D fuel nitems sz Hr IH E
    |s s' P D fuel p Hr IH Hin E
    |s s' P D fuel Hr IH E
    |s s' P D fuel p sz q Hr IH Hin Hsz E Hq
    |s s' P D fuel p sz Hr IH Hin Hsz E
    |s P D p i v Hr IH Hin Hi].
  - destruct (mem_init_heap_ok start_block s0 s regions k Hreg Hlen Hun Hinit Hk)
      as (lo & L & HOK & Hav).
    exists []. split; [|reflexivity]. exists lo, L.
    split; [assumption|]. split; [|lia].
    rewrite Hav, Z.add_0_r. symmetry. apply wrap_small.
    pose proof (spaced_sum _ _ _ (list_spaced _ _ _ _ (heap_list _ _ _ _ _ HOK))).
    pose proof (sum_sizes_le_foots L).
    pose proof (heap_total _ _ _ _ _ HOK) as Ht. cbn in Ht.
    pose proof modulus_eq. unfold node in *. lia.
  - destruct IH as (Al & HI & EP).
    destruct (heap_inv_malloc s s' Al D fuel sz p HI Hsz E)
      as [[Hn _]|(a & Ep & _ & _ & _ & HI')]; [contradiction|].
    exists (a :: Al). cbn [map]. rewrite <- Ep, EP. split; [|reflexivity].
    destruct (heap_inv_sizes _ _ _ a HI' (or_introl eq_refl)) as (Hbs & _).
    rewrite Ep, Hbs. exact HI'.
  - destruct IH as (Al & HI & EP).
    destruct (heap_inv_malloc s s' Al D fuel sz NULL HI Hsz E)
      as [[_ ->]|(a & _ & Hn & _)]; [|congruence].
    exists Al. auto.
  - destruct IH as (Al & HI & EP). unfold mem_calloc in E.
    destruct (mem_malloc start_block fuel s (wrap (sz * nitems)))
      as [[s1 p1]|] eqn:EM; [|discriminate].
    destruct (Z.eqb_spec p1 NULL) as [Hz|Hz]; cbn [negb] in E;
      injection E as Es Ep1; subst s' p1; [congruence|].
    destruct (heap_inv_filled s s1 Al D fuel (wrap (sz * nitems)) p
                (memset (mem s1) p 0 (wrap (sz * nitems))) HI
                (wrap_range _) EM Hp) as (a & Ep & HI').
    { intros y Hy. apply memset_outside. exact Hy. }
    exists (a :: Al). cbn [map]. rewrite <- Ep, EP. auto.
  - destruct IH as (Al & HI & EP). unfold mem_calloc in E.
    destruct (mem_malloc start_block fuel s (wrap (sz * nitems)))
      as [[s1 p1]|] eqn:EM; [|discriminate].
    destruct (Z.eqb_spec p1 NULL) as [Hz|Hz]; cbn [negb] in E;
      injection E as Es Ep1; [|congruence]. subst s1 p1.
    destruct (heap_inv_malloc s s' Al D fuel _ NULL HI (wrap_range _) EM)
      as [[_ ->]|(a & _ & Hn & _)]; [|congruence].
    exists Al. auto.
  - destruct IH as (Al & HI & EP). subst P.
    destruct (in_payloads _ _ Hin) as (A1 & a & A2 & -> & <-).
    destruct (heap_inv_free s s' A1 A2 a D fuel HI E) as [HI' _].
    exists (A1 ++ A2). split; [assumption|].
    symmetry. apply remove_mid. eapply heap_inv_nodup; eassumption.
  - unfold mem_free in E. cbn in E. inversion E. subst. exact IH.
  - destruct IH as (Al & HI & EP). subst P.
    destruct (in_payloads _ _ Hin) as (A1 & a & A2 & -> & <-).
    destruct (heap_inv_sizes _ _ _ a HI) as (_ & Hpn & _);
      [apply in_or_app; right; left; reflexivity|].
    unfold mem_realloc in E.
    destruct (Z.eqb_spec sz 0) as [Hz|_]; [lia|].
    destruct (Z.eqb_spec (payload a) NULL) as [Hz|_]; [contradiction|].
    destruct (mem_malloc start_block fuel s sz) as [[s1 q1]|] eqn:EM;
      [|discriminate].
    destruct (Z.eqb_spec q1 NULL) as [Hz|Hz]; cbn [negb] in E.
    { inversion E. congruence. }
    set (n := if _ >? sz then sz else _) in E.
    set (m2 := memcpy (mem s1) q1 (payload a) n) in E.
    destruct (mem_free start_block fuel (with_mem s1 m2) (payload a))
      as [s2|] eqn:EF; [|discriminate].
    inversion E. subst s2 q1. clear E.
    destruct (heap_inv_malloc s s1 _ D fuel sz q HI ltac:(lia) EM)
      as [[Hn _]|(b & Eq & _ & Hnd & Hsb & HI1)]; [contradiction|].
    assert (Hn : n <= sz).
    { subst n. destruct (Z.gtb_spec
        (Z.land (size_of (mem s) (wrap (payload a - MEM_BLOCK_META_SIZE)))
                (wnot (mem_alloc_bit s))) sz); lia. }
    assert (HI2 : heap_inv start_block (with_mem s1 m2)
                    ([] ++ b :: A1 ++ a :: A2) (D + (snd b - need sz))).
    { apply heap_inv_write; [exact HI1|].
      intros y Hy. apply memcpy_outside. subst q. unfold payload in *.
      rewrite META_eq in *. lia. }
    cbn [app] in HI2.
    destruct (heap_inv_free (with_mem s1 m2) s' (b :: A1) A2 a _ fuel HI2 EF)
      as [HI3 Hsz3].
    cbn [app] in HI3, Hsz3.
    exists (b :: A1 ++ A2). cbn [map]. rewrite <- Eq.
    split.
    + rewrite Eq, (Hsz3 b (or_introl eq_refl)). exact HI3.
    + f_equal. symmetry. apply remove_mid. eapply heap_inv_nodup; eassumption.
  - destruct IH as (Al & HI & EP). subst P.
    destruct (in_payloads _ _ Hin) as (A1 & a & A2 & -> & <-).
    destruct (heap_inv_sizes _ _ _ a HI) as (_ & Hpn & _);
      [apply in_or_app; right; left; reflexivity|].
    unfold mem_realloc in E.
    destruct (Z.eqb_spec sz 0) as [Hz|_]; [lia|].
    destruct (Z.eqb_spec (payload a) NULL) as [Hz|_]; [contradiction|].
    destruct (mem_malloc start_block fuel s sz) as [[s1 q1]|] eqn:EM;
      [|discriminate].
    destruct (Z.eqb_spec q1 NULL) as [Hz|Hz]; cbn [negb] in E.
    + inversion E. subst s1 q1.
      destruct (heap_inv_malloc s s' _ D fuel sz NULL HI ltac:(lia) EM)
        as [[_ ->]|(b & _ & Hn & _)]; [|congruence].
      exists (A1 ++ a :: A2). auto.
    + destruct (mem_free _ _ _ _); [|discriminate]. inversion E. congruence.
  - destruct IH as (Al & HI & EP). subst P.
    destruct (in_payloads _ _ Hin) as (A1 & a & A2 & -> & <-).
    destruct (heap_inv_sizes _ _ _ a HI) as (Hbs & _);
      [apply in_or_app; right; left; reflexivity|].
    exists (A1 ++ a :: A2). split; [|reflexivity].
    apply heap_inv_write; [exact HI|].
    intros y Hy. apply store8_outside. rewrite Hbs in Hi.
    unfold payload in *. rewrite META_eq in *. lia.
Qed.

End Reach.

(* ================================================================== *)
(** * The worked scenario of the specification (section 8) *)

Module ScenarioFacts.
Import Scenario.

Lemma regions_fit : regions_ok start_block regions.
Proof.
  unfold regions_ok, regions, start_block, X. rewrite META_eq.
  pose proof modulus_eq.
  split; [lia|]. split; [lia|]. split.
  - constructor; [|constructor]. unfold region_ok, in_space.
    cbn [start_addr size]. rewrite META_eq.
    split; [lia|]. split; [lia|]. split; [lia|].
    intros _. vm_compute. discriminate.
  - vm_compute. reflexivity.
Qed.

Lemma fresh_init :
  mem_init start_block (pristine (fun _ => 0)) regions = (fresh, 1).
Proof. vm_compute. reflexivity. Qed.

Lemma fresh_reachable : reachable start_block fresh [] 0.
Proof.
  apply (reach_init start_block (pristine (fun _ => 0)) fresh regions 1).
  - exact regions_fit.
  - vm_compute. reflexivity.
  - repeat split.
  - exact fresh_init.
  - discriminate.
Qed.

Lemma fresh_list : free_list start_block fresh [(X, 1016); (X + 1016, 0)].
Proof.
  unfold free_list. cbn [lseg fst snd]. vm_compute. intuition discriminate.
Qed.

Lemma taken_eq : mem_malloc start_block 3 fresh 1000 = Some (taken, X + 8).
Proof. vm_compute. reflexivity. Qed.

Lemma released_eq : mem_free start_block 3 taken (X + 8) = Some released.
Proof. vm_compute. reflexivity. Qed.

Lemma taken_reachable : reachable start_block taken [X + 8] 8.
Proof.
  change 8 with (0 + (block_size taken (X + 8) - need 1000)) at 2.
  apply (reach_malloc start_block fresh taken [] 0 3 1000 (X + 8)).
  - exact fresh_reachable.
  - vm_compute. split; [discriminate|reflexivity].
  - exact taken_eq.
  - discriminate.
Qed.

Lemma released_reachable : reachable start_block released [] 8.
Proof.
  change (@nil Z) with (remove Z.eq_dec (X + 8) [X + 8]).
  apply (reach_free start_block taken released [X + 8] 8 3 (X + 8)).
  - exact taken_reachable.
  - left. reflexivity.
  - exact released_eq.
Qed.

End ScenarioFacts.

(* ================================================================== *)
(** * The public functions against the specification *)

(** C1.  The round trip does not hold in the code.  One region of 1024
    bytes is initialised, which leaves [mem_available_bytes] at 1016;
    [mem_malloc(1000)] then [mem_free] of the pointer it returned give back
    the only allocation, in a reachable state, and the counter stands at
    1024, not at its value after [mem_init]. *)
Theorem round_trip_drifts :
  reachable Scenario.start_block Scenario.fresh [] 0
  /\ mem_available_bytes Scenario.fresh = 1016
  /\ mem_malloc Scenario.start_block 3 Scenario.fresh 1000
     = Some (Scenario.taken, Scenario.X + 8)
  /\ mem_free Scenario.start_block 3 Scenario.taken (Scenario.X + 8)
     = Some Scenario.released
  /\ reachable Scenario.start_block Scenario.released [] 8
  /\ free_list Scenario.start_block Scenario.released
               [(Scenario.X, 1016); (Scenario.X + 1016, 0)]
  /\ mem_available_bytes Scenario.released = 1024.
Proof.
  split; [exact ScenarioFacts.fresh_reachable|].
  split; [vm_compute; reflexivity|].
  split; [exact ScenarioFacts.taken_eq|].
  split; [exact ScenarioFacts.released_eq|].
  split; [exact ScenarioFacts.released_reachable|].
  split; [|vm_compute; reflexivity].
  unfold free_list. cbn [lseg fst snd]. vm_compute. intuition discriminate.
Qed.

(** C2.  The split-threshold scenario, evaluated.  On the fresh heap of one
    1024-byte region, [mem_malloc(1000)] looks for 1008 bytes, does not
    split, hands out the whole block of 1016 bytes and empties the free
    list, and a following [mem_malloc(1)] returns [NULL]; but
    [mem_available_bytes] is left at 8, not at 0. *)
Theorem whole_block_leaves_eight :
  need 1000 = 1008
  /\ free_list Scenario.start_block Scenario.fresh
               [(Scenario.X, 1016); (Scenario.X + 1016, 0)]
  /\ mem_malloc Scenario.start_block 3 Scenario.fresh 1000
     = Some (Scenario.taken, Scenario.X + 8)
  /\ block_size Scenario.taken (Scenario.X + 8) = 1016
  /\ free_list Scenario.start_block Scenario.taken [(Scenario.X + 1016, 0)]
  /\ mem_available_bytes Scenario.taken = 8
  /\ mem_malloc Scenario.start_block 3 Scenario.taken 1
     = Some (Scenario.taken, NULL).
Proof.
  split; [vm_compute; reflexivity|].
  split; [exact ScenarioFacts.fresh_list|].
  split; [exact ScenarioFacts.taken_eq|].
  split; [vm_compute; reflexivity|].
  split; [unfold free_list; cbn [lseg fst snd]; vm_compute;
          intuition discriminate|].
  split; vm_compute; reflexivity.
Qed.

(** C3, as the specification states it, is false: right after [mem_init]
    of one 1024-byte region the counter is 1016, the size of the free block
    with its header, while the sum of [size - H] over the free list is
    1008. *)
Lemma payload_sum_fails :
  ~ (forall (s : state) (P : list Z) (D : Z) (L : list node),
        reachable Scenario.start_block s P D ->
        free_list Scenario.start_block s L ->
        mem_available_bytes s = sum_payloads L).
Proof.
  intros H.
  specialize (H _ _ _ _ ScenarioFacts.fresh_reachable ScenarioFacts.fresh_list).
  vm_compute in H. discriminate.
Qed.

(** C3, amended.  In every state reached from a successful [mem_init] by
    the public calls, in which every allocation made so far was handed a
    block of exactly the size it looked for (the excess [D] is 0),
    [mem_available_bytes] equals the sum of [size], header included, over
    the blocks of the free list (the sentinels count 0). *)
Theorem available_bytes_is_free_size (start_block : Z) (s : state)
        (P : list Z) :
  reachable start_block s P 0 ->
  exists L, free_list start_block s L
            /\ (forall L', free_list start_block s L' -> L' = L)
            /\ mem_available_bytes s = sum_sizes L.
Proof.
  intros Hr.
  destruct (reachable_heap_inv start_block s P 0 Hr)
    as (Al & (lo & L & HOK & Hav & _) & _).
  pose proof (heap_list _ _ _ _ _ HOK) as LOK.
  exists L. split; [exact (list_links _ _ _ _ LOK)|]. split.
  - intros L' HL'. eapply lseg_unique; [exact HL'|exact (list_links _ _ _ _ LOK)].
  - rewrite Hav, Z.add_0_r. apply wrap_small.
    pose proof (spaced_sum _ _ _ (list_spaced _ _ _ _ LOK)).
    pose proof (sum_sizes_le_foots L).
    pose proof (heap_total _ _ _ _ _ HOK) as Ht.
    assert (0 <= sum_sizes Al).
    { pose proof (heap_alloc _ _ _ _ _ HOK) as HA. clear -HA.
      induction HA as [|a Al Ha _ IH]; [cbn; lia|].
      apply allocated_size in Ha. cbn [sum_sizes fold_right].
      fold (sum_sizes Al). lia. }
    pose proof modulus_eq. unfold node in *. lia.
Qed.

Lemma available_bytes_is_free_size_witness :
  exists L, free_list Scenario.start_block Scenario.fresh L
            /\ (forall L', free_list Scenario.start_block Scenario.fresh L'
                           -> L' = L)
            /\ mem_available_bytes Scenario.fresh = sum_sizes L.
Proof.
  apply (available_bytes_is_free_size Scenario.start_block Scenario.fresh []).
  exact ScenarioFacts.fresh_reachable.
Defined.

(** C4.  [mem_malloc], before initialisation or in a reachable state with
    free list [L], returns; it returns [NULL] exactly when the allocator is
    not initialised, or the size is 0, or the size has the allocated bit,
    or the size looked for ([need]) has it, or every block of the free list
    up to and including the tail sentinel is smaller than the size looked
    for; and when it returns [NULL] the state, memory included, is the one
    it was called in. *)
Theorem mem_malloc_null_iff (start_block : Z) (s : state) (P : list Z)
        (D : Z) (L : list node) (sz : Z) (fuel : nat) :
  end_block s = NULL
  \/ (reachable start_block s P D /\ free_list start_block s L) ->
  0 <= sz < modulus ->
  (length L < fuel)%nat ->
  exists s' p,
    mem_malloc start_block fuel s sz = Some (s', p)
    /\ (p = NULL <-> malloc_refuses s L sz)
    /\ (p = NULL -> s' = s).
Proof.
  intros [Hu|[Hr HL]] Hsz Hfuel.
  { exists s, NULL. unfold mem_malloc.
    destruct (Z.eqb_spec (end_block s) NULL) as [_|Hn]; [|contradiction].
    cbn [orb]. split; [reflexivity|]. split; [|reflexivity].
    split; [|reflexivity]. intros _. left. exact Hu. }
  destruct (reachable_heap_inv start_block s P D Hr)
    as (Al & (lo & L0 & HOK & _) & _).
  pose proof (heap_list _ _ _ _ _ HOK) as LOK.
  assert (L0 = L).
  { eapply lseg_unique; [exact (list_links _ _ _ _ LOK)|exact HL]. }
  subst L0.
  pose proof (heap_bit _ _ _ _ _ HOK) as Hbit.
  pose proof modulus_eq as HM.
  assert (Refuse :
    (sz = 0 \/ Z.land sz (mem_alloc_bit s) <> 0
     \/ Z.land (need sz) (mem_alloc_bit s) <> 0
     \/ Forall (fun x => snd x < need sz) L) ->
    exists s' p,
      mem_malloc start_block fuel s sz = Some (s', p)
      /\ (p = NULL <-> malloc_refuses s L sz)
      /\ (p = NULL -> s' = s)).
  { intros Hc. exists s, NULL.
    split; [eapply mem_malloc_refused; eassumption|].
    split; [|reflexivity]. split; [|reflexivity].
    intros _. right. exact Hc. }
  destruct (Z.eq_dec sz 0) as [Hz|Hz]; [apply Refuse; auto|].
  destruct (Z_lt_ge_dec sz (2 ^ 31)) as [Hs|Hs].
  2:{ apply Refuse. right. left. rewrite Hbit, land_bit by lia.
      destruct (Z.ltb_spec sz (2 ^ 31)); lia. }
  pose proof (wrap_range (MEM_ALIGN sz + MEM_BLOCK_META_SIZE)) as Hnr.
  fold (need sz) in Hnr.
  destruct (Z_lt_ge_dec (need sz) (2 ^ 31)) as [Hn|Hn].
  2:{ apply Refuse. right. right. left. rewrite Hbit, land_bit by lia.
      destruct (Z.ltb_spec (need sz) (2 ^ 31)); lia. }
  destruct (first_fit_split (need sz) L)
    as [HF|(P0 & c & sc & R & EL & HP & Hfit)].
  { apply Refuse. auto. }
  subst L.
  destruct (mem_malloc_served start_block lo s Al P0 R c sc sz fuel HOK
              ltac:(lia) Hn HP Hfit Hfuel)
    as (s1 & L' & b & E' & HOK' & _).
  destruct (alloc_facts start_block lo s1 L' ((c, b) :: Al) (c, b) HOK'
              (or_introl eq_refl)) as (_ & _ & Hc & _).
  cbn [fst] in Hc.
  exists s1, (c + 8). split; [exact E'|].
  assert (Hp : c + 8 <> NULL) by (unfold NULL; lia).
  split; [|intros; contradiction]. split; [intros; contradiction|].
  intros [H|[H|[H|[H|H]]]]; exfalso.
  - destruct (end_block_nonnull start_block lo s _ LOK). contradiction.
  - contradiction.
  - apply H. rewrite Hbit. apply land_bit_clear. lia.
  - apply H. rewrite Hbit. apply land_bit_clear. lia.
  - apply Forall_app in H. destruct H as [_ H]. apply Forall_inv in H.
    cbn [snd] in H. lia.
Qed.

Lemma mem_malloc_null_iff_witness :
  exists s' p,
    mem_malloc Scenario.start_block 3 Scenario.taken 1 = Some (s', p)
    /\ (p = NULL
        <-> malloc_refuses Scenario.taken [(Scenario.X + 1016, 0)] 1)
    /\ (p = NULL -> s' = Scenario.taken).
Proof.
  apply (mem_malloc_null_iff Scenario.start_block Scenario.taken
           [Scenario.X + 8] 8 [(Scenario.X + 1016, 0)] 1 3).
  - right. split; [exact ScenarioFacts.taken_reachable|].
    unfold free_list. cbn [lseg fst snd]. vm_compute. intuition discriminate.
  - vm_compute. split; [discriminate|reflexivity].
  - cbn. lia.
Defined.

Lemma wrap_land (x y : Z) : 0 <= x < modulus -> wrap (Z.land x y) = Z.land x y.
Proof.
  intros Hx. unfold wrap, modulus, word_bits.
  rewrite <- Z.land_ones by lia.
  rewrite <- Z.land_assoc, (Z.land_comm y), Z.land_assoc.
  rewrite Z.land_ones by lia.
  rewrite (Z.mod_small x); [reflexivity|exact Hx].
Qed.

Lemma land_wnot_diag (x b : Z) : Z.land (Z.land x (wnot b)) b = 0.
Proof.
  unfold wnot, wrap, modulus, word_bits.
  rewrite <- Z.land_ones by lia.
  rewrite <- !Z.land_assoc, (Z.land_comm (Z.ones 32) b).
  rewrite (Z.land_assoc (Z.lnot b)), (Z.land_comm (Z.lnot b)).
  rewrite Z.land_lnot_diag, Z.land_0_l, Z.land_0_r. reflexivity.
Qed.

(** C5.  [mem_free(NULL)] changes nothing.  For a non-null pointer,
    [mem_free] changes nothing unless the header in front of it has the
    allocated bit in its size and a null [next]; when both hold it hands to
    [insert_free_block] the state in which that size field has the bit
    cleared and [mem_available_bytes] has grown by the stored size.  In a
    reachable state, freeing a pointer that is outstanding puts its block on
    the free list, and freeing it a second time changes nothing. *)
Theorem mem_free_validates (start_block : Z) (fuel : nat) (s : state)
        (ptr : Z) :
  (ptr = NULL -> mem_free start_block fuel s ptr = Some s)
  /\ (ptr <> NULL ->
      ~ (Z.land (size_of (mem s) (block_of ptr)) (mem_alloc_bit s) <> 0
         /\ next_of (mem s) (block_of ptr) = NULL) ->
      mem_free start_block fuel s ptr = Some s)
  /\ (ptr <> NULL ->
      Z.land (size_of (mem s) (block_of ptr)) (mem_alloc_bit s) <> 0 ->
      next_of (mem s) (block_of ptr) = NULL ->
      exists s1,
        mem_free start_block fuel s ptr
        = insert_free_block start_block fuel s1 (block_of ptr)
        /\ size_of (mem s1) (block_of ptr) = block_size s ptr
        /\ Z.land (size_of (mem s1) (block_of ptr)) (mem_alloc_bit s1) = 0
        /\ (forall y, y < block_of ptr + 4 \/ block_of ptr + 8 <= y ->
                      mem s1 y = mem s y)
        /\ mem_available_bytes s1
           = wrap (mem_available_bytes s + block_size s ptr)
        /\ end_block s1 = end_block s
        /\ mem_alloc_bit s1 = mem_alloc_bit s
        /\ mem_regions_count s1 = mem_regions_count s)
  /\ (forall (P : list Z) (D : Z) (L : list node) (fuel' : nat),
        reachable start_block s P D -> free_list start_block s L ->
        In ptr P -> (length L < fuel)%nat ->
        exists s',
          mem_free start_block fuel s ptr = Some s'
          /\ free_list start_block s'
               (coalesce (end_block s) L (block_of ptr, block_size s ptr))
          /\ mem_available_bytes s'
             = wrap (mem_available_bytes s + block_size s ptr)
          /\ mem_free start_block fuel' s' ptr = Some s').
Proof.
  split; [|split; [|split]].
  - intros ->. reflexivity.
  - intros Hp Hv. unfold mem_free. fold (block_of ptr).
    destruct (Z.eqb_spec ptr NULL) as [|_]; [contradiction|].
    destruct (Z.eqb_spec (Z.land (size_of (mem s) (block_of ptr))
                                 (mem_alloc_bit s)) 0) as [E|E];
      cbn [negb andb]; [reflexivity|].
    destruct (Z.eqb_spec (next_of (mem s) (block_of ptr)) NULL) as [E'|E'];
      [|reflexivity].
    exfalso. apply Hv. split; assumption.
  - intros Hp Hb Hn. unfold mem_free. fold (block_of ptr).
    destruct (Z.eqb_spec ptr NULL) as [|_]; [contradiction|].
    destruct (Z.eqb_spec (Z.land (size_of (mem s) (block_of ptr))
                                 (mem_alloc_bit s)) 0) as [E|_];
      [contradiction|].
    destruct (Z.eqb_spec (next_of (mem s) (block_of ptr)) NULL) as [_|E'];
      [|contradiction].
    cbn [negb andb]. fold (block_size s ptr).
    assert (Es : size_of (set_size (mem s) (block_of ptr) (block_size s ptr))
                         (block_of ptr) = block_size s ptr).
    { rewrite size_set_size_same. apply wrap_land. apply size_of_range. }
    eexists. split; [reflexivity|]. cbn [mem mem_available_bytes end_block
                                         mem_alloc_bit mem_regions_count].
    rewrite Es. split; [reflexivity|].
    split; [apply land_wnot_diag|].
    split; [|repeat split].
    intros y Hy. apply store32_outside. lia.
  - intros P D L fuel' Hr HL Hin Hfuel.
    destruct (reachable_heap_inv start_block s P D Hr)
      as (Al & (lo & L0 & HOK & _) & EP).
    pose proof (heap_list _ _ _ _ _ HOK) as LOK.
    assert (L0 = L).
    { eapply lseg_unique; [exact (list_links _ _ _ _ LOK)|exact HL]. }
    subst L0 P.
    destruct (in_payloads _ _ Hin) as (A1 & a & A2 & -> & <-).
    destruct (alloc_facts start_block lo s L _ a HOK)
      as (_ & _ & _ & _ & Eb & Ebs & Hpn);
      [apply in_or_app; right; left; reflexivity|].
    destruct (mem_free_ok start_block lo s L A1 A2 a fuel HOK Hfuel)
      as (s' & E & Hav & _ & _ & _ & HOK' & Hclr & _).
    exists s'. rewrite Eb, Ebs.
    replace (fst a, snd a) with a by (destruct a; reflexivity).
    unfold payload. rewrite META_eq.
    split; [exact E|].
    split; [exact (list_links _ _ _ _ (heap_list _ _ _ _ _ HOK'))|].
    split; [exact Hav|].
    unfold mem_free.
    replace (wrap (fst a + 8 - MEM_BLOCK_META_SIZE)) with (fst a)
      by (unfold block_of, payload in Eb; rewrite META_eq in *; symmetry;
          exact Eb).
    rewrite Hclr.
    destruct (fst a + 8 =? NULL); reflexivity.
Qed.

Lemma mem_free_validates_witness :
  exists s',
    mem_free Scenario.start_block 3 Scenario.taken (Scenario.X + 8) = Some s'
    /\ free_list Scenario.start_block s'
         (coalesce (end_block Scenario.taken) [(Scenario.X + 1016, 0)]
                   (block_of (Scenario.X + 8),
                    block_size Scenario.taken (Scenario.X + 8)))
    /\ mem_available_bytes s'
       = wrap (mem_available_bytes Scenario.taken
               + block_size Scenario.taken (Scenario.X + 8))
    /\ mem_free Scenario.start_block 0 s' (Scenario.X + 8) = Some s'.
Proof.
  apply (proj2 (proj2 (proj2
           (mem_free_validates Scenario.start_block 3 Scenario.taken
                               (Scenario.X + 8))))
           [Scenario.X + 8] 8 [(Scenario.X + 1016, 0)] 0%nat).
  - exact ScenarioFacts.taken_reachable.
  - unfold free_list. cbn [lseg fst snd]. vm_compute. intuition discriminate.
  - left. reflexivity.
  - cbn. lia.
Defined.

Lemma spaced_ascending (L : list node) :
  forall lo hi, spaced lo L hi -> ascending L.
Proof.
  induction L as [|n L IH]; intros lo hi H; cbn [ascending]; [exact I|].
  cbn [spaced] in H. destruct H as (_ & _ & H). split.
  - eapply Forall_impl; [|exact (spaced_all _ _ _ H)].
    intros c Hc. cbn beta in Hc. pose proof (foot_ge n). lia.
  - eapply IH. exact H.
Qed.

Lemma lseg_next (m : memory) (P : list node) (n b : node) (Q : list node) :
  forall p q, lseg m p (P ++ n :: b :: Q) q -> next_of m (fst n) = fst b.
Proof.
  intros p q H. apply lseg_app in H. destruct H as (r & _ & H).
  cbn [lseg] in H. destruct H as (E1 & _ & _ & E2 & _). congruence.
Qed.

(** The outcome of the coalescing insertion, case by case. *)
Lemma coalesce_cases (eb : Z) (P Q : list node) (b n : node) :
  Forall (fun c => fst c < fst n) P ->
  Forall (fun c => fst n <= fst c) (b :: Q) ->
  let absorb := fst n + snd n = fst b /\ fst b <> eb in
  (forall P0 k, P = P0 ++ [k] -> fst k + snd k = fst n ->
     (absorb ->
      coalesce eb (P ++ b :: Q) n
      = P0 ++ (fst k, snd k + snd n + snd b) :: Q)
     /\ (~ absorb ->
         coalesce eb (P ++ b :: Q) n
         = P0 ++ (fst k, snd k + snd n) :: b :: Q))
  /\ (P = [] \/ (exists P0 k, P = P0 ++ [k] /\ fst k + snd k <> fst n) ->
      (absorb ->
       coalesce eb (P ++ b :: Q) n = P ++ (fst n, snd n + snd b) :: Q)
      /\ (~ absorb -> coalesce eb (P ++ b :: Q) n = P ++ n :: b :: Q)).
Proof.
  intros HP HQ absorb. rewrite coalesce_split by assumption.
  assert (AR : forall n',
    fst n' + snd n' = fst n + snd n ->
    (absorb -> absorb_right eb n' (b :: Q) = (fst n', snd n' + snd b) :: Q)
    /\ (~ absorb -> absorb_right eb n' (b :: Q) = n' :: b :: Q)).
  { intros n' En. unfold absorb, absorb_right. rewrite En.
    destruct (Z.eqb_spec (fst n + snd n) (fst b)) as [E1|E1];
      destruct (Z.eqb_spec (fst b) eb) as [E2|E2]; cbn [negb andb];
      split; intros H; try reflexivity; exfalso; tauto. }
  split.
  - intros P0 k -> Ek. rewrite absorb_left_snoc.
    destruct (Z.eqb_spec (fst k + snd k) (fst n)) as [_|E]; [|contradiction].
    destruct (AR (fst k, snd k + snd n)) as [A1 A2]; [cbn [fst snd]; lia|].
    cbn [fst snd] in A1. split; intros H; [rewrite A1|rewrite A2]; auto.
  - intros Hl.
    assert (EA : absorb_left P n = (P, n)).
    { destruct Hl as [->|(P0 & k & -> & Hk)]; [reflexivity|].
      rewrite absorb_left_snoc.
      destruct (Z.eqb_spec (fst k + snd k) (fst n)); [contradiction|reflexivity]. }
    rewrite EA. destruct (AR n eq_refl) as [A1 A2].
    split; intros H; [rewrite A1|rewrite A2]; auto.
Qed.

(** C6.  [insert_free_block], given a well-formed free list [L] and a block
    [n] that holds its size and lies apart from the blocks of the list,
    returns, and the free list it leaves is again well formed: walking it
    from [start_block.next] visits blocks at strictly increasing addresses
    and ends at the tail sentinel [end_block], whose [next] is [NULL].  The
    list is [L] with [n] put in address order and merged with its
    neighbours: a right neighbour that starts where [n] ends is absorbed
    unless it is [end_block], in which case [n] is linked before it; a left
    neighbour that ends where [n] starts absorbs [n]. *)
Theorem insert_free_block_keeps_order (start_block lo : Z) (s : state)
        (L : list node) (n : node) (fuel : nat) :
  list_ok start_block lo s L ->
  insertable start_block lo s L n ->
  (length L < fuel)%nat ->
  exists s' L',
    insert_free_block start_block fuel s (fst n) = Some s'
    /\ free_list start_block s' L'
    /\ ascending L'
    /\ (exists L0, L' = L0 ++ [(end_block s', 0)])
    /\ next_of (mem s') (end_block s') = NULL
    /\ end_block s' = end_block s
    /\ list_ok start_block lo s' L'
    /\ L' = coalesce (end_block s) L n
    /\ exists P b Q,
         L = P ++ b :: Q
         /\ Forall (fun c => fst c < fst n) P
         /\ Forall (fun c => fst n < fst c) (b :: Q)
         /\ let absorb := fst n + snd n = fst b /\ fst b <> end_block s in
            (forall P0 k, P = P0 ++ [k] -> fst k + snd k = fst n ->
               (absorb -> L' = P0 ++ (fst k, snd k + snd n + snd b) :: Q)
               /\ (~ absorb -> L' = P0 ++ (fst k, snd k + snd n) :: b :: Q))
            /\ (P = [] \/ (exists P0 k, P = P0 ++ [k]
                                        /\ fst k + snd k <> fst n) ->
                (absorb -> L' = P ++ (fst n, snd n + snd b) :: Q)
                /\ (~ absorb ->
                    L' = P ++ n :: b :: Q
                    /\ next_of (mem s') (fst n) = fst b
                    /\ size_of (mem s') (fst n) = snd n)).
Proof.
  intros LOK Hins Hfuel.
  destruct (insert_free_block_correct start_block lo s L n LOK Hins fuel Hfuel)
    as (m' & E & LOK' & _ & _).
  destruct (insert_position start_block lo s L n LOK Hins)
    as (P & b & Q & EL & HP & HQ).
  exists (with_mem s m'), (coalesce (end_block s) L n).
  pose proof (list_links _ _ _ _ LOK') as HF.
  pose proof (list_tail _ _ _ _ LOK') as HT.
  split; [exact E|]. split; [exact HF|].
  split; [exact (spaced_ascending _ _ _ (list_spaced _ _ _ _ LOK'))|].
  split; [exact HT|].
  split.
  { destruct HT as (L0 & EL0). unfold free_list in HF. rewrite EL0 in HF.
    apply lseg_app in HF. destruct HF as (r & _ & HF). cbn [lseg] in HF.
    destruct HF as (E1 & _ & _ & E2). cbn [fst] in E1. subst r. exact E2. }
  split; [reflexivity|]. split; [exact LOK'|]. split; [reflexivity|].
  exists P, b, Q. split; [exact EL|]. split; [exact HP|].
  assert (HQ' : Forall (fun c => fst n < fst c) (b :: Q)).
  { destruct Hins as (_ & _ & H8 & _ & Hap).
    unfold chain in Hap. apply Forall_cons_inv in Hap. destruct Hap as [_ Hap].
    rewrite EL in Hap. apply Forall_app in Hap. destruct Hap as [_ Hap].
    rewrite Forall_forall in HQ, Hap |- *. intros c Hc.
    specialize (HQ c Hc). specialize (Hap c Hc). cbn beta in HQ.
    revert Hap. unfold apart. pose proof (foot_ge n). pose proof (foot_ge c).
    rewrite META_eq in *. lia. }
  split; [exact HQ'|].
  destruct (coalesce_cases (end_block s) P Q b n HP HQ) as [C1 C2].
  rewrite <- EL in C1, C2. cbn zeta. split; [exact C1|].
  intros Hl. destruct (C2 Hl) as [C3 C4]. split; [exact C3|].
  intros Hna. specialize (C4 Hna). split; [exact C4|].
  unfold free_list in HF. rewrite C4 in HF. split.
  - eapply lseg_next. exact HF.
  - apply lseg_app in HF. destruct HF as (r & _ & HF). cbn [lseg] in HF.
    destruct HF as (E1 & _ & E2 & _). subst r. exact E2.
Qed.

Lemma untagged_list_ok :
  list_ok Scenario.start_block Scenario.X Scenario.untagged
          [(Scenario.X + 108, 908); (Scenario.X + 1016, 0)].
Proof.
  assert (Eeb : end_block Scenario.untagged = 5112) by (vm_compute; reflexivity).
  pose proof modulus_eq.
  constructor; rewrite ?Eeb, ?META_eq;
    unfold Scenario.start_block, Scenario.X.
  - lia.
  - lia.
  - lia.
  - lia.
  - repeat constructor; unfold apart, foot; rewrite META_eq; cbn [fst snd]; lia.
  - vm_compute. reflexivity.
  - unfold free_list. cbn [lseg fst snd]. vm_compute. intuition discriminate.
  - exists [(4096 + 108, 908)]. reflexivity.
  - unfold spaced, foot. rewrite META_eq. cbn [fst snd]. lia.
Qed.

Lemma untagged_insertable :
  insertable Scenario.start_block Scenario.X Scenario.untagged
             [(Scenario.X + 108, 908); (Scenario.X + 1016, 0)]
             (Scenario.X, 108).
Proof.
  assert (Eeb : end_block Scenario.untagged = 5112) by (vm_compute; reflexivity).
  unfold insertable. rewrite Eeb, META_eq. cbn [fst snd].
  unfold Scenario.X, Scenario.start_block.
  split; [lia|]. split; [lia|]. split; [lia|].
  split; [vm_compute; reflexivity|].
  repeat constructor; unfold apart, foot; rewrite META_eq; cbn [fst snd]; lia.
Qed.

Lemma insert_free_block_keeps_order_witness :
  exists s',
    insert_free_block Scenario.start_block 3 Scenario.untagged Scenario.X
    = Some s'
    /\ free_list Scenario.start_block s'
                 [(Scenario.X, 1016); (Scenario.X + 1016, 0)].
Proof.
  destruct (insert_free_block_keeps_order
              Scenario.start_block Scenario.X Scenario.untagged
              [(Scenario.X + 108, 908); (Scenario.X + 1016, 0)]
              (Scenario.X, 108) 3
              untagged_list_ok untagged_insertable
              (Nat.lt_succ_diag_r 2))
    as (s' & L' & E & HF & _ & _ & _ & _ & _ & EL & _).
  exists s'. split; [exact E|].
  rewrite EL in HF. exact HF.
Defined.

(** C7.  In a reachable state whose free list is [P ++ (c, sc) :: R], where
    the block at [c] is the first one of at least the size looked for,
    [mem_malloc] unlinks that block and returns its payload.  When
    [sc - need] exceeds [2 * H] the block is split: its size becomes
    [need], and the rest, a block of size [sc - need] at [c + need], is
    inserted (with coalescing) into the list the unlinking left.  Otherwise
    there is no split: the block keeps its size [sc] and the free list is
    the one the unlinking left.  In both cases the block is tagged as
    allocated and its [next] is [NULL]. *)
Theorem mem_malloc_split_policy (start_block : Z) (s : state)
        (Pl : list Z) (D : Z) (P R : list node) (c sc sz : Z) (fuel : nat) :
  reachable start_block s Pl D ->
  free_list start_block s (P ++ (c, sc) :: R) ->
  0 < sz < 2 ^ 31 -> need sz < 2 ^ 31 ->
  Forall (fun x => snd x < need sz) P -> need sz <= sc ->
  (length (P ++ (c, sc) :: R) < fuel)%nat ->
  exists s',
    mem_malloc start_block fuel s sz = Some (s', c + MEM_BLOCK_META_SIZE)
    /\ (2 * MEM_BLOCK_META_SIZE < sc - need sz ->
        block_size s' (c + MEM_BLOCK_META_SIZE) = need sz
        /\ free_list start_block s'
             (coalesce (end_block s) (P ++ R) (c + need sz, sc - need sz)))
    /\ (sc - need sz <= 2 * MEM_BLOCK_META_SIZE ->
        block_size s' (c + MEM_BLOCK_META_SIZE) = sc
        /\ free_list start_block s' (P ++ R))
    /\ Z.land (size_of (mem s') c) (mem_alloc_bit s') <> 0
    /\ next_of (mem s') c = NULL.
Proof.
  intros Hr HL Hsz Hn HP Hfit Hfuel.
  destruct (reachable_heap_inv start_block s Pl D Hr)
    as (Al & (lo & L0 & HOK & _) & _).
  assert (L0 = P ++ (c, sc) :: R).
  { eapply lseg_unique;
      [exact (list_links _ _ _ _ (heap_list _ _ _ _ _ HOK))|exact HL]. }
  subst L0.
  destruct (mem_malloc_served start_block lo s Al P R c sc sz fuel HOK
              Hsz Hn HP Hfit Hfuel)
    as (s' & L' & b & E & HOK' & _ & _ & _ & _ & Hcase).
  destruct (alloc_facts start_block lo s' L' ((c, b) :: Al) (c, b) HOK'
              (or_introl eq_refl)) as (Ha & Hb & _ & _ & _ & Hbs & _).
  unfold payload in Hbs. cbn [fst snd] in Hbs, Hb.
  pose proof (list_links _ _ _ _ (heap_list _ _ _ _ _ HOK')) as HF'.
  exists s'. rewrite META_eq in *. split; [exact E|].
  split; [|split].
  - intros Hgt. destruct Hcase as [(H1 & _)|(_ & -> & ->)]; [lia|].
    split; assumption.
  - intros Hle. destruct Hcase as [(_ & -> & ->)|(H1 & _)]; [|lia].
    split; assumption.
  - destruct Ha as (_ & _ & _ & Hnx & Hsize & _). cbn [fst snd] in Hnx, Hsize.
    split; [|exact Hnx].
    rewrite Hsize, (heap_bit _ _ _ _ _ HOK'), land_bit_set by lia. lia.
Qed.

Lemma mem_malloc_split_policy_witness :
  exists s',
    mem_malloc Scenario.start_block 3 Scenario.fresh 100
    = Some (s', Scenario.X + MEM_BLOCK_META_SIZE)
    /\ (2 * MEM_BLOCK_META_SIZE < 1016 - need 100 ->
        block_size s' (Scenario.X + MEM_BLOCK_META_SIZE) = need 100
        /\ free_list Scenario.start_block s'
             (coalesce (end_block Scenario.fresh)
                       ([] ++ [(Scenario.X + 1016, 0)])
                       (Scenario.X + need 100, 1016 - need 100)))
    /\ (1016 - need 100 <= 2 * MEM_BLOCK_META_SIZE ->
        block_size s' (Scenario.X + MEM_BLOCK_META_SIZE) = 1016
        /\ free_list Scenario.start_block s'
                     ([] ++ [(Scenario.X + 1016, 0)]))
    /\ Z.land (size_of (mem s') Scenario.X) (mem_alloc_bit s') <> 0
    /\ next_of (mem s') Scenario.X = NULL.
Proof.
  apply (mem_malloc_split_policy Scenario.start_block Scenario.fresh [] 0
           [] [(Scenario.X + 1016, 0)] Scenario.X 1016 100 3).
  - exact ScenarioFacts.fresh_reachable.
  - exact ScenarioFacts.fresh_list.
  - lia.
  - vm_compute. reflexivity.
  - constructor.
  - vm_compute. discriminate.
  - cbn. lia.
Defined.

(** What [mem_init] does once its two guards have passed. *)
Lemma mem_init_passes (start_block : Z) (s : state)
      (regions : list mem_region_t) :
  Forall in_space regions -> Z.of_nat (length regions) < modulus ->
  end_block s = NULL -> mem_regions_count s = 0 ->
  ~ out_of_order regions ->
  exists s',
    mem_init start_block s regions = (s', regions_accepted regions)
    /\ mem_regions_count s' = regions_accepted regions
    /\ (regions_accepted regions = 0 -> end_block s' = NULL)
    /\ (regions_accepted regions <> 0 -> end_block s' <> NULL).
Proof.
  intros HF Hlen Heb Hcnt Hord. unfold mem_init.
  rewrite Heb. cbn [Z.eqb NULL negb].
  destruct (regions_grow 0 0 regions) eqn:Hg.
  2:{ exfalso. apply Hord. apply regions_grow_out_of_order; assumption. }
  cbn [negb].
  pose proof (fold_init_count start_block regions s HF) as Hc.
  rewrite Hcnt in Hc. specialize (Hc ltac:(lia) ltac:(lia)).
  rewrite filter_kept_skipped in Hc by assumption.
  fold (regions_accepted regions) in Hc. cbn [Z.add] in Hc.
  eexists. split; [rewrite Hc; reflexivity|].
  cbn [mem_regions_count end_block]. split; [reflexivity|]. split.
  - intros Hz. rewrite fold_init_unchanged; [exact Heb|].
    unfold regions_accepted in Hz.
    rewrite <- filter_kept_skipped in Hz by assumption.
    assert (Hnil : filter kept regions = []).
    { destruct (filter kept regions); [reflexivity|cbn in Hz; lia]. }
    clear -Hnil. induction regions as [|r rs IH]; [constructor|].
    cbn [filter] in Hnil. destruct (kept r) eqn:Hk; [discriminate|].
    constructor; [exact Hk|apply IH; exact Hnil].
  - intros Hnz. apply fold_init_end_block; [assumption|]. right.
    unfold regions_accepted in Hnz.
    rewrite <- filter_kept_skipped in Hnz by assumption.
    destruct (filter kept regions); [cbn in Hnz; lia|discriminate].
Qed.

Lemma mem_init_guarded (start_block : Z) (s : state)
      (regions : list mem_region_t) :
  end_block s <> NULL -> mem_init start_block s regions = (s, 0).
Proof.
  intros H. unfold mem_init.
  destruct (Z.eqb_spec (end_block s) NULL); [contradiction|reflexivity].
Qed.

Lemma mem_init_unordered (start_block : Z) (s : state)
      (regions : list mem_region_t) :
  Forall in_space regions -> out_of_order regions ->
  mem_init start_block s regions = (s, 0).
Proof.
  intros HF H. unfold mem_init.
  destruct (negb (end_block s =? NULL)); [reflexivity|].
  apply regions_grow_out_of_order in H; [|assumption].
  rewrite H. reflexivity.
Qed.

(** C8, as stated, fails.  The order check of [mem_init] compares
    [mem_start_addr + mem_size], a pointer sum that wraps around at the top
    of the address space, with the next start address.  A region that
    reaches the top, here the 4096 bytes from 4294963200, ends at the
    wrapped address 0, so that the region at 4096 given after it passes the
    check although it starts below the end of the region before it: the
    call accepts both regions and returns 2, not 0. *)
Lemma order_check_wraps :
  ~ (forall (s : state) (regions : list mem_region_t),
        Forall (fun r => 0 <= start_addr r < modulus
                         /\ 0 <= size r < modulus) regions ->
        out_of_order regions ->
        snd (mem_init Scenario.start_block s regions) = 0).
Proof.
  intros H.
  specialize (H (pristine (fun _ => 0))
                [mkRegion 4294963200 4096; mkRegion 4096 64]).
  assert (E : snd (mem_init Scenario.start_block (pristine (fun _ => 0))
                            [mkRegion 4294963200 4096; mkRegion 4096 64])
              = 2) by (vm_compute; reflexivity).
  rewrite E in H. discriminate H.
  - repeat constructor; vm_compute; discriminate || reflexivity.
  - apply ooo_here. cbn [start_addr size]. lia.
Qed.

(** C8, amended.  For regions each of which ends inside the address space
    ([start_addr + size < 2 ^ 32], so that the sum of the order check does
    not wrap around): [mem_init] returns 0, and changes nothing, when the
    allocator is already initialised ([end_block] not null) or when some
    region starts below the end of the region before it; otherwise, called
    on the uninitialised allocator, it returns the number of regions that
    are not skipped, a region being skipped when its size, or its size
    after the start is aligned upward and the size truncated downward to a
    multiple of [A], is below [H + A]. *)
Theorem mem_init_returns (start_block : Z) (s : state)
        (regions : list mem_region_t) :
  Forall in_space regions -> Z.of_nat (length regions) < modulus ->
  (end_block s <> NULL -> mem_init start_block s regions = (s, 0))
  /\ (out_of_order regions -> mem_init start_block s regions = (s, 0))
  /\ (end_block s = NULL -> mem_regions_count s = 0 ->
      ~ out_of_order regions ->
      snd (mem_init start_block s regions) = regions_accepted regions).
Proof.
  intros HF Hlen. split; [|split].
  - apply mem_init_guarded.
  - apply mem_init_unordered. exact HF.
  - intros Heb Hcnt Hord.
    destruct (mem_init_passes start_block s regions HF Hlen Heb Hcnt Hord)
      as (s' & E & _).
    rewrite E. reflexivity.
Qed.

Lemma mem_init_returns_witness :
  snd (mem_init Scenario.start_block (pristine (fun _ => 0))
                [mkRegion 4098 9; mkRegion 8192 64; mkRegion 8300 15;
                 mkRegion 8502 13])
  = regions_accepted [mkRegion 4098 9; mkRegion 8192 64; mkRegion 8300 15;
                      mkRegion 8502 13].
Proof.
  apply (mem_init_returns Scenario.start_block (pristine (fun _ => 0))
           [mkRegion 4098 9; mkRegion 8192 64; mkRegion 8300 15;
            mkRegion 8502 13]).
  - repeat constructor; vm_compute; try discriminate; reflexivity.
  - vm_compute. reflexivity.
  - reflexivity.
  - reflexivity.
  - intros H.
    repeat match goal with
           | H : out_of_order _ |- _ => inversion H; clear H; subst
           end;
    cbn [start_addr size] in *; lia.
Defined.

(** C10.  A [mem_init] in the uninitialised state that accepts no region
    (no region given, every region skipped, or the order check fails)
    returns 0 and leaves [end_block] null and the region count 0, so a later
    [mem_init] with regions in order, one of which is accepted, succeeds:
    it returns the number accepted and sets [end_block].  A [mem_init] that
    accepts a region sets [end_block], after which every [mem_init] returns
    0 and changes nothing. *)
Theorem mem_init_retry (start_block : Z) (s0 s1 : state)
        (regions : list mem_region_t) (k : Z) :
  end_block s0 = NULL -> mem_regions_count s0 = 0 ->
  Forall in_space regions -> Z.of_nat (length regions) < modulus ->
  mem_init start_block s0 regions = (s1, k) ->
  (k = 0 <-> out_of_order regions \/ regions_accepted regions = 0)
  /\ (k = 0 ->
      end_block s1 = NULL /\ mem_regions_count s1 = 0
      /\ forall regions2,
           Forall in_space regions2 ->
           Z.of_nat (length regions2) < modulus ->
           ~ out_of_order regions2 -> regions_accepted regions2 <> 0 ->
           exists s2,
             mem_init start_block s1 regions2
             = (s2, regions_accepted regions2)
             /\ end_block s2 <> NULL)
  /\ (k <> 0 ->
      end_block s1 <> NULL
      /\ forall regions2, mem_init start_block s1 regions2 = (s1, 0)).
Proof.
  intros Heb Hcnt HF Hlen E.
  assert (Retry : end_block s1 = NULL -> mem_regions_count s1 = 0 ->
    forall regions2,
      Forall in_space regions2 -> Z.of_nat (length regions2) < modulus ->
      ~ out_of_order regions2 -> regions_accepted regions2 <> 0 ->
      exists s2,
        mem_init start_block s1 regions2 = (s2, regions_accepted regions2)
        /\ end_block s2 <> NULL).
  { intros Heb1 Hcnt1 regions2 HF2 Hlen2 Hord2 Hacc2.
    destruct (mem_init_passes start_block s1 regions2 HF2 Hlen2 Heb1 Hcnt1 Hord2)
      as (s2 & E2 & _ & _ & Hnn).
    exists s2. split; [exact E2|]. apply Hnn. exact Hacc2. }
  destruct (regions_grow 0 0 regions) eqn:Hg.
  - assert (Hord : ~ out_of_order regions).
    { intros H. apply regions_grow_out_of_order in H; [|assumption].
      congruence. }
    destruct (mem_init_passes start_block s0 regions HF Hlen Heb Hcnt Hord)
      as (s' & E' & Hc' & Hz & Hnz).
    rewrite E in E'. injection E' as -> ->.
    split; [|split].
    + split; [auto|]. intros [H|H]; [contradiction|exact H].
    + intros Hk. split; [apply Hz; exact Hk|]. split; [congruence|].
      apply Retry; [apply Hz; exact Hk|congruence].
    + intros Hk. split; [apply Hnz; exact Hk|].
      intros regions2. apply mem_init_guarded. apply Hnz. exact Hk.
  - assert (Hord : out_of_order regions).
    { apply regions_grow_out_of_order; assumption. }
    rewrite (mem_init_unordered start_block s0 regions HF Hord) in E.
    injection E as <- <-.
    split; [|split].
    + split; auto.
    + intros _. split; [exact Heb|]. split; [exact Hcnt|].
      apply Retry; assumption.
    + intros Hk. contradiction.
Qed.

Lemma mem_init_retry_witness :
  exists s2,
    mem_init Scenario.start_block
             (fst (mem_init Scenario.start_block (pristine (fun _ => 0))
                            [mkRegion 4098 9]))
             Scenario.regions
    = (s2, regions_accepted Scenario.regions)
    /\ end_block s2 <> NULL.
Proof.
  destruct (mem_init_retry Scenario.start_block (pristine (fun _ => 0))
              (fst (mem_init Scenario.start_block (pristine (fun _ => 0))
                             [mkRegion 4098 9]))
              [mkRegion 4098 9] 0)
    as (_ & H & _).
  - reflexivity.
  - reflexivity.
  - repeat constructor; vm_compute; try discriminate; reflexivity.
  - vm_compute. reflexivity.
  - vm_compute. reflexivity.
  - destruct (H eq_refl) as (_ & _ & Hre). apply Hre.
    + repeat constructor; vm_compute; try discriminate; reflexivity.
    + vm_compute. reflexivity.
    + intros Ho.
      repeat match goal with
             | Ho : out_of_order _ |- _ => inversion Ho; clear Ho; subst
             end.
    + vm_compute. discriminate.
Defined.

(** C9.  [mem_realloc(NULL, 0)] returns [NULL] and changes nothing;
    [mem_realloc(NULL, n)], [n] not 0, is [mem_malloc(n)];
    [mem_realloc(p, 0)], [p] not null, is [mem_free(p)] and returns [NULL];
    for [p] not null and [n] not 0, when [mem_malloc(n)] returns [NULL]
    so does [mem_realloc], in the state [mem_malloc] left, which in a
    reachable state is the state of the call, so the block of [p] is
    untouched; and when [mem_malloc(n)] returns a block, the bytes at [p]
    are copied into it, as many as the smaller of [n] and the size stored
    in the header of [p], and only then is [p] freed. *)
Theorem mem_realloc_cases (start_block : Z) (fuel : nat) (s : state) :
  mem_realloc start_block fuel s NULL 0 = Some (s, NULL)
  /\ (forall n, n <> 0 ->
        mem_realloc start_block fuel s NULL n = mem_malloc start_block fuel s n)
  /\ (forall p, p <> NULL ->
        mem_realloc start_block fuel s p 0
        = option_map (fun s' => (s', NULL)) (mem_free start_block fuel s p))
  /\ (forall p n s', p <> NULL -> n <> 0 ->
        mem_malloc start_block fuel s n = Some (s', NULL) ->
        mem_realloc start_block fuel s p n = Some (s', NULL))
  /\ (forall p n s' P D,
        reachable start_block s P D -> In p P -> 0 < n < modulus ->
        mem_malloc start_block fuel s n = Some (s', NULL) ->
        mem_realloc start_block fuel s p n = Some (s, NULL))
  /\ (forall p n s1 q, p <> NULL -> n <> 0 ->
        mem_malloc start_block fuel s n = Some (s1, q) -> q <> NULL ->
        mem_realloc start_block fuel s p n
        = option_map (fun s2 => (s2, q))
            (mem_free start_block fuel
               (with_mem s1 (memcpy (mem s1) q p (Z.min (block_size s p) n)))
               p)).
Proof.
  assert (Fail : forall p n s', p <> NULL -> n <> 0 ->
            mem_malloc start_block fuel s n = Some (s', NULL) ->
            mem_realloc start_block fuel s p n = Some (s', NULL)).
  { intros p n s' Hp Hn E. unfold mem_realloc.
    destruct (Z.eqb_spec n 0); [contradiction|].
    destruct (Z.eqb_spec p NULL); [contradiction|].
    rewrite E. reflexivity. }
  split; [reflexivity|]. split; [|split; [|split; [|split]]].
  - intros n Hn. unfold mem_realloc.
    destruct (Z.eqb_spec n 0); [contradiction|reflexivity].
  - intros p Hp. unfold mem_realloc. cbn [Z.eqb].
    destruct (Z.eqb_spec p NULL); [contradiction|]. cbn [negb].
    destruct (mem_free start_block fuel s p); reflexivity.
  - exact Fail.
  - intros p n s' P D Hr Hin Hn E.
    destruct (reachable_heap_inv start_block s P D Hr) as (Al & HI & EP).
    subst P. destruct (in_payloads _ _ Hin) as (A1 & a & A2 & -> & <-).
    destruct (heap_inv_sizes start_block _ _ _ a HI) as (_ & Hpn & _);
      [apply in_or_app; right; left; reflexivity|].
    destruct (heap_inv_malloc start_block s s' _ D fuel n NULL HI
                ltac:(lia) E) as [[_ ->]|(b & _ & Hnn & _)]; [|congruence].
    apply Fail; [exact Hpn|lia|exact E].
  - intros p n s1 q Hp Hn E Hq. unfold mem_realloc.
    destruct (Z.eqb_spec n 0); [contradiction|].
    destruct (Z.eqb_spec p NULL); [contradiction|].
    rewrite E.
    destruct (Z.eqb_spec q NULL); [contradiction|]. cbn [negb].
    fold (block_of p). fold (block_size s p).
    replace (if block_size s p >? n then n else block_size s p)
      with (Z.min (block_size s p) n).
    + destruct (mem_free _ _ _ _); reflexivity.
    + destruct (Z.gtb_spec (block_size s p) n); lia.
Qed.

Lemma mem_realloc_cases_witness :
  mem_realloc Scenario.start_block 3 Scenario.taken (Scenario.X + 8) 1
  = Some (Scenario.taken, NULL).
Proof.
  apply (proj1 (proj2 (proj2 (proj2 (proj2
           (mem_realloc_cases Scenario.start_block 3 Scenario.taken)))))
           (Scenario.X + 8) 1 Scenario.taken [Scenario.X + 8] 8).
  - exact ScenarioFacts.taken_reachable.
  - left. reflexivity.
  - vm_compute. split; reflexivity.
  - vm_compute. reflexivity.
Defined.

(* ================================================================== *)
(** * Further properties of the allocator *)

(** ** What one call of mem_malloc does to a well-formed heap *)

Section Steps.

Variable start_block : Z.

(** [mem_malloc] writes only into the header of [start_block] and into the
    blocks of the free list. *)
Lemma mem_malloc_served_frame (lo : Z) (s s' : state) (Al P R : list node)
      (c sc sz p : Z) (fuel : nat) :
  heap_ok start_block lo s (P ++ (c, sc) :: R) Al ->
  0 < sz < 2 ^ 31 -> need sz < 2 ^ 31 ->
  Forall (fun x => snd x < need sz) P -> need sz <= sc ->
  (length (P ++ (c, sc) :: R) < fuel)%nat ->
  mem_malloc start_block fuel s sz = Some (s', p) ->
  forall y, y < start_block \/ start_block + 8 <= y ->
            Forall (fun x => y < fst x \/ fst x + foot x <= y)
                   (P ++ (c, sc) :: R) ->
            mem s' y = mem s y.
Proof.
  intros HOK Hsz Hnd HP Hfit Hfuel E.
  pose proof (need_bounds sz Hsz) as [_ H12].
  assert (HfP : (length P < fuel)%nat).
  { rewrite length_app in Hfuel. lia. }
  assert (HfPR : (length (P ++ R) < fuel)%nat).
  { rewrite length_app in *. cbn [length] in Hfuel. lia. }
  rewrite (mem_malloc_fit start_block lo s Al P R c sc sz fuel) in E
    by assumption.
  destruct (Z_le_gt_dec (sc - need sz) 16) as [Hs|Hs].
  - destruct (take_block_whole start_block lo s Al P R c sc (need sz) fuel HOK)
      as (s1 & E1 & _ & _ & _ & Hfr & _); [lia|lia|].
    rewrite E1 in E. injection E as <- _. exact Hfr.
  - destruct (take_block_split start_block lo s Al P R c sc (need sz) fuel HOK)
      as (s1 & E1 & _ & _ & _ & Hfr & _); [lia|lia|assumption|].
    rewrite E1 in E. injection E as <- _. exact Hfr.
Qed.

(** The two outcomes of [mem_malloc] on a well-formed heap. *)
Lemma mem_malloc_step (lo : Z) (s s' : state) (L Al : list node)
      (sz p : Z) (fuel : nat) :
  heap_ok start_block lo s L Al -> 0 <= sz < modulus ->
  mem_malloc start_block fuel s sz = Some (s', p) ->
  (p = NULL /\ s' = s
   /\ (sz = 0 \/ 2 ^ 31 <= sz \/ 2 ^ 31 <= need sz
       \/ Forall (fun x => snd x < need sz) L))
  \/ (exists P c sc R b L',
        L = P ++ (c, sc) :: R
        /\ Forall (fun x => snd x < need sz) P /\ need sz <= sc
        /\ 0 < sz < 2 ^ 31 /\ need sz < 2 ^ 31
        /\ p = c + 8
        /\ heap_ok start_block lo s' L' ((c, b) :: Al)
        /\ mem_available_bytes s' = wrap (mem_available_bytes s - need sz)
        /\ end_block s' = end_block s
        /\ sum_sizes L' = sum_sizes L - b
        /\ ((sc - need sz <= 16 /\ b = sc /\ L' = P ++ R)
            \/ (16 < sc - need sz /\ b = need sz
                /\ L' = coalesce (end_block s) (P ++ R)
                                 (c + need sz, sc - need sz)))
        /\ (forall y, y < start_block \/ start_block + 8 <= y ->
                      Forall (fun x => y < fst x \/ fst x + foot x <= y) L ->
                      mem s' y = mem s y)).
Proof.
  intros HOK Hsz E.
  pose proof (heap_bit _ _ _ _ _ HOK) as Hbit.
  pose proof modulus_eq as HM.
  assert (Refuse :
    (sz = 0 \/ 2 ^ 31 <= sz \/ 2 ^ 31 <= need sz
     \/ Forall (fun x => snd x < need sz) L) ->
    p = NULL /\ s' = s
    /\ (sz = 0 \/ 2 ^ 31 <= sz \/ 2 ^ 31 <= need sz
        \/ Forall (fun x => snd x < need sz) L)).
  { intros Hc.
    assert (Hc' : sz = 0 \/ Z.land sz (mem_alloc_bit s) <> 0
                  \/ Z.land (need sz) (mem_alloc_bit s) <> 0
                  \/ Forall (fun x => snd x < need sz) L).
    { pose proof (wrap_range (MEM_ALIGN sz + MEM_BLOCK_META_SIZE)) as Hnr.
      fold (need sz) in Hnr. rewrite Hbit.
      destruct Hc as [Hc|[Hc|[Hc|Hc]]]; auto.
      - right. left. rewrite land_bit by lia.
        destruct (Z.ltb_spec sz (2 ^ 31)); lia.
      - right. right. left. rewrite land_bit by lia.
        destruct (Z.ltb_spec (need sz) (2 ^ 31)); lia. }
    pose proof (mem_malloc_refused start_block lo s L Al sz (S (length L)) HOK
                  Hsz (Nat.lt_succ_diag_r _) Hc') as E'.
    pose proof (mem_malloc_det _ _ _ _ _ _ _ E E') as EE.
    inversion EE. auto. }
  destruct (Z.eq_dec sz 0) as [Hz|Hz]; [left; apply Refuse; auto|].
  destruct (Z_lt_ge_dec sz (2 ^ 31)) as [Hs|Hs];
    [|left; apply Refuse; right; left; lia].
  destruct (Z_lt_ge_dec (need sz) (2 ^ 31)) as [Hn|Hn];
    [|left; apply Refuse; right; right; left; lia].
  destruct (first_fit_split (need sz) L)
    as [HF|(P & c & sc & R & EL & HP & Hfit)].
  { left. apply Refuse. auto. }
  right. subst L.
  destruct (mem_malloc_served start_block lo s Al P R c sc sz
              (S (length (P ++ (c, sc) :: R))) HOK ltac:(lia) Hn HP Hfit
              (Nat.lt_succ_diag_r _))
    as (s1 & L' & b & E' & HOK' & Hav' & Heb & _ & Hsum & Hcase).
  pose proof (mem_malloc_det _ _ _ _ _ _ _ E E') as EE.
  inversion EE. subst s1 p. clear EE.
  exists P, c, sc, R, b, L'.
  repeat (split; [first [assumption | reflexivity | lia]|]).
  eapply mem_malloc_served_frame; try eassumption;
    first [lia | apply Nat.lt_succ_diag_r].
Qed.

(** Writing into the payload of an allocated block keeps the heap well
    formed. *)
Lemma heap_ok_write (lo : Z) (s : state) (L A1 A2 : list node) (a : node)
      (m' : memory) :
  heap_ok start_block lo s L (A1 ++ a :: A2) ->
  (forall y, y < payload a \/ fst a + snd a <= y -> m' y = mem s y) ->
  heap_ok start_block lo (with_mem s m') L (A1 ++ a :: A2).
Proof.
  intros HOK Hfr.
  pose proof (heap_list _ _ _ _ _ HOK) as LOK.
  pose proof (heap_alloc _ _ _ _ _ HOK) as HA.
  destruct (all_apart_mid _ _ _ (heap_apart _ _ _ _ _ HOK)) as [_ Hoth].
  destruct (Forall_remove_mid _ _ _ _ HA) as [Ha _].
  pose proof (allocated_size _ _ _ _ _ Ha) as H12.
  assert (Hch : Forall (apart a) (chain start_block L)).
  { destruct Ha as (_ & _ & _ & _ & _ & H). exact H. }
  assert (Hhdr : forall n, apart a n \/ n = a ->
                           forall y, fst n <= y < fst n + 8 -> m' y = mem s y).
  { intros n Hn y Hy. apply Hfr. unfold payload. rewrite META_eq.
    destruct Hn as [Hn| ->]; [|lia].
    revert Hn. unfold apart, foot. rewrite META_eq. lia. }
  constructor.
  - apply (list_ok_intro start_block lo s (with_mem s m') L L LOK).
    + reflexivity.
    + cbn [mem with_mem].
      apply (lseg_frame (mem s)); [|apply (chain_lseg _ _ _ _ LOK)].
      eapply Forall_impl; [|exact Hch]. intros n Hn. split.
      * apply load32_ext. intros y Hy. apply (Hhdr n); [auto|lia].
      * apply load32_ext. intros y Hy. apply (Hhdr n); [auto|lia].
    + exact (start_apart _ _ _ _ LOK).
    + exact (list_tail _ _ _ _ LOK).
    + exact (list_spaced _ _ _ _ LOK).
  - exact (heap_bit _ _ _ _ _ HOK).
  - rewrite Forall_forall in HA |- *. intros x Hx.
    apply (allocated_frame start_block lo s (with_mem s m') L L x (HA x Hx)).
    + reflexivity.
    + cbn [mem with_mem]. apply Hhdr.
      apply in_app_or in Hx. destruct Hx as [Hx|[Hx|Hx]].
      * left. apply apart_sym. rewrite Forall_forall in Hoth.
        apply Hoth. apply in_or_app. auto.
      * auto.
      * left. apply apart_sym. rewrite Forall_forall in Hoth.
        apply Hoth. apply in_or_app. auto.
    + destruct (HA x Hx) as (_ & _ & _ & _ & _ & H). exact H.
  - exact (heap_apart _ _ _ _ _ HOK).
  - exact (heap_total _ _ _ _ _ HOK).
Qed.

(** A reachable state, with its free list and its allocated blocks. *)
Lemma reachable_heap_ok (s : state) (P : list Z) (D : Z) :
  reachable start_block s P D ->
  exists lo L Al,
    heap_ok start_block lo s L Al /\ map payload Al = P
    /\ mem_available_bytes s = wrap (sum_sizes L + D) /\ 0 <= D.
Proof.
  intros Hr.
  destruct (reachable_heap_inv start_block s P D Hr)
    as (Al & (lo & L & HOK & Hav & HD) & EP).
  exists lo, L, Al. auto.
Qed.

(** The bytes of an allocated block, header included, are bytes that
    neither [mem_malloc] nor the insertion of a free block writes. *)
Lemma block_bytes_framed (lo : Z) (s : state) (L Al : list node) (a : node)
      (y : Z) :
  heap_ok start_block lo s L Al -> In a Al ->
  payload a - 8 <= y < payload a - 8 + snd a ->
  (y < start_block \/ start_block + 8 <= y)
  /\ Forall (fun x => y < fst x \/ fst x + foot x <= y) L.
Proof.
  intros HOK Ha Hy.
  destruct (alloc_facts start_block lo s L Al a HOK Ha) as (Hal & _).
  apply (allocated_untouched start_block lo s L a y Hal).
  unfold payload in Hy. rewrite META_eq in Hy. lia.
Qed.

End Steps.

(** ** More states of the scenario *)

Module ScenarioSteps.
Import Scenario.

Lemma small_eq : mem_malloc start_block 3 fresh 100 = Some (small, X + 8).
Proof. vm_compute. reflexivity. Qed.

Lemma small_reachable : reachable start_block small [X + 8] 0.
Proof.
  change 0 with (0 + (block_size small (X + 8) - need 100)) at 1.
  apply (reach_malloc start_block fresh small [] 0 3 100 (X + 8)).
  - exact ScenarioFacts.fresh_reachable.
  - vm_compute. split; [discriminate|reflexivity].
  - exact small_eq.
  - discriminate.
Qed.

Lemma small_list : free_list start_block small [(X + 108, 908); (X + 1016, 0)].
Proof.
  unfold free_list. cbn [lseg fst snd]. vm_compute. intuition discriminate.
Qed.

Lemma pair_eq : mem_malloc start_block 3 small 50 = Some (pair, X + 116).
Proof. vm_compute. reflexivity. Qed.

Lemma back_eq : mem_free start_block 3 small (X + 8) = Some back.
Proof. vm_compute. reflexivity. Qed.

Lemma pair_reachable : reachable start_block pair [X + 116; X + 8] 0.
Proof.
  change 0 with (0 + (block_size pair (X + 116) - need 50)) at 1.
  apply (reach_malloc start_block small pair [X + 8] 0 3 50 (X + 116)).
  - exact small_reachable.
  - vm_compute. split; [discriminate|reflexivity].
  - exact pair_eq.
  - discriminate.
Qed.

Lemma lone_eq : mem_free start_block 3 pair (X + 8) = Some lone.
Proof. vm_compute. reflexivity. Qed.

Lemma cleared_eq : mem_calloc start_block 3 fresh 5 20 = Some (cleared, X + 8).
Proof. vm_compute. reflexivity. Qed.

Lemma wrapped_eq :
  mem_calloc start_block 3 fresh 4 1073741849 = Some (wrapped, X + 8).
Proof. vm_compute. reflexivity. Qed.

Lemma moved_eq :
  mem_realloc start_block 3 small (X + 8) 200 = Some (moved, X + 116).
Proof.
  assert (H : option_map snd (mem_realloc start_block 3 small (X + 8) 200)
              = Some (X + 116)) by (vm_compute; reflexivity).
  unfold moved.
  destruct (mem_realloc start_block 3 small (X + 8) 200) as [[s q]|];
    cbn [option_map snd] in H; [|discriminate].
  injection H as ->. reflexivity.
Qed.

End ScenarioSteps.

(** ** The alignment macro, and the largest request *)

(** X1.  [MEM_ALIGN] rounds up to the next multiple of 4: the result is a
    multiple of 4, not below its argument and less than 4 above it, and an
    argument that is a multiple of 4 is returned as it is.  For the three
    largest values of a [size_t] the sum wraps and the result is 0. *)
Theorem MEM_ALIGN_rounds_up (x : Z) :
  0 <= x < modulus ->
  (x < modulus - 3 ->
   MEM_ALIGN x mod 4 = 0 /\ x <= MEM_ALIGN x < x + 4
   /\ (x mod 4 = 0 -> MEM_ALIGN x = x))
  /\ (modulus - 3 <= x -> MEM_ALIGN x = 0).
Proof.
  intros Hx. pose proof modulus_eq as HM. split.
  - intros Hlt. rewrite MEM_ALIGN_eq by lia.
    pose proof (Z.div_mod (x + 3) 4 ltac:(lia)) as Hd.
    pose proof (Z.mod_pos_bound (x + 3) 4 ltac:(lia)) as Hm.
    split; [rewrite Z.mul_comm; apply Z.mod_mul; lia|].
    split; [lia|].
    intros H4. pose proof (Z.div_mod x 4 ltac:(lia)) as Hdx.
    assert ((x + 3) / 4 = x / 4).
    { symmetry. apply Z.div_unique with (r := 3); lia. }
    lia.
  - intros Hge. unfold MEM_ALIGN. change MEM_ALIGN_BITS with 3 at 1.
    rewrite land_align_mask by apply wrap_range.
    assert (E : wrap (x + 3) = x + 3 - modulus).
    { unfold wrap. symmetry. apply Z.mod_unique with (q := 1); lia. }
    rewrite E. rewrite Z.div_small by lia. reflexivity.
Qed.

Lemma MEM_ALIGN_rounds_up_witness :
  (5 < modulus - 3 ->
   MEM_ALIGN 5 mod 4 = 0 /\ 5 <= MEM_ALIGN 5 < 5 + 4
   /\ (5 mod 4 = 0 -> MEM_ALIGN 5 = 5))
  /\ (modulus - 3 <= 5 -> MEM_ALIGN 5 = 0).
Proof.
  apply (MEM_ALIGN_rounds_up 5). vm_compute. split; [discriminate|reflexivity].
Defined.

(** X2.  Once the allocated bit is the top bit, [mem_malloc] refuses every
    request of [2^31 - 11] bytes or more, whatever the state of the heap and
    without looking at the free list: the state is unchanged and the result
    is [NULL]. *)
Theorem mem_malloc_size_limit (start_block : Z) (fuel : nat) (s : state)
        (sz : Z) :
  mem_alloc_bit s = 2 ^ 31 ->
  2 ^ 31 - 11 <= sz < modulus ->
  mem_malloc start_block fuel s sz = Some (s, NULL).
Proof.
  intros Hbit Hsz. pose proof modulus_eq as HM. unfold mem_malloc.
  fold (need sz). rewrite Hbit.
  destruct ((end_block s =? NULL) || (sz =? 0)
            || negb (Z.land sz (2 ^ 31) =? 0)) eqn:E1; [reflexivity|].
  apply orb_false_elim in E1. destruct E1 as [_ E3].
  apply negb_false_iff, Z.eqb_eq in E3.
  rewrite land_bit in E3 by lia.
  destruct (Z.ltb_spec sz (2 ^ 31)) as [Hlt|]; [|lia].
  pose proof (wrap_range (MEM_ALIGN sz + MEM_BLOCK_META_SIZE)) as Hnr.
  fold (need sz) in Hnr.
  rewrite land_bit by lia.
  assert (Hn : 2 ^ 31 <= need sz).
  { rewrite need_eq by lia.
    pose proof (Z.div_mod (sz + 3) 4 ltac:(lia)).
    pose proof (Z.mod_pos_bound (sz + 3) 4 ltac:(lia)). lia. }
  destruct (Z.ltb_spec (need sz) (2 ^ 31)); [lia|]. reflexivity.
Qed.

Lemma mem_malloc_size_limit_witness :
  mem_malloc Scenario.start_block 0 Scenario.fresh (2 ^ 31 - 11)
  = Some (Scenario.fresh, NULL).
Proof.
  apply (mem_malloc_size_limit Scenario.start_block 0 Scenario.fresh
                               (2 ^ 31 - 11)).
  - vm_compute. reflexivity.
  - vm_compute. split; [discriminate|reflexivity].
Defined.

(** ** What a caller gets from mem_malloc and mem_free *)

Lemma in_payload (Al : list node) (q : Z) :
  In q (map payload Al) -> exists a, In a Al /\ payload a = q.
Proof.
  intros H. apply in_map_iff in H. destruct H as (a & Ea & Ha).
  exists a. auto.
Qed.

(** X3.  A block handed out by [mem_malloc] in a reachable state has room
    for the request: its size is at least the size looked for, which is
    the request rounded up to a multiple of 4 plus the header, and at most
    [2 * H] more.  Its header carries the allocated bit and a null [next],
    as [mem_free] will require. *)
Theorem mem_malloc_block_size (start_block : Z) (s s' : state) (P : list Z)
        (D : Z) (fuel : nat) (sz p : Z) :
  reachable start_block s P D -> 0 <= sz < modulus ->
  mem_malloc start_block fuel s sz = Some (s', p) -> p <> NULL ->
  sz + MEM_BLOCK_META_SIZE <= need sz <= sz + MEM_BLOCK_META_SIZE + 3
  /\ need sz <= block_size s' p <= need sz + 2 * MEM_BLOCK_META_SIZE
  /\ Z.land (size_of (mem s') (block_of p)) (mem_alloc_bit s') <> 0
  /\ next_of (mem s') (block_of p) = NULL.
Proof.
  intros Hr Hsz E Hp.
  destruct (reachable_heap_ok start_block s P D Hr)
    as (lo & L & Al & HOK & _).
  destruct (mem_malloc_step start_block lo s s' L Al sz p fuel HOK Hsz E)
    as [(Hn & _)|(P0 & c & sc & R & b & L' & EL & HP & Hfit & Hs & Hnd & Ep
                  & HOK' & _ & _ & _ & Hcase & _)]; [contradiction|].
  destruct (alloc_facts start_block lo s' L' ((c, b) :: Al) (c, b) HOK'
              (or_introl eq_refl))
    as (Hal & Hb & _ & _ & Hbo & Hbs & _).
  unfold payload in Hbo, Hbs. cbn [fst snd] in *. rewrite META_eq in *.
  subst p. rewrite Hbs, Hbo.
  pose proof (need_bounds sz Hs) as [Hnb _].
  split; [lia|]. split; [destruct Hcase as [(?&?&?)|(?&?&?)]; lia|].
  destruct Hal as (_ & _ & _ & Hnx & Hsize & _). cbn [fst snd] in Hnx, Hsize.
  split; [|exact Hnx].
  rewrite Hsize, (heap_bit _ _ _ _ _ HOK'), land_bit_set by lia. lia.
Qed.

Lemma mem_malloc_block_size_witness :
  50 + MEM_BLOCK_META_SIZE <= need 50 <= 50 + MEM_BLOCK_META_SIZE + 3
  /\ need 50 <= block_size Scenario.pair (Scenario.X + 116)
     <= need 50 + 2 * MEM_BLOCK_META_SIZE
  /\ Z.land (size_of (mem Scenario.pair) (block_of (Scenario.X + 116)))
            (mem_alloc_bit Scenario.pair) <> 0
  /\ next_of (mem Scenario.pair) (block_of (Scenario.X + 116)) = NULL.
Proof.
  apply (mem_malloc_block_size Scenario.start_block Scenario.small
           Scenario.pair [Scenario.X + 8] 0 3 50 (Scenario.X + 116)).
  - exact ScenarioSteps.small_reachable.
  - vm_compute. split; [discriminate|reflexivity].
  - exact ScenarioSteps.pair_eq.
  - discriminate.
Defined.

(** X4.  A block handed out by [mem_malloc] in a reachable state is new:
    its pointer is not among the outstanding ones, and the block, header
    included, shares no byte with the block of any outstanding pointer. *)
Theorem mem_malloc_fresh (start_block : Z) (s s' : state) (P : list Z)
        (D : Z) (fuel : nat) (sz p : Z) :
  reachable start_block s P D -> 0 <= sz < modulus ->
  mem_malloc start_block fuel s sz = Some (s', p) -> p <> NULL ->
  ~ In p P
  /\ forall q, In q P ->
       block_of p + block_size s' p <= block_of q
       \/ block_of q + block_size s q <= block_of p.
Proof.
  intros Hr Hsz E Hp.
  destruct (reachable_heap_ok start_block s P D Hr)
    as (lo & L & Al & HOK & EP & _).
  destruct (mem_malloc_step start_block lo s s' L Al sz p fuel HOK Hsz E)
    as [(Hn & _)|(P0 & c & sc & R & b & L' & EL & HP & Hfit & Hs & Hnd & Ep
                  & HOK' & _)]; [contradiction|].
  destruct (alloc_facts start_block lo s' L' ((c, b) :: Al) (c, b) HOK'
              (or_introl eq_refl))
    as (_ & Hb & _ & _ & Hbo & Hbs & _).
  unfold payload in Hbo, Hbs. cbn [fst snd] in *. rewrite META_eq in *.
  subst p P.
  pose proof (payload_inj start_block lo s' L' _ HOK') as ND.
  cbn [map] in ND. unfold payload at 1 in ND. cbn [fst] in ND.
  rewrite META_eq in ND. apply NoDup_cons_iff in ND.
  split; [exact (proj1 ND)|].
  intros q Hq. destruct (in_payload _ _ Hq) as (a & Ha & <-).
  destruct (alloc_facts start_block lo s L Al a HOK Ha)
    as (_ & Hsa & _ & _ & Hbo' & Hbs' & _).
  rewrite Hbo, Hbs, Hbo', Hbs'.
  pose proof (heap_apart _ _ _ _ _ HOK') as HAp. cbn [all_apart] in HAp.
  destruct HAp as [HAp _]. rewrite Forall_forall in HAp.
  specialize (HAp a Ha). revert HAp.
  unfold apart, foot. rewrite META_eq. cbn [fst snd]. lia.
Qed.

Lemma mem_malloc_fresh_witness :
  ~ In (Scenario.X + 116) [Scenario.X + 8]
  /\ forall q, In q [Scenario.X + 8] ->
       block_of (Scenario.X + 116)
       + block_size Scenario.pair (Scenario.X + 116) <= block_of q
       \/ block_of q + block_size Scenario.small q
          <= block_of (Scenario.X + 116).
Proof.
  apply (mem_malloc_fresh Scenario.start_block Scenario.small
           Scenario.pair [Scenario.X + 8] 0 3 50 (Scenario.X + 116)).
  - exact ScenarioSteps.small_reachable.
  - vm_compute. split; [discriminate|reflexivity].
  - exact ScenarioSteps.pair_eq.
  - discriminate.
Defined.

(** X5.  [mem_malloc], whether it succeeds or not, leaves every outstanding
    allocation as it was: the size in its header and every byte of its
    block, header and payload. *)
Theorem mem_malloc_keeps_allocations (start_block : Z) (s s' : state)
        (P : list Z) (D : Z) (fuel : nat) (sz p : Z) :
  reachable start_block s P D -> 0 <= sz < modulus ->
  mem_malloc start_block fuel s sz = Some (s', p) ->
  forall q, In q P ->
    block_size s' q = block_size s q
    /\ forall y, block_of q <= y < block_of q + block_size s q ->
                 mem s' y = mem s y.
Proof.
  intros Hr Hsz E q Hq.
  destruct (reachable_heap_ok start_block s P D Hr)
    as (lo & L & Al & HOK & EP & _).
  subst P. destruct (in_payload _ _ Hq) as (a & Ha & <-).
  destruct (mem_malloc_step start_block lo s s' L Al sz p fuel HOK Hsz E)
    as [(_ & -> & _)|(P0 & c & sc & R & b & L' & EL & HP & Hfit & Hs & Hnd
                      & Ep & HOK' & _ & _ & _ & _ & Hfr)];
    [split; reflexivity|].
  destruct (alloc_facts start_block lo s L Al a HOK Ha)
    as (_ & _ & _ & _ & Hbo & Hbs & _).
  destruct (alloc_facts start_block lo s' L' ((c, b) :: Al) a HOK'
              (or_intror Ha)) as (_ & _ & _ & _ & _ & Hbs' & _).
  split; [congruence|].
  intros y Hy. rewrite Hbo, Hbs in Hy.
  destruct (block_bytes_framed start_block lo s L Al a y HOK Ha) as [H1 H2].
  { unfold payload. rewrite META_eq. lia. }
  apply Hfr; assumption.
Qed.

Lemma mem_malloc_keeps_allocations_witness :
  block_size Scenario.pair (Scenario.X + 8)
  = block_size Scenario.small (Scenario.X + 8)
  /\ forall y, block_of (Scenario.X + 8) <= y
               < block_of (Scenario.X + 8)
                 + block_size Scenario.small (Scenario.X + 8) ->
               mem Scenario.pair y = mem Scenario.small y.
Proof.
  apply (mem_malloc_keeps_allocations Scenario.start_block Scenario.small
           Scenario.pair [Scenario.X + 8] 0 3 50 (Scenario.X + 116)).
  - exact ScenarioSteps.small_reachable.
  - vm_compute. split; [discriminate|reflexivity].
  - exact ScenarioSteps.pair_eq.
  - left. reflexivity.
Defined.

(** X6.  [mem_free] of an outstanding pointer leaves every other
    outstanding allocation as it was, header and payload, and writes
    nothing into the payload of the block it frees. *)
Theorem mem_free_keeps_allocations (start_block : Z) (s s' : state)
        (P : list Z) (D : Z) (fuel : nat) (p : Z) :
  reachable start_block s P D -> In p P ->
  mem_free start_block fuel s p = Some s' ->
  (forall q, In q P -> q <> p ->
     block_size s' q = block_size s q
     /\ forall y, block_of q <= y < block_of q + block_size s q ->
                  mem s' y = mem s y)
  /\ (forall y, p <= y < block_of p + block_size s p -> mem s' y = mem s y).
Proof.
  intros Hr Hp E.
  destruct (reachable_heap_ok start_block s P D Hr)
    as (lo & L & Al & HOK & EP & _).
  subst P. destruct (in_payloads _ _ Hp) as (A1 & a & A2 & -> & <-).
  destruct (mem_free_ok start_block lo s L A1 A2 a (S (length L)) HOK
              (Nat.lt_succ_diag_r _))
    as (s1 & E1 & _ & _ & _ & Hfr & HOK' & _).
  assert (Ea : payload a = fst a + 8) by (unfold payload; rewrite META_eq; lia).
  rewrite Ea in E.
  pose proof (mem_free_det _ _ _ _ _ _ _ E E1). subst s1.
  assert (Hina : In a (A1 ++ a :: A2)) by (apply in_or_app; right; left; reflexivity).
  destruct (alloc_facts start_block lo s L _ a HOK Hina)
    as (_ & Hsa & _ & _ & Hbo & Hbs & _).
  destruct (all_apart_mid _ _ _ (heap_apart _ _ _ _ _ HOK)) as [_ Hoth].
  split.
  - intros q Hq Hne. destruct (in_payload _ _ Hq) as (a' & Ha' & <-).
    assert (Ha'' : In a' (A1 ++ A2)).
    { apply in_app_or in Ha'. apply in_or_app.
      destruct Ha' as [H|[H|H]]; auto. subst a'. contradiction. }
    destruct (alloc_facts start_block lo s L _ a' HOK Ha')
      as (_ & Hsa' & _ & _ & Hbo' & Hbs' & _).
    destruct (alloc_facts start_block lo s' _ _ a' HOK' Ha'')
      as (_ & _ & _ & _ & _ & Hbs'' & _).
    split; [congruence|].
    intros y Hy. rewrite Hbo', Hbs' in Hy.
    destruct (block_bytes_framed start_block lo s L _ a' y HOK Ha') as [H1 H2].
    { unfold payload. rewrite META_eq. lia. }
    apply Hfr; try assumption.
    rewrite Forall_forall in Hoth. specialize (Hoth a' Ha''). revert Hoth.
    unfold apart, foot. rewrite META_eq. lia.
  - intros y Hy. rewrite Hbo, Hbs, Ea in Hy.
    destruct (block_bytes_framed start_block lo s L _ a y HOK Hina) as [H1 H2].
    { rewrite Ea. lia. }
    apply Hfr; try assumption. lia.
Qed.

Lemma mem_free_keeps_allocations_witness :
  (forall q, In q [Scenario.X + 116; Scenario.X + 8] -> q <> Scenario.X + 8 ->
     block_size Scenario.lone q = block_size Scenario.pair q
     /\ forall y, block_of q <= y < block_of q + block_size Scenario.pair q ->
                  mem Scenario.lone y = mem Scenario.pair y)
  /\ (forall y, Scenario.X + 8 <= y
                < block_of (Scenario.X + 8)
                  + block_size Scenario.pair (Scenario.X + 8) ->
                mem Scenario.lone y = mem Scenario.pair y).
Proof.
  apply (mem_free_keeps_allocations Scenario.start_block Scenario.pair
           Scenario.lone [Scenario.X + 116; Scenario.X + 8] 0 3
           (Scenario.X + 8)).
  - exact ScenarioSteps.pair_reachable.
  - right. left. reflexivity.
  - exact ScenarioSteps.lone_eq.
Defined.

(** ** mem_calloc and mem_realloc *)

Lemma memcpy_inside (m : memory) (dst src n y : Z) :
  dst <= y < dst + n -> memcpy m dst src n y = m (src + (y - dst)).
Proof.
  intros H. unfold memcpy.
  destruct (Z.leb_spec dst y); destruct (Z.ltb_spec y (dst + n)); cbn;
    lia || reflexivity.
Qed.

Lemma memset_inside (m : memory) (dst c n y : Z) :
  dst <= y < dst + n -> memset m dst c n y = c mod 256.
Proof.
  intros H. unfold memset.
  destruct (Z.leb_spec dst y); destruct (Z.ltb_spec y (dst + n)); cbn;
    lia || reflexivity.
Qed.

(** The state [mem_calloc] returns, from the one its [mem_malloc] left. *)
Lemma mem_calloc_inv (start_block : Z) (fuel : nat) (s s' : state)
      (nitems sz p : Z) :
  mem_calloc start_block fuel s nitems sz = Some (s', p) -> p <> NULL ->
  exists s1,
    mem_malloc start_block fuel s (wrap (sz * nitems)) = Some (s1, p)
    /\ s' = with_mem s1 (memset (mem s1) p 0 (wrap (sz * nitems))).
Proof.
  intros E Hp. unfold mem_calloc in E.
  destruct (mem_malloc start_block fuel s (wrap (sz * nitems)))
    as [[s1 p1]|]; [|discriminate].
  destruct (Z.eqb_spec p1 NULL) as [Hz|Hz]; cbn [negb] in E;
    injection E as Es Ep1; subst s' p1; [contradiction|].
  exists s1. split; reflexivity.
Qed.

(** X7.  A successful [mem_calloc] in a reachable state returns a block
    with room for [nitems * size] bytes (the product taken as a [size_t])
    whose first [nitems * size] payload bytes are 0, and leaves every
    outstanding allocation as it was, header and payload. *)
Theorem mem_calloc_zeroes (start_block : Z) (s s' : state) (P : list Z)
        (D : Z) (fuel : nat) (nitems sz p : Z) :
  reachable start_block s P D ->
  mem_calloc start_block fuel s nitems sz = Some (s', p) -> p <> NULL ->
  wrap (sz * nitems) + MEM_BLOCK_META_SIZE <= block_size s' p
  /\ (forall i, 0 <= i < wrap (sz * nitems) -> load8 (mem s') (p + i) = 0)
  /\ (forall q, In q P ->
        block_size s' q = block_size s q
        /\ forall y, block_of q <= y < block_of q + block_size s q ->
                     mem s' y = mem s y).
Proof.
  intros Hr E Hp.
  destruct (mem_calloc_inv start_block fuel s s' nitems sz p E Hp)
    as (s1 & EM & ->).
  set (w := wrap (sz * nitems)) in *.
  pose proof (wrap_range (sz * nitems)) as Hw. fold w in Hw.
  destruct (reachable_heap_ok start_block s P D Hr)
    as (lo & L & Al & HOK & EP & _).
  destruct (mem_malloc_step start_block lo s s1 L Al w p fuel HOK Hw EM)
    as [(Hn & _)|(P0 & c & sc & R & b & L' & EL & HP & Hfit & Hs & Hnd & Ep
                  & HOK1 & _ & _ & _ & Hcase & Hfr)]; [contradiction|].
  pose proof (need_bounds w Hs) as [Hnb _].
  assert (Hb : need w <= b) by (destruct Hcase as [(?&?&?)|(?&?&?)]; lia).
  assert (HOK2 : heap_ok start_block lo
                   (with_mem s1 (memset (mem s1) p 0 w)) L'
                   ([] ++ (c, b) :: Al)).
  { apply heap_ok_write; [exact HOK1|].
    intros y Hy. apply memset_outside. subst p. unfold payload in Hy.
    rewrite META_eq in Hy. cbn [fst snd] in Hy. lia. }
  cbn [app] in HOK2.
  destruct (alloc_facts start_block lo _ L' _ (c, b) HOK2 (or_introl eq_refl))
    as (_ & _ & _ & _ & Hbo & Hbs & _).
  unfold payload in Hbo, Hbs. cbn [fst snd] in Hbo, Hbs.
  rewrite META_eq in *. subst p.
  split; [rewrite Hbs; lia|]. split.
  - intros i Hi. unfold load8. cbn [mem with_mem].
    rewrite memset_inside by lia. reflexivity.
  - intros q Hq. subst P. destruct (in_payload _ _ Hq) as (a & Ha & <-).
    destruct (alloc_facts start_block lo s L Al a HOK Ha)
      as (_ & Hsa & _ & _ & Hbo' & Hbs' & _).
    destruct (alloc_facts start_block lo _ L' _ a HOK2 (or_intror Ha))
      as (_ & _ & _ & _ & _ & Hbs'' & _).
    split; [congruence|].
    intros y Hy. rewrite Hbo', Hbs' in Hy. cbn [mem with_mem].
    destruct (block_bytes_framed start_block lo s L Al a y HOK Ha) as [H1 H2].
    { unfold payload. rewrite META_eq. lia. }
    rewrite memset_outside; [apply Hfr; assumption|].
    pose proof (heap_apart _ _ _ _ _ HOK1) as HAp. cbn [all_apart] in HAp.
    destruct HAp as [HAp _]. rewrite Forall_forall in HAp.
    specialize (HAp a Ha). revert HAp.
    unfold apart, foot. rewrite META_eq. cbn [fst snd]. lia.
Qed.

Lemma mem_calloc_zeroes_witness :
  wrap (20 * 5) + MEM_BLOCK_META_SIZE
  <= block_size Scenario.cleared (Scenario.X + 8)
  /\ (forall i, 0 <= i < wrap (20 * 5) ->
        load8 (mem Scenario.cleared) (Scenario.X + 8 + i) = 0)
  /\ (forall q, In q [] ->
        block_size Scenario.cleared q = block_size Scenario.fresh q
        /\ forall y, block_of q <= y
                     < block_of q + block_size Scenario.fresh q ->
                     mem Scenario.cleared y = mem Scenario.fresh y).
Proof.
  apply (mem_calloc_zeroes Scenario.start_block Scenario.fresh
           Scenario.cleared [] 0 3 5 20 (Scenario.X + 8)).
  - exact ScenarioFacts.fresh_reachable.
  - exact ScenarioSteps.cleared_eq.
  - discriminate.
Defined.

(** X8.  [mem_calloc] does not check the product [nitems * size]: when it
    does not fit a [size_t], the block is sized for the product reduced
    modulo [2^32], and a successful call returns a block smaller than
    [nitems * size] bytes. *)
Theorem mem_calloc_product_wraps (start_block : Z) (s s' : state)
        (P : list Z) (D : Z) (fuel : nat) (nitems sz p : Z) :
  reachable start_block s P D ->
  modulus <= sz * nitems ->
  mem_calloc start_block fuel s nitems sz = Some (s', p) -> p <> NULL ->
  block_size s' p
  <= need (wrap (sz * nitems)) + 2 * MEM_BLOCK_META_SIZE
  /\ need (wrap (sz * nitems))
     <= wrap (sz * nitems) + MEM_BLOCK_META_SIZE + 3
  /\ block_size s' p < sz * nitems.
Proof.
  intros Hr Hov E Hp.
  destruct (mem_calloc_inv start_block fuel s s' nitems sz p E Hp)
    as (s1 & EM & ->).
  set (w := wrap (sz * nitems)) in *.
  pose proof (wrap_range (sz * nitems)) as Hw. fold w in Hw.
  destruct (reachable_heap_ok start_block s P D Hr)
    as (lo & L & Al & HOK & EP & _).
  destruct (mem_malloc_step start_block lo s s1 L Al w p fuel HOK Hw EM)
    as [(Hn & _)|(P0 & c & sc & R & b & L' & EL & HP & Hfit & Hs & Hnd & Ep
                  & HOK1 & _ & _ & _ & Hcase & Hfr)]; [contradiction|].
  pose proof (need_bounds w Hs) as [Hnb _].
  destruct (alloc_facts start_block lo s1 L' _ (c, b) HOK1 (or_introl eq_refl))
    as (Hal & Hb & _ & _ & Hbo & Hbs & _).
  unfold payload in Hbo, Hbs. cbn [fst snd] in Hbo, Hbs, Hb.
  rewrite META_eq in *. subst p.
  assert (Ebs : block_size (with_mem s1 (memset (mem s1) (c + 8) 0 w)) (c + 8)
                = b).
  { unfold block_size. cbn [mem mem_alloc_bit with_mem]. rewrite Hbo.
    unfold size_of. rewrite (load32_ext (mem s1)).
    - unfold block_size in Hbs. rewrite Hbo in Hbs. exact Hbs.
    - intros x Hx. apply memset_outside. lia. }
  rewrite Ebs. pose proof modulus_eq.
  split; [destruct Hcase as [(?&?&?)|(?&?&?)]; lia|]. split; lia.
Qed.

Lemma mem_calloc_product_wraps_witness :
  block_size Scenario.wrapped (Scenario.X + 8)
  <= need (wrap (1073741849 * 4)) + 2 * MEM_BLOCK_META_SIZE
  /\ need (wrap (1073741849 * 4))
     <= wrap (1073741849 * 4) + MEM_BLOCK_META_SIZE + 3
  /\ block_size Scenario.wrapped (Scenario.X + 8) < 1073741849 * 4.
Proof.
  apply (mem_calloc_product_wraps Scenario.start_block Scenario.fresh
           Scenario.wrapped [] 0 3 4 1073741849 (Scenario.X + 8)).
  - exact ScenarioFacts.fresh_reachable.
  - vm_compute. discriminate.
  - exact ScenarioSteps.wrapped_eq.
  - discriminate.
Defined.

(** The states a successful [mem_realloc] of a non-null pointer goes
    through. *)
Lemma mem_realloc_inv (start_block : Z) (fuel : nat) (s s' : state)
      (p n q : Z) :
  p <> NULL -> n <> 0 ->
  mem_realloc start_block fuel s p n = Some (s', q) -> q <> NULL ->
  exists s1,
    mem_malloc start_block fuel s n = Some (s1, q)
    /\ mem_free start_block fuel
         (with_mem s1 (memcpy (mem s1) q p (Z.min (block_size s p) n))) p
       = Some s'.
Proof.
  intros Hp Hn E Hq. unfold mem_realloc in E.
  destruct (Z.eqb_spec n 0); [contradiction|].
  destruct (Z.eqb_spec p NULL); [contradiction|].
  destruct (mem_malloc start_block fuel s n) as [[s1 q1]|]; [|discriminate].
  destruct (Z.eqb_spec q1 NULL) as [Hz|Hz]; cbn [negb] in E.
  { injection E as _ <-. contradiction. }
  fold (block_of p) in E. fold (block_size s p) in E.
  replace (if block_size s p >? n then n else block_size s p)
    with (Z.min (block_size s p) n) in E
    by (destruct (Z.gtb_spec (block_size s p) n); lia).
  destruct (mem_free _ _ _ _) as [s2|] eqn:EF; [|discriminate].
  injection E as <- <-. exists s1. split; [reflexivity|exact EF].
Qed.

(** X9.  A successful [mem_realloc] of an outstanding pointer [p] to [n]
    bytes returns a different pointer [q] to a block with room for [n]
    bytes; the first [min(n, old payload size)] bytes at [q] are the bytes
    that were at [p]; and every other outstanding allocation is as it was,
    header and payload. *)
Theorem mem_realloc_moves_payload (start_block : Z) (s s' : state)
        (P : list Z) (D : Z) (fuel : nat) (p n q : Z) :
  reachable start_block s P D -> In p P -> 0 < n < modulus ->
  mem_realloc start_block fuel s p n = Some (s', q) -> q <> NULL ->
  q <> p
  /\ n + MEM_BLOCK_META_SIZE <= block_size s' q
  /\ (forall i, 0 <= i < Z.min n (block_size s p - MEM_BLOCK_META_SIZE) ->
        mem s' (q + i) = mem s (p + i))
  /\ (forall r, In r P -> r <> p ->
        block_size s' r = block_size s r
        /\ forall y, block_of r <= y < block_of r + block_size s r ->
                     mem s' y = mem s y).
Proof.
  intros Hr Hin Hn E Hq.
  destruct (reachable_heap_ok start_block s P D Hr)
    as (lo & L & Al & HOK & EP & _).
  subst P. destruct (in_payloads _ _ Hin) as (A1 & a & A2 & -> & <-).
  assert (Hina : In a (A1 ++ a :: A2))
    by (apply in_or_app; right; left; reflexivity).
  destruct (alloc_facts start_block lo s L _ a HOK Hina)
    as (_ & Hsa & _ & _ & Hbo & Hbs & Hpn).
  destruct (mem_realloc_inv start_block fuel s s' (payload a) n q Hpn
              ltac:(lia) E Hq) as (s1 & EM & EF).
  rewrite Hbs in EF. set (k := Z.min (snd a) n) in *.
  destruct (mem_malloc_step start_block lo s s1 L _ n q fuel HOK
              ltac:(lia) EM)
    as [(Hz & _)|(P0 & c & sc & R & b & L' & EL & HP & Hfit & Hs & Hnd & Eq
                  & HOK1 & _ & _ & _ & Hcase & Hfr)]; [contradiction|].
  pose proof (need_bounds n Hs) as [Hnb _].
  assert (Hb : need n <= b) by (destruct Hcase as [(?&?&?)|(?&?&?)]; lia).
  set (m2 := memcpy (mem s1) q (payload a) k) in *.
  assert (HOK2 : heap_ok start_block lo (with_mem s1 m2) L'
                         ([] ++ (c, b) :: A1 ++ a :: A2)).
  { apply heap_ok_write; [exact HOK1|].
    intros y Hy. apply memcpy_outside. subst q k. unfold payload in Hy.
    rewrite META_eq in Hy. cbn [fst snd] in Hy. lia. }
  cbn [app] in HOK2.
  destruct (mem_free_ok start_block lo (with_mem s1 m2) L' ((c, b) :: A1) A2 a
              (S (length L')) HOK2 (Nat.lt_succ_diag_r _))
    as (s3 & E3 & _ & _ & _ & Hfr3 & HOK3 & _).
  assert (Ea : payload a = fst a + 8) by (unfold payload; rewrite META_eq; lia).
  rewrite Ea in EF.
  pose proof (mem_free_det _ _ _ _ _ _ _ EF E3). subst s3.
  cbn [app] in HOK3.
  (* the new block and the blocks that stay *)
  pose proof (heap_apart _ _ _ _ _ HOK1) as HAp. cbn [all_apart] in HAp.
  destruct HAp as [HAp HAp']. rewrite Forall_forall in HAp.
  destruct (all_apart_mid _ _ _ HAp') as [_ Hoth].
  rewrite Forall_forall in Hoth.
  assert (Hca : apart (c, b) a) by (apply HAp; exact Hina).
  destruct (alloc_facts start_block lo s' _ _ (c, b) HOK3 (or_introl eq_refl))
    as (_ & Hbb & _ & _ & _ & Hbsq & _).
  unfold payload in Hbsq. cbn [fst snd] in Hbsq, Hbb. rewrite META_eq in *.
  (* bytes of a block that is allocated before and after *)
  assert (Keep : forall x, In x (A1 ++ a :: A2) ->
            forall y, fst x <= y < fst x + snd x ->
                      mem (with_mem s1 m2) y = mem s y).
  { intros x Hx y Hy. cbn [mem with_mem]. unfold m2.
    destruct (block_bytes_framed start_block lo s L _ x y HOK Hx) as [H1 H2].
    { unfold payload. rewrite META_eq. lia. }
    rewrite memcpy_outside; [apply Hfr; assumption|].
    specialize (HAp x Hx). revert HAp. subst q k.
    unfold apart, foot. rewrite META_eq. cbn [fst snd]. lia. }
  assert (Free3 : forall x, In x ((c, b) :: A1 ++ A2) ->
            forall y, fst x <= y < fst x + snd x ->
                      mem s' y = mem (with_mem s1 m2) y).
  { intros x Hx y Hy.
    assert (Hx2 : In x ((c, b) :: A1 ++ a :: A2)).
    { destruct Hx as [Hx|Hx]; [left; exact Hx|right].
      apply in_app_or in Hx. apply in_or_app.
      destruct Hx; [left|right; right]; assumption. }
    destruct (block_bytes_framed start_block lo (with_mem s1 m2) L' _ x y
                HOK2 Hx2) as [H1 H2].
    { unfold payload. rewrite META_eq. lia. }
    apply Hfr3; try assumption.
    assert (Hxa : apart x a).
    { destruct Hx as [<-|Hx]; [exact Hca|]. apply Hoth. exact Hx. }
    revert Hxa. unfold apart, foot. rewrite META_eq. lia. }
  subst q. rewrite Hbsq, Hbs, Ea.
  split.
  { revert Hca. unfold apart, foot. rewrite META_eq. cbn [fst snd]. lia. }
  split; [lia|]. split.
  - intros i Hi.
    rewrite (Free3 (c, b) (or_introl eq_refl)) by (cbn [fst snd]; lia).
    cbn [mem with_mem]. unfold m2.
    rewrite memcpy_inside by (unfold k; lia).
    replace (payload a + (c + 8 + i - (c + 8))) with (fst a + 8 + i)
      by (rewrite Ea; lia).
    destruct (block_bytes_framed start_block lo s L _ a (fst a + 8 + i)
                HOK Hina) as [H1 H2].
    { rewrite Ea. lia. }
    apply Hfr; assumption.
  - intros r Hr' Hne. destruct (in_payload _ _ Hr') as (x & Hx & <-).
    assert (Hx' : In x (A1 ++ A2)).
    { apply in_app_or in Hx. apply in_or_app.
      destruct Hx as [H|[H|H]]; auto. subst x. contradiction. }
    destruct (alloc_facts start_block lo s L _ x HOK Hx)
      as (_ & Hsx & _ & _ & Hbox & Hbsx & _).
    destruct (alloc_facts start_block lo s' _ _ x HOK3 (or_intror Hx'))
      as (_ & _ & _ & _ & _ & Hbsx' & _).
    split; [congruence|].
    intros y Hy. rewrite Hbox, Hbsx in Hy.
    rewrite (Free3 x (or_intror Hx')) by lia.
    apply (Keep x Hx y). lia.
Qed.

Lemma mem_realloc_moves_payload_witness :
  Scenario.X + 116 <> Scenario.X + 8
  /\ 200 + MEM_BLOCK_META_SIZE
     <= block_size Scenario.moved (Scenario.X + 116)
  /\ (forall i, 0 <= i < Z.min 200 (block_size Scenario.small (Scenario.X + 8)
                                    - MEM_BLOCK_META_SIZE) ->
        mem Scenario.moved (Scenario.X + 116 + i)
        = mem Scenario.small (Scenario.X + 8 + i))
  /\ (forall r, In r [Scenario.X + 8] -> r <> Scenario.X + 8 ->
        block_size Scenario.moved r = block_size Scenario.small r
        /\ forall y, block_of r <= y
                     < block_of r + block_size Scenario.small r ->
                     mem Scenario.moved y = mem Scenario.small y).
Proof.
  apply (mem_realloc_moves_payload Scenario.start_block Scenario.small
           Scenario.moved [Scenario.X + 8] 0 3 (Scenario.X + 8) 200
           (Scenario.X + 116)).
  - exact ScenarioSteps.small_reachable.
  - left. reflexivity.
  - vm_compute. split; reflexivity.
  - exact ScenarioSteps.moved_eq.
  - discriminate.
Defined.

(** ** Accounting, first fit and reuse *)

Section Accounting.

Variable start_block : Z.

(** [mem_malloc] returns when it is given more loop tests than the free
    list has blocks. *)
Lemma mem_malloc_returns (lo : Z) (s : state) (L Al : list node) (sz : Z)
      (fuel : nat) :
  heap_ok start_block lo s L Al -> 0 <= sz < modulus ->
  (length L < fuel)%nat ->
  exists s' p, mem_malloc start_block fuel s sz = Some (s', p).
Proof.
  intros HOK Hsz Hfuel.
  pose proof (heap_bit _ _ _ _ _ HOK) as Hbit.
  pose proof modulus_eq as HM.
  assert (Refuse :
    (sz = 0 \/ Z.land sz (mem_alloc_bit s) <> 0
     \/ Z.land (need sz) (mem_alloc_bit s) <> 0
     \/ Forall (fun x => snd x < need sz) L) ->
    exists s' p, mem_malloc start_block fuel s sz = Some (s', p)).
  { intros Hc. exists s, NULL. eapply mem_malloc_refused; eassumption. }
  destruct (Z.eq_dec sz 0) as [Hz|Hz]; [apply Refuse; auto|].
  destruct (Z_lt_ge_dec sz (2 ^ 31)) as [Hs|Hs].
  2:{ apply Refuse. right. left. rewrite Hbit, land_bit by lia.
      destruct (Z.ltb_spec sz (2 ^ 31)); lia. }
  pose proof (wrap_range (MEM_ALIGN sz + MEM_BLOCK_META_SIZE)) as Hnr.
  fold (need sz) in Hnr.
  destruct (Z_lt_ge_dec (need sz) (2 ^ 31)) as [Hn|Hn].
  2:{ apply Refuse. right. right. left. rewrite Hbit, land_bit by lia.
      destruct (Z.ltb_spec (need sz) (2 ^ 31)); lia. }
  destruct (first_fit_split (need sz) L)
    as [HF|(P0 & c & sc & R & EL & HP & Hfit)]; [apply Refuse; auto|].
  subst L.
  destruct (mem_malloc_served start_block lo s Al P0 R c sc sz fuel HOK
              ltac:(lia) Hn HP Hfit Hfuel) as (s1 & L' & b & E' & _).
  exists s1, (c + 8). exact E'.
Qed.

(** The free list of a well-formed heap is the list of the invariant. *)
Lemma free_list_unique (lo : Z) (s : state) (L L' Al : list node) :
  heap_ok start_block lo s L Al -> free_list start_block s L' -> L' = L.
Proof.
  intros HOK HL. eapply lseg_unique; [exact HL|].
  exact (list_links _ _ _ _ (heap_list _ _ _ _ _ HOK)).
Qed.

(** The blocks behind the first fit lie above it. *)
Lemma fit_before_rest (lo : Z) (s : state) (P R : list node) (c sc : Z) :
  list_ok start_block lo s (P ++ (c, sc) :: R) ->
  Forall (fun x => c < fst x) R.
Proof.
  intros LOK. pose proof (list_spaced _ _ _ _ LOK) as Hsp.
  apply spaced_app in Hsp. destruct Hsp as (mid & _ & Hsp).
  cbn [spaced fst snd] in Hsp. destruct Hsp as (_ & _ & Hsp).
  eapply Forall_impl; [|exact (spaced_all _ _ _ Hsp)].
  intros x Hx. cbn beta in Hx. pose proof (foot_ge (c, sc)). lia.
Qed.

End Accounting.

(** The coalescing insertion leaves a block at least as large as the one
    inserted. *)
Lemma coalesce_holds (eb : Z) (L : list node) (n : node) :
  Forall (fun x => 0 <= snd x) L ->
  exists x, In x (coalesce eb L n) /\ snd n <= snd x.
Proof.
  intros HL. unfold coalesce.
  set (P := filter (below (fst n)) L).
  set (Q := filter (fun c => negb (below (fst n) c)) L).
  assert (HP : Forall (fun x => 0 <= snd x) P).
  { rewrite Forall_forall in HL |- *. intros x Hx.
    apply filter_In in Hx. apply HL, Hx. }
  assert (HQ : Forall (fun x => 0 <= snd x) Q).
  { rewrite Forall_forall in HL |- *. intros x Hx.
    apply filter_In in Hx. apply HL, Hx. }
  clearbody P Q.
  assert (Hl : snd n <= snd (snd (absorb_left P n))).
  { destruct (snoc_case P) as [->|(P' & k & ->)]; [cbn; lia|].
    rewrite absorb_left_snoc.
    apply Forall_app in HP. destruct HP as [_ HP].
    apply Forall_inv in HP. cbn beta in HP.
    destruct (fst k + snd k =? fst n); cbn [fst snd]; lia. }
  destruct (absorb_left P n) as [P' n']. cbn [snd] in Hl.
  assert (Hr : exists x, In x (absorb_right eb n' Q) /\ snd n' <= snd x).
  { unfold absorb_right. destruct Q as [|b Q].
    - exists n'. split; [left; reflexivity|lia].
    - apply Forall_inv in HQ. cbn beta in HQ.
      destruct ((fst n' + snd n' =? fst b) && negb (fst b =? eb)).
      + exists (fst n', snd n' + snd b). split; [left; reflexivity|].
        cbn [snd]. lia.
      + exists n'. split; [left; reflexivity|lia]. }
  destruct Hr as (x & Hx & Hsx). exists x. split; [|lia].
  apply in_or_app. right. exact Hx.
Qed.

(** X10.  The bytes on the free list are accounted for block by block: a
    successful [mem_malloc] takes from the total of the sizes on the free
    list exactly the size of the block it hands out, and [mem_free] of an
    outstanding pointer returns exactly the size of its block. *)
Theorem free_list_accounting (start_block : Z) (s : state) (P : list Z)
        (D : Z) (L : list node) :
  reachable start_block s P D -> free_list start_block s L ->
  (forall fuel sz s' p L',
     0 <= sz < modulus ->
     mem_malloc start_block fuel s sz = Some (s', p) -> p <> NULL ->
     free_list start_block s' L' ->
     sum_sizes L' = sum_sizes L - block_size s' p)
  /\ (forall fuel p s' L',
        In p P -> mem_free start_block fuel s p = Some s' ->
        free_list start_block s' L' ->
        sum_sizes L' = sum_sizes L + block_size s p).
Proof.
  intros Hr HL.
  destruct (reachable_heap_ok start_block s P D Hr)
    as (lo & L0 & Al & HOK & EP & _).
  pose proof (free_list_unique start_block lo s L0 L Al HOK HL). subst L0.
  split.
  - intros fuel sz s' p L' Hsz E Hp HL'.
    destruct (mem_malloc_step start_block lo s s' L Al sz p fuel HOK Hsz E)
      as [(Hn & _)|(P0 & c & sc & R & b & L1 & EL & _ & _ & _ & _ & Ep
                    & HOK' & _ & _ & Hsum & _)]; [contradiction|].
    pose proof (free_list_unique start_block lo s' L1 L' _ HOK' HL').
    subst L'.
    destruct (alloc_facts start_block lo s' L1 _ (c, b) HOK'
                (or_introl eq_refl)) as (_ & _ & _ & _ & _ & Hbs & _).
    unfold payload in Hbs. cbn [fst snd] in Hbs. rewrite META_eq in Hbs.
    subst p. rewrite Hbs. exact Hsum.
  - intros fuel p s' L' Hin E HL'. subst P.
    destruct (in_payloads _ _ Hin) as (A1 & a & A2 & -> & <-).
    destruct (mem_free_ok start_block lo s L A1 A2 a (S (length L)) HOK
                (Nat.lt_succ_diag_r _))
      as (s1 & E1 & _ & _ & _ & _ & HOK' & _ & Hsum).
    assert (Ea : payload a = fst a + 8)
      by (unfold payload; rewrite META_eq; lia).
    rewrite Ea in E.
    pose proof (mem_free_det _ _ _ _ _ _ _ E E1). subst s1.
    pose proof (free_list_unique start_block lo s' _ L' _ HOK' HL').
    subst L'.
    destruct (alloc_facts start_block lo s L _ a HOK)
      as (_ & _ & _ & _ & _ & Hbs & _);
      [apply in_or_app; right; left; reflexivity|].
    rewrite Hbs. exact Hsum.
Qed.

Lemma free_list_accounting_witness :
  sum_sizes [(Scenario.X + 168, 848); (Scenario.X + 1016, 0)]
  = sum_sizes [(Scenario.X + 108, 908); (Scenario.X + 1016, 0)]
    - block_size Scenario.pair (Scenario.X + 116).
Proof.
  apply (proj1 (free_list_accounting Scenario.start_block Scenario.small
                  [Scenario.X + 8] 0
                  [(Scenario.X + 108, 908); (Scenario.X + 1016, 0)]
                  ScenarioSteps.small_reachable ScenarioSteps.small_list)
           3%nat 50 Scenario.pair (Scenario.X + 116)).
  - vm_compute. split; [discriminate|reflexivity].
  - exact ScenarioSteps.pair_eq.
  - discriminate.
  - unfold free_list. cbn [lseg fst snd]. vm_compute. intuition discriminate.
Defined.

(** X11.  [mem_malloc] followed by [mem_free] of the pointer it returned
    restores the total of the sizes on the free list.  It moves
    [mem_available_bytes] by the bytes the block had beyond the size looked
    for: the counter is restored when the block has exactly that size,
    as every block that was split off has. *)
Theorem malloc_free_round_trip (start_block : Z) (s s1 s2 : state)
        (P : list Z) (D : Z) (fuel fuel' : nat) (sz p : Z) :
  reachable start_block s P D -> 0 <= sz < modulus ->
  mem_malloc start_block fuel s sz = Some (s1, p) -> p <> NULL ->
  mem_free start_block fuel' s1 p = Some s2 ->
  mem_available_bytes s2
  = wrap (mem_available_bytes s + (block_size s1 p - need sz))
  /\ (block_size s1 p = need sz ->
      mem_available_bytes s2 = mem_available_bytes s)
  /\ (forall L L2, free_list start_block s L -> free_list start_block s2 L2 ->
                   sum_sizes L2 = sum_sizes L).
Proof.
  intros Hr Hsz E Hp EF.
  destruct (reachable_heap_ok start_block s P D Hr)
    as (lo & L & Al & HOK & EP & Hav & _).
  destruct (mem_malloc_step start_block lo s s1 L Al sz p fuel HOK Hsz E)
    as [(Hn & _)|(P0 & c & sc & R & b & L1 & EL & _ & _ & _ & _ & Ep
                  & HOK1 & Hav1 & _ & Hsum1 & _)]; [contradiction|].
  destruct (mem_free_ok start_block lo s1 L1 [] Al (c, b) (S (length L1)) HOK1
              (Nat.lt_succ_diag_r _))
    as (s3 & E3 & Hav3 & _ & _ & _ & HOK3 & _ & Hsum3).
  cbn [fst snd app] in *. subst p.
  pose proof (mem_free_det _ _ _ _ _ _ _ EF E3). subst s3.
  destruct (alloc_facts start_block lo s1 L1 _ (c, b) HOK1
              (or_introl eq_refl)) as (_ & _ & _ & _ & _ & Hbs & _).
  unfold payload in Hbs. cbn [fst snd] in Hbs. rewrite META_eq in Hbs.
  rewrite Hbs.
  assert (Eav : mem_available_bytes s2
                = wrap (mem_available_bytes s + (b - need sz))).
  { rewrite Hav3, Hav1, wrap_add_l. f_equal. lia. }
  split; [exact Eav|]. split.
  - intros Eb. rewrite Eav, Eb, Z.sub_diag, Z.add_0_r, Hav.
    apply wrap_wrap.
  - intros L0 L2 HL0 HL2.
    pose proof (free_list_unique start_block lo s L L0 Al HOK HL0). subst L0.
    pose proof (free_list_unique start_block lo s2 _ L2 _ HOK3 HL2). subst L2.
    rewrite Hsum3. unfold node in *. lia.
Qed.

Lemma malloc_free_round_trip_witness :
  mem_available_bytes Scenario.back
  = wrap (mem_available_bytes Scenario.fresh
          + (block_size Scenario.small (Scenario.X + 8) - need 100))
  /\ (block_size Scenario.small (Scenario.X + 8) = need 100 ->
      mem_available_bytes Scenario.back = mem_available_bytes Scenario.fresh)
  /\ (forall L L2, free_list Scenario.start_block Scenario.fresh L ->
                   free_list Scenario.start_block Scenario.back L2 ->
                   sum_sizes L2 = sum_sizes L).
Proof.
  apply (malloc_free_round_trip Scenario.start_block Scenario.fresh
           Scenario.small Scenario.back [] 0 3 3 100 (Scenario.X + 8)).
  - exact ScenarioFacts.fresh_reachable.
  - vm_compute. split; [discriminate|reflexivity].
  - exact ScenarioSteps.small_eq.
  - discriminate.
  - exact ScenarioSteps.back_eq.
Defined.

(** X12.  First fit.  In a reachable state, when some block of the free
    list is at least as large as the size looked for, [mem_malloc]
    succeeds, and the block it hands out is the one of lowest address among
    the blocks of the free list that are large enough. *)
Theorem mem_malloc_first_fit (start_block : Z) (s : state) (P : list Z)
        (D : Z) (L : list node) (sz c sc : Z) (fuel : nat) :
  reachable start_block s P D -> free_list start_block s L ->
  0 < sz < 2 ^ 31 - 11 ->
  In (c, sc) L -> need sz <= sc ->
  (length L < fuel)%nat ->
  exists s' p sc0,
    mem_malloc start_block fuel s sz = Some (s', p)
    /\ p <> NULL
    /\ In (block_of p, sc0) L /\ need sz <= sc0
    /\ block_of p <= c
    /\ forall x, In x L -> fst x < block_of p -> snd x < need sz.
Proof.
  intros Hr HL Hsz Hin Hfit Hfuel.
  destruct (reachable_heap_ok start_block s P D Hr)
    as (lo & L0 & Al & HOK & _).
  pose proof (free_list_unique start_block lo s L0 L Al HOK HL). subst L0.
  pose proof (need_bounds sz ltac:(lia)) as [Hnb _].
  destruct (first_fit_split (need sz) L)
    as [HF|(P0 & c0 & sc0 & R & EL & HP & Hfit0)].
  { rewrite Forall_forall in HF. specialize (HF _ Hin). cbn [snd] in HF. lia. }
  subst L.
  destruct (mem_malloc_served start_block lo s Al P0 R c0 sc0 sz fuel HOK
              ltac:(lia) ltac:(lia) HP Hfit0 Hfuel)
    as (s1 & L' & b & E' & HOK' & _).
  destruct (alloc_facts start_block lo s1 L' _ (c0, b) HOK'
              (or_introl eq_refl)) as (_ & _ & _ & _ & Hbo & _ & Hpn).
  unfold payload in Hbo, Hpn. cbn [fst] in Hbo, Hpn. rewrite META_eq in *.
  pose proof (heap_list _ _ _ _ _ HOK) as LOK.
  pose proof (fit_before_rest start_block lo s P0 R c0 sc0 LOK) as HR.
  destruct (fit_bounds start_block lo s P0 R c0 sc0 LOK ltac:(lia))
    as (_ & _ & HPc).
  rewrite Forall_forall in HP, HR, HPc.
  exists s1, (c0 + 8), sc0. rewrite Hbo.
  split; [exact E'|]. split; [exact Hpn|].
  split; [apply in_or_app; right; left; reflexivity|].
  split; [exact Hfit0|]. split.
  - apply in_app_or in Hin. destruct Hin as [Hin|[Hin|Hin]].
    + specialize (HP _ Hin). cbn [snd] in HP. lia.
    + injection Hin as -> _. lia.
    + specialize (HR _ Hin). cbn [fst] in HR. lia.
  - intros x Hx Hlt. apply in_app_or in Hx. destruct Hx as [Hx|[Hx|Hx]].
    + apply HP. exact Hx.
    + subst x. cbn [fst] in Hlt. lia.
    + specialize (HR _ Hx). cbn beta in HR. lia.
Qed.

Lemma mem_malloc_first_fit_witness :
  exists s' p sc0,
    mem_malloc Scenario.start_block 3 Scenario.small 50 = Some (s', p)
    /\ p <> NULL
    /\ In (block_of p, sc0) [(Scenario.X + 108, 908); (Scenario.X + 1016, 0)]
    /\ need 50 <= sc0
    /\ block_of p <= Scenario.X + 108
    /\ forall x,
         In x [(Scenario.X + 108, 908); (Scenario.X + 1016, 0)] ->
         fst x < block_of p -> snd x < need 50.
Proof.
  apply (mem_malloc_first_fit Scenario.start_block Scenario.small
           [Scenario.X + 8] 0
           [(Scenario.X + 108, 908); (Scenario.X + 1016, 0)] 50
           (Scenario.X + 108) 908 3).
  - exact ScenarioSteps.small_reachable.
  - exact ScenarioSteps.small_list.
  - lia.
  - left. reflexivity.
  - vm_compute. discriminate.
  - cbn. lia.
Defined.

(** X13.  Freed memory can be allocated again: after [mem_free] of an
    outstanding pointer, a [mem_malloc] whose size looked for is at most
    the size of the block freed succeeds. *)
Theorem freed_block_reusable (start_block : Z) (s s' : state) (P : list Z)
        (D : Z) (fuel fuel' : nat) (p sz : Z) (L' : list node) :
  reachable start_block s P D -> In p P ->
  mem_free start_block fuel s p = Some s' ->
  0 < sz < 2 ^ 31 - 11 -> need sz <= block_size s p ->
  free_list start_block s' L' -> (length L' < fuel')%nat ->
  exists s'' q,
    mem_malloc start_block fuel' s' sz = Some (s'', q) /\ q <> NULL.
Proof.
  intros Hr Hin E Hsz Hfit HL' Hfuel.
  destruct (reachable_heap_ok start_block s P D Hr)
    as (lo & L & Al & HOK & EP & _).
  subst P. destruct (in_payloads _ _ Hin) as (A1 & a & A2 & -> & <-).
  destruct (mem_free_ok start_block lo s L A1 A2 a (S (length L)) HOK
              (Nat.lt_succ_diag_r _))
    as (s1 & E1 & _ & _ & _ & _ & HOK' & _).
  assert (Ea : payload a = fst a + 8) by (unfold payload; rewrite META_eq; lia).
  rewrite Ea in E.
  pose proof (mem_free_det _ _ _ _ _ _ _ E E1). subst s1.
  pose proof (free_list_unique start_block lo s' _ L' _ HOK' HL'). subst L'.
  destruct (alloc_facts start_block lo s L _ a HOK)
    as (_ & _ & _ & _ & _ & Hbs & _);
    [apply in_or_app; right; left; reflexivity|].
  rewrite Hbs in Hfit.
  destruct (coalesce_holds (end_block s) L a) as (x & Hx & Hsx).
  { eapply Forall_impl;
      [|exact (spaced_all _ _ _
                 (list_spaced _ _ _ _ (heap_list _ _ _ _ _ HOK)))].
    intros y Hy. cbn beta in Hy. lia. }
  pose proof (need_bounds sz ltac:(lia)) as [Hnb _].
  destruct (first_fit_split (need sz) (coalesce (end_block s) L a))
    as [HF|(P0 & c0 & sc0 & R & EL & HP & Hfit0)].
  { rewrite Forall_forall in HF. specialize (HF _ Hx). cbn beta in HF. lia. }
  rewrite EL in HOK', Hfuel.
  destruct (mem_malloc_served start_block lo s' _ P0 R c0 sc0 sz fuel' HOK'
              ltac:(lia) ltac:(lia) HP Hfit0 Hfuel)
    as (s2 & L2 & b & E2 & HOK2 & _).
  destruct (alloc_facts start_block lo s2 L2 _ (c0, b) HOK2
              (or_introl eq_refl)) as (_ & _ & _ & _ & _ & _ & Hpn).
  unfold payload in Hpn. cbn [fst] in Hpn. rewrite META_eq in Hpn.
  exists s2, (c0 + 8). split; [exact E2|exact Hpn].
Qed.

Lemma freed_block_reusable_witness :
  exists s'' q,
    mem_malloc Scenario.start_block 3 Scenario.released 1000 = Some (s'', q)
    /\ q <> NULL.
Proof.
  apply (freed_block_reusable Scenario.start_block Scenario.taken
           Scenario.released [Scenario.X + 8] 8 3 3 (Scenario.X + 8) 1000
           [(Scenario.X, 1016); (Scenario.X + 1016, 0)]).
  - exact ScenarioFacts.taken_reachable.
  - left. reflexivity.
  - exact ScenarioFacts.released_eq.
  - lia.
  - vm_compute. discriminate.
  - unfold free_list. cbn [lseg fst snd]. vm_compute. intuition discriminate.
  - cbn. lia.
Defined.

(** X14.  In every reachable state the allocator is initialised, so
    [mem_init] and [mem_assignmem] return 0 and change nothing: regions
    cannot be added after the first successful initialisation. *)
Theorem init_is_once_only (start_block : Z) (s : state) (P : list Z) (D : Z)
        (regions : list mem_region_t) :
  reachable start_block s P D ->
  end_block s <> NULL
  /\ mem_alloc_bit s = 2 ^ 31
  /\ mem_init start_block s regions = (s, 0)
  /\ mem_assignmem start_block s regions = (s, 0).
Proof.
  intros Hr.
  destruct (reachable_heap_ok start_block s P D Hr)
    as (lo & L & Al & HOK & _).
  destruct (end_block_nonnull start_block lo s L (heap_list _ _ _ _ _ HOK))
    as [_ Hne].
  split; [exact Hne|]. split; [exact (heap_bit _ _ _ _ _ HOK)|].
  unfold mem_assignmem.
  rewrite (mem_init_guarded start_block s regions Hne). split; reflexivity.
Qed.

Lemma init_is_once_only_witness :
  end_block Scenario.small <> NULL
  /\ mem_alloc_bit Scenario.small = 2 ^ 31
  /\ mem_init Scenario.start_block Scenario.small [mkRegion 8192 1024]
     = (Scenario.small, 0)
  /\ mem_assignmem Scenario.start_block Scenario.small [mkRegion 8192 1024]
     = (Scenario.small, 0).
Proof.
  apply (init_is_once_only Scenario.start_block Scenario.small
           [Scenario.X + 8] 0 [mkRegion 8192 1024]).
  exact ScenarioSteps.small_reachable.
Defined.

(** ** The free list mem_init builds *)

Section InitList.

Variable start_block : Z.

(** The first accepted region: the free list is its two blocks. *)
Lemma init_region_first_links (s : state) (r : mem_region_t) :
  0 < start_block -> start_block + 8 <= modulus ->
  region_ok start_block r -> kept r = true ->
  end_block s = NULL ->
  free_list start_block (init_region start_block s r) (region_blocks r).
Proof.
  intros Hs0 Hsfit (Hpos & Hr & Hout & Hroom) Hk Heb.
  rewrite kept_skipped in Hk by assumption.
  apply negb_true_iff in Hk. specialize (Hroom Hk).
  unfold skipped in Hk. apply orb_false_iff in Hk. destruct Hk as [Hk1 Hk2].
  unfold region_blocks.
  rewrite META_eq in *. change MEM_ALIGN_NUM with 4 in *.
  apply Z.ltb_ge in Hk1, Hk2.
  destruct (align_region_eq r Hr ltac:(lia)) as [E Hup].
  destruct (usable_size_bounds r Hr ltac:(lia)) as [_ Hb].
  pose proof modulus_eq as Hmod.
  set (a := align_up (start_addr r)) in *.
  set (n := usable_size r) in *.
  unfold init_region. rewrite META_eq. change MEM_ALIGN_NUM with 4.
  change (wrap (8 + 4)) with 12. rewrite E.
  destruct (Z.ltb_spec (size r) 12) as [|_]; [lia|].
  destruct (Z.ltb_spec n 12) as [|_]; [lia|].
  rewrite Heb. cbn [Z.eqb NULL negb]. change (0 =? 0) with true. cbv iota.
  destruct Hr as (Hr0 & Hr1 & Hr2).
  unwrap.
  match goal with
  | |- context [mkState ?m _ _ _ _] => set (m5 := m)
  end.
  assert (Hn5 : next_of m5 start_block = a) by (unfold m5; msimp; reflexivity).
  assert (Hna : next_of m5 a = a + n - 8) by (unfold m5; msimp; reflexivity).
  assert (Hsa : size_of m5 a = n - 8) by (unfold m5; msimp; reflexivity).
  assert (Hne : next_of m5 (a + n - 8) = NULL) by (unfold m5; msimp; reflexivity).
  assert (Hse : size_of m5 (a + n - 8) = 0) by (unfold m5; msimp; reflexivity).
  unfold free_list. cbn [mem lseg fst snd].
  rewrite Hn5, Hna, Hsa, Hne, Hse. unfold NULL. repeat split; lia.
Qed.

(** A later accepted region: its two blocks come after the blocks already
    on the list. *)
Lemma init_region_next_links (s : state) (r : mem_region_t) (lo : Z)
      (L : list node) :
  region_ok start_block r -> kept r = true ->
  list_ok start_block lo s L ->
  end_block s + 8 <= start_addr r ->
  free_list start_block (init_region start_block s r) (L ++ region_blocks r).
Proof.
  intros (Hpos & Hr & Hout & Hroom) Hk OK Hord.
  rewrite kept_skipped in Hk by assumption.
  apply negb_true_iff in Hk. specialize (Hroom Hk).
  unfold skipped in Hk. apply orb_false_iff in Hk. destruct Hk as [Hk1 Hk2].
  unfold region_blocks.
  rewrite META_eq in *. change MEM_ALIGN_NUM with 4 in *.
  apply Z.ltb_ge in Hk1, Hk2.
  destruct (align_region_eq r Hr ltac:(lia)) as [E Hup].
  destruct (usable_size_bounds r Hr ltac:(lia)) as [_ Hb].
  pose proof modulus_eq as Hmod.
  set (a := align_up (start_addr r)) in *.
  set (n := usable_size r) in *.
  pose proof (end_block_nonnull start_block lo s L OK) as [Hlo Hebn].
  pose proof (lo_pos _ _ _ _ OK) as Hlo0.
  pose proof (start_pos _ _ _ _ OK) as Hs0.
  pose proof (start_fits _ _ _ _ OK) as Hsfit. rewrite META_eq in Hsfit.
  destruct (list_tail _ _ _ _ OK) as [L0 EL].
  set (eb0 := end_block s) in *.
  set (tl2 := [(a, n - 8); (a + n - 8, 0)]).
  assert (Hbelow : Forall (fun x => fst x + foot x <= a) L).
  { pose proof (spaced_all _ _ _ (list_spaced _ _ _ _ OK)) as Hall.
    eapply Forall_impl; [|exact Hall]. intros x Hx. cbn beta in Hx.
    rewrite META_eq in Hx. lia. }
  assert (Hsa : Forall (hdr_off a) (chain start_block L)).
  { unfold chain. constructor.
    - unfold hdr_off. cbn [fst]. lia.
    - eapply Forall_impl; [|exact Hbelow]. intros x Hx. cbn beta in Hx.
      unfold hdr_off. pose proof (foot_ge x). lia. }
  assert (Hse : Forall (hdr_off (a + n - 8)) (chain start_block L)).
  { unfold chain. constructor.
    - unfold hdr_off. cbn [fst]. lia.
    - eapply Forall_impl; [|exact Hbelow]. intros x Hx. cbn beta in Hx.
      unfold hdr_off. pose proof (foot_ge x). lia. }
  pose proof (chain_lseg start_block lo s L OK) as Hch.
  assert (Ech : chain start_block L = chain start_block L0 ++ [(eb0, 0)])
    by (unfold chain; rewrite EL; reflexivity).
  pose proof (chain_sep start_block lo s L (chain start_block L0) []
                        (eb0, 0) OK Ech) as Hs0'.
  rewrite app_nil_r in Hs0'. cbn [fst] in Hs0'.
  rewrite Ech in Hch, Hsa, Hse.
  apply lseg_app in Hch. destruct Hch as [q [HK Hq]].
  cbn [lseg fst snd] in Hq. destruct Hq as (-> & _ & Hs0sz & _).
  apply Forall_app in Hsa. destruct Hsa as [HsaK Hsa0].
  apply Forall_cons_inv in Hsa0. destruct Hsa0 as [Hsa0 _].
  apply Forall_app in Hse. destruct Hse as [HseK Hse0].
  apply Forall_cons_inv in Hse0. destruct Hse0 as [Hse0 _].
  unfold hdr_off in Hsa0, Hse0. cbn [fst] in Hsa0, Hse0.
  unfold init_region. rewrite META_eq. change MEM_ALIGN_NUM with 4.
  change (wrap (8 + 4)) with 12. rewrite E.
  destruct (Z.ltb_spec (size r) 12) as [|_]; [lia|].
  destruct (Z.ltb_spec n 12) as [|_]; [lia|].
  fold eb0.
  destruct (Z.eqb_spec eb0 NULL) as [|_]; [contradiction|]. cbn [negb].
  destruct Hr as (Hr0 & Hr1 & Hr2).
  unwrap.
  match goal with
  | |- context [mkState ?m _ _ _ _] => set (m6 := m)
  end.
  assert (HK6 : lseg m6 start_block (chain start_block L0) eb0).
  { unfold m6. frame_lseg. }
  assert (Hn0 : next_of m6 eb0 = a) by (unfold m6; msimp; reflexivity).
  assert (Hz0 : size_of m6 eb0 = 0) by (unfold m6; msimp; assumption).
  assert (Hna : next_of m6 a = a + n - 8) by (unfold m6; msimp; reflexivity).
  assert (Hza : size_of m6 a = n - 8) by (unfold m6; msimp; reflexivity).
  assert (Hne : next_of m6 (a + n - 8) = NULL) by (unfold m6; msimp; reflexivity).
  assert (Hze : size_of m6 (a + n - 8) = 0) by (unfold m6; msimp; reflexivity).
  assert (Hch6 : lseg m6 start_block (chain start_block (L ++ tl2)) NULL).
  { replace (chain start_block (L ++ tl2))
      with (chain start_block L0 ++ (eb0, 0) :: tl2)
      by (unfold chain; rewrite EL, <- !app_assoc; reflexivity).
    apply lseg_app. exists eb0. split; [assumption|].
    unfold tl2. cbn [lseg fst snd].
    rewrite Hn0, Hz0, Hna, Hza, Hne, Hze. unfold NULL in *.
    repeat split; lia. }
  unfold chain in Hch6. cbn [lseg fst snd] in Hch6.
  destruct Hch6 as (_ & _ & _ & Hl6).
  unfold free_list. cbn [mem]. exact Hl6.
Qed.

(** The second loop of [mem_init], with the list it builds. *)
Lemma fold_init_links (regions : list mem_region_t) :
  forall s a n cap Lacc,
    0 < start_block -> start_block + 8 <= modulus ->
    Forall (region_ok start_block) regions ->
    regions_grow a n regions = true ->
    0 <= a + n < modulus ->
    init_inv start_block s (a + n) cap ->
    cap + total_size regions < 2 ^ 31 ->
    (end_block s = NULL -> Lacc = []) ->
    (end_block s <> NULL -> free_list start_block s Lacc) ->
    end_block (fold_left (init_region start_block) regions s) <> NULL ->
    free_list start_block (fold_left (init_region start_block) regions s)
              (Lacc ++ init_list regions).
Proof.
  induction regions as [|r rs IH];
    intros s a n cap Lacc Hs0 Hsfit HF Hg Han Hinv Htot Hnil Hlist Hne.
  - cbn [fold_left init_list flat_map] in *. rewrite app_nil_r.
    apply Hlist. exact Hne.
  - apply Forall_cons_inv in HF. destruct HF as [Hr HF].
    cbn [regions_grow] in Hg. rewrite wrap_small in Hg by lia.
    destruct (Z.gtb_spec (a + n) (start_addr r)) as [|Hle]; [discriminate|].
    cbn [total_size fold_right] in Htot. fold (total_size rs) in Htot.
    pose proof Hr as (Hpos & (Hr0 & Hr1 & Hr2) & _).
    pose proof (total_size_nonneg start_block rs HF) as Ht0.
    cbn [fold_left] in Hne |- *.
    assert (Hks : kept r = negb (skipped r)).
    { apply kept_skipped. repeat split; assumption. }
    unfold init_list. cbn [flat_map]. fold (init_list rs).
    destruct (kept r) eqn:Hk.
    + symmetry in Hks. apply negb_true_iff in Hks. rewrite Hks.
      rewrite app_assoc.
      assert (Hinv1 : init_inv start_block (init_region start_block s r)
                               (start_addr r + size r) (cap + size r)).
      { destruct Hinv as [Hcap [[Heb Hav] | (lo & L & OK & Hav & Hhw & Hf)]].
        - apply init_region_first; assumption.
        - rewrite META_eq in Hhw.
          apply (init_region_next start_block s r lo (a + n) cap L);
            try assumption; lia. }
      assert (Hne1 : end_block (init_region start_block s r) <> NULL).
      { destruct (init_region_kept start_block s r) as (H1 & H2 & He & _);
          [repeat split; assumption|assumption|].
        rewrite He.
        destruct (align_region_eq r) as [_ Hup];
          [repeat split; assumption|lia|].
        unfold NULL. lia. }
      apply (IH _ (start_addr r) (size r) (cap + size r));
        try assumption; try lia.
      intros _.
      destruct Hinv as [Hcap [[Heb Hav] | (lo & L & OK & Hav & Hhw & Hf)]].
      * rewrite (Hnil Heb). cbn [app].
        apply init_region_first_links; assumption.
      * destruct (end_block_nonnull start_block lo s L OK) as [_ Hn0].
        assert (L = Lacc).
        { eapply lseg_unique;
            [exact (list_links _ _ _ _ OK)|exact (Hlist Hn0)]. }
        subst L. rewrite META_eq in Hhw.
        apply (init_region_next_links s r lo Lacc); try assumption. lia.
    + symmetry in Hks. apply negb_false_iff in Hks. rewrite Hks.
      cbn [app]. rewrite init_region_skip in Hne |- * by assumption.
      apply (IH _ (start_addr r) (size r) (cap + size r));
        try assumption; try lia.
      destruct Hinv as [Hcap [[Heb Hav] | (lo & L & OK & Hav & Hhw & Hf)]].
      * split; [lia|]. left. split; assumption.
      * split; [lia|]. right. exists lo, L.
        rewrite META_eq in *.
        split; [assumption|]. split; [assumption|]. split; lia.
Qed.

End InitList.

(** The free list after a successful [mem_init]. *)
Lemma mem_init_links (start_block : Z) (s0 s : state)
      (regions : list mem_region_t) (k : Z) :
  regions_ok start_block regions ->
  Z.of_nat (length regions) < modulus ->
  uninitialised s0 ->
  mem_init start_block s0 regions = (s, k) -> k <> 0 ->
  free_list start_block s (init_list regions).
Proof.
  intros Hreg Hlen Hun Hinit Hk.
  destruct (mem_init_heap_ok start_block s0 s regions k Hreg Hlen Hun Hinit Hk)
    as (lo & L & HOK & Hav).
  destruct Hreg as (Hs0 & Hsfit & HF & Htot).
  destruct Hun as (Heb & Hav0 & Hcnt).
  rewrite META_eq in Hsfit.
  pose proof modulus_eq as Hmod.
  unfold mem_init in Hinit. rewrite Heb in Hinit.
  change (negb (NULL =? NULL)) with false in Hinit. cbv iota in Hinit.
  destruct (regions_grow 0 0 regions) eqn:Hg; cbn [negb] in Hinit;
    [|injection Hinit as _ Hz; congruence].
  set (s1 := fold_left (init_region start_block) regions s0) in *.
  injection Hinit as Es _.
  destruct (end_block_nonnull start_block lo s L (heap_list _ _ _ _ _ HOK))
    as [_ Hne].
  assert (HL1 : free_list start_block s1 ([] ++ init_list regions)).
  { apply (fold_init_links start_block regions s0 0 0 0 []);
      try assumption; try lia.
    - split; [lia|]. left. split; assumption.
    - reflexivity.
    - subst s. exact Hne. }
  cbn [app] in HL1. subst s. exact HL1.
Qed.

(** X15.  Let the regions satisfy [regions_ok]: each starts above address
    0, ends inside the address space and does not contain the static
    [start_block], each region that is not skipped has at least [2 * H]
    usable bytes (room for the header of its first block and for its
    sentinel), and the sizes total less than [2 ^ 31].  A successful
    [mem_init] of an uninitialised allocator over such regions builds this
    heap: the free list holds, for each region that is not skipped and in
    the order given, a first block at the aligned start of the region, of
    the usable size less one header, and a sentinel of size 0 in the last
    [H] bytes; [mem_available_bytes] is the total of those sizes, the
    allocated bit is the top bit, the region count is the value returned,
    and [end_block] is the last sentinel.  An accepted region of fewer than
    [2 * H] usable bytes is outside this statement: there the first header
    and the sentinel overlap. *)
Theorem mem_init_builds (start_block : Z) (s0 s : state)
        (regions : list mem_region_t) (k : Z) :
  regions_ok start_block regions ->
  Z.of_nat (length regions) < modulus ->
  uninitialised s0 ->
  mem_init start_block s0 regions = (s, k) -> k <> 0 ->
  free_list start_block s (init_list regions)
  /\ mem_available_bytes s = sum_sizes (init_list regions)
  /\ mem_regions_count s = k
  /\ k = regions_accepted regions
  /\ mem_alloc_bit s = 2 ^ 31
  /\ end_block s = fst (last (init_list regions) (NULL, 0)).
Proof.
  intros Hreg Hlen Hun Hinit Hk.
  pose proof (mem_init_links start_block s0 s regions k Hreg Hlen Hun Hinit Hk)
    as HL.
  destruct (mem_init_heap_ok start_block s0 s regions k Hreg Hlen Hun Hinit Hk)
    as (lo & L & HOK & Hav).
  destruct Hreg as (Hs0 & Hsfit & HF & Htot).
  destruct Hun as (Heb & Hav0 & Hcnt).
  pose proof (region_ok_in_space start_block regions HF) as Hsp.
  assert (Hord : ~ out_of_order regions).
  { intros Ho.
    rewrite (mem_init_unordered start_block s0 regions Hsp Ho) in Hinit.
    injection Hinit as _ <-. contradiction. }
  destruct (mem_init_passes start_block s0 regions Hsp Hlen Heb Hcnt Hord)
    as (s' & E' & Hc' & _ & _).
  rewrite Hinit in E'. injection E' as <- ->.
  pose proof (heap_list _ _ _ _ _ HOK) as LOK.
  assert (EL : init_list regions = L).
  { eapply lseg_unique; [exact HL|exact (list_links _ _ _ _ LOK)]. }
  split; [exact HL|]. split; [rewrite EL; exact Hav|].
  split; [exact Hc'|]. split; [reflexivity|].
  split; [exact (heap_bit _ _ _ _ _ HOK)|].
  rewrite EL. destruct (list_tail _ _ _ _ LOK) as (L0 & ->).
  rewrite last_last. reflexivity.
Qed.

Lemma mem_init_builds_witness :
  free_list Scenario.start_block Scenario.fresh (init_list Scenario.regions)
  /\ mem_available_bytes Scenario.fresh
     = sum_sizes (init_list Scenario.regions)
  /\ mem_regions_count Scenario.fresh = 1
  /\ 1 = regions_accepted Scenario.regions
  /\ mem_alloc_bit Scenario.fresh = 2 ^ 31
  /\ end_block Scenario.fresh
     = fst (last (init_list Scenario.regions) (NULL, 0)).
Proof.
  apply (mem_init_builds Scenario.start_block (pristine (fun _ => 0))
           Scenario.fresh Scenario.regions 1).
  - exact ScenarioFacts.regions_fit.
  - vm_compute. reflexivity.
  - repeat split.
  - exact ScenarioFacts.fresh_init.
  - discriminate.
Defined.

(** ** Properties of the blocks that every call preserves *)

(** A property [Q] of the free list and of the allocated blocks holds in
    every reachable state when it holds of the lists [mem_init] builds and
    is kept by the three ways the lists change: a block of the free list is
    handed out whole, it is split and the rest inserted, an allocated block
    is inserted. *)
Section ListInvariant.

Variable start_block : Z.
Variable Q : list node -> list node -> Prop.

Hypothesis Q_init :
  forall lo s regions,
    heap_ok start_block lo s (init_list regions) [] ->
    Q (init_list regions) [].

Hypothesis Q_whole :
  forall lo s P c sc R Al,
    heap_ok start_block lo s (P ++ (c, sc) :: R) Al -> 0 < sc ->
    Q (P ++ (c, sc) :: R) Al -> Q (P ++ R) ((c, sc) :: Al).

Hypothesis Q_split :
  forall lo s P c sc R Al sz,
    heap_ok start_block lo s (P ++ (c, sc) :: R) Al ->
    0 < sz < 2 ^ 31 -> need sz < 2 ^ 31 -> 16 < sc - need sz ->
    Q (P ++ (c, sc) :: R) Al ->
    Q (coalesce (end_block s) (P ++ R) (c + need sz, sc - need sz))
      ((c, need sz) :: Al).

Hypothesis Q_free :
  forall lo s L A1 a A2,
    heap_ok start_block lo s L (A1 ++ a :: A2) ->
    Q L (A1 ++ a :: A2) -> Q (coalesce (end_block s) L a) (A1 ++ A2).

Lemma lists_malloc (lo : Z) (s s' : state) (L Al : list node) (sz p : Z)
      (fuel : nat) :
  heap_ok start_block lo s L Al -> Q L Al -> 0 <= sz < modulus ->
  mem_malloc start_block fuel s sz = Some (s', p) ->
  (p = NULL /\ s' = s)
  \/ (exists a L',
        p = payload a /\ p <> NULL /\ sz + 8 <= snd a
        /\ heap_ok start_block lo s' L' (a :: Al) /\ Q L' (a :: Al)).
Proof.
  intros HOK HQ Hsz E.
  destruct (mem_malloc_step start_block lo s s' L Al sz p fuel HOK Hsz E)
    as [(Hn & Hs & _)|(P0 & c & sc & R & b & L' & EL & HP & Hfit & Hs & Hnd
                       & Ep & HOK' & _ & _ & _ & Hcase & _)]; [left; auto|].
  right. exists (c, b), L'.
  destruct (alloc_facts start_block lo s' L' _ (c, b) HOK' (or_introl eq_refl))
    as (_ & _ & _ & _ & _ & _ & Hpn).
  pose proof (need_bounds sz Hs) as [Hnb _].
  unfold payload in *. cbn [fst snd] in *. rewrite META_eq in *.
  split; [exact Ep|]. split; [rewrite Ep; exact Hpn|].
  split; [destruct Hcase as [(?&?&?)|(?&?&?)]; lia|].
  split; [exact HOK'|]. subst L.
  destruct Hcase as [(_ & -> & ->)|(Hgt & -> & ->)].
  - apply (Q_whole lo s); [exact HOK|lia|exact HQ].
  - apply (Q_split lo s); assumption.
Qed.

Lemma lists_free (lo : Z) (s s' : state) (L A1 A2 : list node) (a : node)
      (fuel : nat) :
  heap_ok start_block lo s L (A1 ++ a :: A2) -> Q L (A1 ++ a :: A2) ->
  mem_free start_block fuel s (payload a) = Some s' ->
  exists L', heap_ok start_block lo s' L' (A1 ++ A2) /\ Q L' (A1 ++ A2).
Proof.
  intros HOK HQ E.
  destruct (mem_free_ok start_block lo s L A1 A2 a (S (length L)) HOK
              (Nat.lt_succ_diag_r _))
    as (s1 & E1 & _ & _ & _ & _ & HOK' & _).
  unfold payload in E. rewrite META_eq in E.
  pose proof (mem_free_det _ _ _ _ _ _ _ E E1). subst s1.
  exists (coalesce (end_block s) L a). split; [exact HOK'|].
  apply (Q_free lo s); assumption.
Qed.

Lemma lists_filled (lo : Z) (s s' : state) (L Al : list node) (sz p : Z)
      (fuel : nat) (m' : memory) :
  heap_ok start_block lo s L Al -> Q L Al -> 0 <= sz < modulus ->
  mem_malloc start_block fuel s sz = Some (s', p) -> p <> NULL ->
  (forall y, y < p \/ p + sz <= y -> m' y = mem s' y) ->
  exists a L',
    p = payload a
    /\ heap_ok start_block lo (with_mem s' m') L' (a :: Al)
    /\ Q L' (a :: Al).
Proof.
  intros HOK HQ Hsz E Hp Hfr.
  destruct (lists_malloc lo s s' L Al sz p fuel HOK HQ Hsz E)
    as [[Hn _]|(a & L' & Ep & _ & Hsa & HOK' & HQ')]; [contradiction|].
  exists a, L'. split; [exact Ep|]. split; [|exact HQ'].
  apply (heap_ok_write start_block lo s' L' [] Al a m' HOK').
  intros y Hy. apply Hfr. subst p. unfold payload in *.
  rewrite META_eq in *. lia.
Qed.

Lemma reachable_lists (s : state) (P : list Z) (D : Z) :
  reachable start_block s P D ->
  exists lo L Al,
    heap_ok start_block lo s L Al /\ map payload Al = P /\ Q L Al.
Proof.
  induction 1 as
    [s0 s regions k Hreg Hlen Hun Hinit Hk
    |s s' P D fuel sz p Hr IH Hsz E Hp
    |s s' P D fuel sz Hr IH Hsz E
    |s s' P D fuel nitems sz p Hr IH E Hp
    |s s' P D fuel nitems sz Hr IH E
    |s s' P D fuel p Hr IH Hin E
    |s s' P D fuel Hr IH E
    |s s' P D fuel p sz q Hr IH Hin Hsz E Hq
    |s s' P D fuel p sz Hr IH Hin Hsz E
    |s P D p i v Hr IH Hin Hi].
  - destruct (mem_init_heap_ok start_block s0 s regions k Hreg Hlen Hun Hinit Hk)
      as (lo & L & HOK & _).
    pose proof (mem_init_links start_block s0 s regions k Hreg Hlen Hun Hinit Hk)
      as HL.
    assert (EL : init_list regions = L).
    { eapply lseg_unique;
        [exact HL|exact (list_links _ _ _ _ (heap_list _ _ _ _ _ HOK))]. }
    exists lo, L, []. split; [exact HOK|]. split; [reflexivity|].
    rewrite <- EL. apply (Q_init lo s). rewrite EL. exact HOK.
  - destruct IH as (lo & L & Al & HOK & EP & HQ).
    destruct (lists_malloc lo s s' L Al sz p fuel HOK HQ Hsz E)
      as [[Hn _]|(a & L' & Ep & _ & _ & HOK' & HQ')]; [contradiction|].
    exists lo, L', (a :: Al). cbn [map]. rewrite <- Ep, EP. auto.
  - destruct IH as (lo & L & Al & HOK & EP & HQ).
    destruct (lists_malloc lo s s' L Al sz NULL fuel HOK HQ Hsz E)
      as [[_ ->]|(a & L' & _ & Hn & _)]; [|congruence].
    exists lo, L, Al. auto.
  - destruct IH as (lo & L & Al & HOK & EP & HQ).
    destruct (mem_calloc_inv start_block fuel s s' nitems sz p E Hp)
      as (s1 & EM & ->).
    destruct (lists_filled lo s s1 L Al (wrap (sz * nitems)) p fuel
                (memset (mem s1) p 0 (wrap (sz * nitems))) HOK HQ
                (wrap_range _) EM Hp) as (a & L' & Ep & HOK' & HQ').
    { intros y Hy. apply memset_outside. exact Hy. }
    exists lo, L', (a :: Al). cbn [map]. rewrite <- Ep, EP. auto.
  - destruct IH as (lo & L & Al & HOK & EP & HQ). unfold mem_calloc in E.
    destruct (mem_malloc start_block fuel s (wrap (sz * nitems)))
      as [[s1 p1]|] eqn:EM; [|discriminate].
    destruct (Z.eqb_spec p1 NULL) as [Hz|Hz]; cbn [negb] in E;
      injection E as Es Ep1; [|congruence]. subst s1 p1.
    destruct (lists_malloc lo s s' L Al _ NULL fuel HOK HQ (wrap_range _) EM)
      as [[_ ->]|(a & L' & _ & Hn & _)]; [|congruence].
    exists lo, L, Al. auto.
  - destruct IH as (lo & L & Al & HOK & EP & HQ). subst P.
    destruct (in_payloads _ _ Hin) as (A1 & a & A2 & -> & <-).
    destruct (lists_free lo s s' L A1 A2 a fuel HOK HQ E)
      as (L' & HOK' & HQ').
    exists lo, L', (A1 ++ A2). split; [exact HOK'|]. split; [|exact HQ'].
    symmetry. apply remove_mid. eapply payload_inj; eassumption.
  - unfold mem_free in E. cbn in E. inversion E. subst. exact IH.
  - destruct IH as (lo & L & Al & HOK & EP & HQ). subst P.
    destruct (in_payloads _ _ Hin) as (A1 & a & A2 & -> & <-).
    destruct (alloc_facts start_block lo s L _ a HOK)
      as (_ & _ & _ & _ & _ & Hbs & Hpn);
      [apply in_or_app; right; left; reflexivity|].
    destruct (mem_realloc_inv start_block fuel s s' (payload a) sz q Hpn
                ltac:(lia) E Hq) as (s1 & EM & EF).
    destruct (lists_filled lo s s1 L _ sz q fuel
                (memcpy (mem s1) q (payload a) (Z.min (block_size s (payload a)) sz))
                HOK HQ ltac:(lia) EM Hq) as (b & L1 & Eq & HOK1 & HQ1).
    { intros y Hy. apply memcpy_outside. lia. }
    destruct (lists_free lo _ s' L1 (b :: A1) A2 a fuel HOK1 HQ1 EF)
      as (L' & HOK' & HQ').
    cbn [app] in HOK', HQ'.
    exists lo, L', (b :: A1 ++ A2). split; [exact HOK'|].
    split; [|exact HQ']. cbn [map]. rewrite <- Eq. f_equal.
    symmetry. apply remove_mid. eapply payload_inj; eassumption.
  - destruct IH as (lo & L & Al & HOK & EP & HQ). subst P.
    destruct (in_payloads _ _ Hin) as (A1 & a & A2 & -> & <-).
    destruct (alloc_facts start_block lo s L _ a HOK)
      as (_ & _ & _ & _ & _ & _ & Hpn);
      [apply in_or_app; right; left; reflexivity|].
    unfold mem_realloc in E.
    destruct (Z.eqb_spec sz 0) as [Hz|_]; [lia|].
    destruct (Z.eqb_spec (payload a) NULL) as [Hz|_]; [contradiction|].
    destruct (mem_malloc start_block fuel s sz) as [[s1 q1]|] eqn:EM;
      [|discriminate].
    destruct (Z.eqb_spec q1 NULL) as [Hz|Hz]; cbn [negb] in E.
    + inversion E. subst s1 q1.
      destruct (lists_malloc lo s s' L _ sz NULL fuel HOK HQ ltac:(lia) EM)
        as [[_ ->]|(b & L' & _ & Hn & _)]; [|congruence].
      exists lo, L, (A1 ++ a :: A2). auto.
    + destruct (mem_free _ _ _ _); [|discriminate]. inversion E. congruence.
  - destruct IH as (lo & L & Al & HOK & EP & HQ). subst P.
    destruct (in_payloads _ _ Hin) as (A1 & a & A2 & -> & <-).
    destruct (alloc_facts start_block lo s L _ a HOK)
      as (_ & _ & _ & _ & _ & Hbs & _);
      [apply in_or_app; right; left; reflexivity|].
    exists lo, L, (A1 ++ a :: A2). split; [|split; [reflexivity|exact HQ]].
    apply heap_ok_write; [exact HOK|].
    intros y Hy. apply store8_outside. rewrite Hbs in Hi.
    unfold payload in *. rewrite META_eq in *. lia.
Qed.

End ListInvariant.

(** *** Alignment *)

Lemma init_list_aligned (regions : list mem_region_t) :
  Forall aligned (init_list regions).
Proof.
  unfold init_list. induction regions as [|r rs IH]; [constructor|].
  cbn [flat_map]. apply Forall_app. split; [|exact IH].
  destruct (skipped r); [constructor|].
  unfold region_blocks, aligned, align_up, usable_size, align_down.
  rewrite META_eq. change MEM_ALIGN_NUM with 4. cbn [fst snd].
  set (u := (start_addr r + 4 - 1) / 4).
  set (v := (size r - (4 * u - start_addr r)) / 4).
  assert (E1 : (4 * u) mod 4 = 0) by (rewrite Z.mul_comm; apply Z.mod_mul; lia).
  assert (E2 : (4 * v - 8) mod 4 = 0).
  { replace (4 * v - 8) with ((v - 2) * 4) by lia. apply Z.mod_mul. lia. }
  assert (E3 : (4 * u + 4 * v - 8) mod 4 = 0).
  { replace (4 * u + 4 * v - 8) with ((u + v - 2) * 4) by lia.
    apply Z.mod_mul. lia. }
  repeat constructor; cbn [fst snd]; assumption.
Qed.

Lemma need_aligned (sz : Z) : 0 <= sz < 2 ^ 31 -> need sz mod 4 = 0.
Proof.
  intros Hsz. rewrite need_eq by assumption.
  replace (4 * ((sz + 3) / 4) + 8) with (((sz + 3) / 4 + 2) * 4) by lia.
  apply Z.mod_mul. lia.
Qed.

Lemma aligned_sum (x y : Z) : x mod 4 = 0 -> y mod 4 = 0 -> (x + y) mod 4 = 0.
Proof.
  intros Hx Hy. rewrite Z.add_mod, Hx, Hy by lia. reflexivity.
Qed.

Lemma aligned_diff (x y : Z) : x mod 4 = 0 -> y mod 4 = 0 -> (x - y) mod 4 = 0.
Proof.
  intros Hx Hy. rewrite Zminus_mod, Hx, Hy. reflexivity.
Qed.

Lemma coalesce_aligned (eb : Z) (L : list node) (n : node) :
  Forall aligned L -> aligned n -> Forall aligned (coalesce eb L n).
Proof.
  intros HL Hn. unfold coalesce.
  set (P := filter (below (fst n)) L).
  set (Q := filter (fun c => negb (below (fst n) c)) L).
  assert (HP : Forall aligned P).
  { rewrite Forall_forall in HL |- *. intros x Hx.
    apply filter_In in Hx. apply HL, Hx. }
  assert (HQ : Forall aligned Q).
  { rewrite Forall_forall in HL |- *. intros x Hx.
    apply filter_In in Hx. apply HL, Hx. }
  clearbody P Q.
  assert (Hl : Forall aligned (fst (absorb_left P n))
               /\ aligned (snd (absorb_left P n))).
  { destruct (snoc_case P) as [->|(P' & k & ->)]; [cbn; auto|].
    rewrite absorb_left_snoc.
    apply Forall_app in HP. destruct HP as [HP' Hk].
    apply Forall_inv in Hk.
    destruct (fst k + snd k =? fst n); cbn [fst snd].
    - split; [exact HP'|]. destruct Hk, Hn. split; cbn [fst snd];
        [assumption|apply aligned_sum; assumption].
    - split; [apply Forall_app; split; [exact HP'|constructor; auto]|exact Hn]. }
  destruct (absorb_left P n) as [P' n']. cbn [fst snd] in Hl.
  destruct Hl as [HP' Hn']. apply Forall_app. split; [exact HP'|].
  unfold absorb_right. destruct Q as [|b Q]; [constructor; auto|].
  pose proof (Forall_inv HQ) as Hb. pose proof (Forall_inv_tail HQ) as HQ'.
  destruct ((fst n' + snd n' =? fst b) && negb (fst b =? eb)).
  - constructor; [|exact HQ']. destruct Hn', Hb. split; cbn [fst snd];
      [assumption|apply aligned_sum; assumption].
  - constructor; assumption.
Qed.

(** In a reachable state the blocks of the free list and the allocated
    blocks are aligned. *)
Lemma reachable_aligned (start_block : Z) (s : state) (P : list Z) (D : Z) :
  reachable start_block s P D ->
  exists lo L Al,
    heap_ok start_block lo s L Al /\ map payload Al = P
    /\ Forall aligned (L ++ Al).
Proof.
  apply (reachable_lists start_block (fun L Al => Forall aligned (L ++ Al))).
  - intros lo s0 regions _. rewrite app_nil_r. apply init_list_aligned.
  - intros lo s0 P0 c sc R Al _ _ H.
    apply Forall_app in H. destruct H as [H HA].
    apply Forall_app in H. destruct H as [HP HR].
    apply Forall_cons_inv in HR. destruct HR as [Hc HR].
    apply Forall_app. split; [apply Forall_app; split; assumption|].
    constructor; assumption.
  - intros lo s0 P0 c sc R Al sz _ Hsz Hnd Hfit H.
    apply Forall_app in H. destruct H as [H HA].
    apply Forall_app in H. destruct H as [HP HR].
    apply Forall_cons_inv in HR. destruct HR as [[Hc Hsc] HR].
    cbn [fst snd] in Hc, Hsc. change MEM_ALIGN_NUM with 4 in Hc, Hsc.
    pose proof (need_aligned sz ltac:(lia)) as Hna.
    apply Forall_app. split.
    + apply coalesce_aligned; [apply Forall_app; split; assumption|].
      split; cbn [fst snd]; change MEM_ALIGN_NUM with 4;
        [apply aligned_sum|apply aligned_diff]; assumption.
    + constructor; [|exact HA]. split; assumption.
  - intros lo s0 L A1 a A2 _ H.
    apply Forall_app in H. destruct H as [HL HA].
    apply Forall_app in HA. destruct HA as [HA1 HA2].
    apply Forall_cons_inv in HA2. destruct HA2 as [Ha HA2].
    apply Forall_app. split; [apply coalesce_aligned; assumption|].
    apply Forall_app. split; assumption.
Qed.

(** X16.  Alignment.  In every reachable state each outstanding pointer is
    a multiple of 4, as is the size of its block, and so are the address
    and the size of every block of the free list; hence every pointer
    [mem_malloc] returns in a reachable state is a multiple of 4. *)
Theorem mem_malloc_aligned (start_block : Z) (s : state) (P : list Z)
        (D : Z) :
  reachable start_block s P D ->
  (forall q, In q P ->
     q mod MEM_ALIGN_NUM = 0 /\ block_size s q mod MEM_ALIGN_NUM = 0)
  /\ (forall L, free_list start_block s L -> Forall aligned L)
  /\ (forall fuel sz s' p,
        0 <= sz < modulus ->
        mem_malloc start_block fuel s sz = Some (s', p) ->
        p mod MEM_ALIGN_NUM = 0).
Proof.
  intros Hr.
  destruct (reachable_aligned start_block s P D Hr)
    as (lo & L & Al & HOK & EP & HA).
  apply Forall_app in HA. destruct HA as [HL HAl].
  assert (Hptr : forall c, c mod 4 = 0 -> (c + 8) mod 4 = 0).
  { intros c Hc. apply aligned_sum; [exact Hc|reflexivity]. }
  split; [|split].
  - intros q Hq. subst P. destruct (in_payload _ _ Hq) as (a & Ha & <-).
    destruct (alloc_facts start_block lo s L Al a HOK Ha)
      as (_ & _ & _ & _ & _ & Hbs & _).
    rewrite Forall_forall in HAl. destruct (HAl a Ha) as [H1 H2].
    rewrite Hbs. split; [|exact H2].
    unfold payload. rewrite META_eq. change MEM_ALIGN_NUM with 4 in *.
    apply Hptr. exact H1.
  - intros L' HL'.
    rewrite (free_list_unique start_block lo s L L' Al HOK HL'). exact HL.
  - intros fuel sz s' p Hsz E.
    destruct (mem_malloc_step start_block lo s s' L Al sz p fuel HOK Hsz E)
      as [(-> & _)|(P0 & c & sc & R & b & L' & EL & _ & _ & _ & _ & Ep & _)];
      [reflexivity|].
    subst p L. apply Forall_app in HL. destruct HL as [_ HL].
    apply Forall_inv in HL. destruct HL as [Hc _]. cbn [fst] in Hc.
    change MEM_ALIGN_NUM with 4 in *. apply Hptr. exact Hc.
Qed.

Lemma mem_malloc_aligned_witness :
  (forall q, In q [Scenario.X + 116; Scenario.X + 8] ->
     q mod MEM_ALIGN_NUM = 0
     /\ block_size Scenario.pair q mod MEM_ALIGN_NUM = 0)
  /\ (forall L, free_list Scenario.start_block Scenario.pair L ->
                Forall aligned L)
  /\ (forall fuel sz s' p,
        0 <= sz < modulus ->
        mem_malloc Scenario.start_block fuel Scenario.pair sz = Some (s', p) ->
        p mod MEM_ALIGN_NUM = 0).
Proof.
  apply (mem_malloc_aligned Scenario.start_block Scenario.pair
           [Scenario.X + 116; Scenario.X + 8] 0).
  exact ScenarioSteps.pair_reachable.
Defined.

(** *** Coalescing is complete *)

Lemma coalesced_split (A : list node) (x : node) (B : list node) :
  coalesced (A ++ x :: B) -> coalesced (A ++ [x]) /\ coalesced (x :: B).
Proof.
  induction A as [|a A IH]; intros H.
  - split; [cbn; auto|exact H].
  - cbn [app] in H |- *. destruct A as [|a' A].
    + cbn [app] in *. destruct H as [H1 H2]. split; [|exact H2].
      cbn. auto.
    + cbn [app coalesced] in H. destruct H as [H1 H2].
      destruct (IH H2) as [H3 H4]. split; [|exact H4].
      cbn [app coalesced]. split; [exact H1|exact H3].
Qed.

Lemma coalesced_join (A : list node) (x : node) (B : list node) :
  coalesced (A ++ [x]) -> coalesced (x :: B) -> coalesced (A ++ x :: B).
Proof.
  induction A as [|a A IH]; intros H1 H2; [exact H2|].
  cbn [app] in H1 |- *. destruct A as [|a' A].
  - cbn [app coalesced] in *. destruct H1 as [H1 _]. split; assumption.
  - cbn [app coalesced] in H1. destruct H1 as [H1 H3].
    cbn [app coalesced]. split; [exact H1|]. apply IH; assumption.
Qed.

(** The size of a block that its predecessor does not touch is free. *)
Lemma coalesced_resize (A : list node) (k sk S : Z) :
  coalesced (A ++ [(k, sk)]) -> sk <> 0 -> coalesced (A ++ [(k, S)]).
Proof.
  intros H Hsk. induction A as [|a A IH]; [cbn; auto|].
  cbn [app] in H |- *. destruct A as [|a' A].
  - cbn [app coalesced fst snd] in *. destruct H as [H _].
    split; [|auto]. intros Ht. exfalso. apply Hsk, H, Ht.
  - cbn [app coalesced] in H. destruct H as [H1 H2].
    cbn [app coalesced]. split; [exact H1|]. apply IH. exact H2.
Qed.

Lemma coalesced_same_end (x x' : node) (Q : list node) :
  fst x + snd x = fst x' + snd x' ->
  coalesced (x :: Q) -> coalesced (x' :: Q).
Proof.
  intros E H. destruct Q as [|y Q]; [cbn; auto|].
  cbn [coalesced] in *. destruct H as [H1 H2]. split; [|exact H2].
  intros Ht. apply H1. lia.
Qed.

Lemma coalesced_remove (P R : list node) (x : node) (lo hi : Z) :
  spaced lo (P ++ x :: R) hi ->
  coalesced (P ++ x :: R) -> coalesced (P ++ R).
Proof.
  intros Hsp H. destruct (coalesced_split _ _ _ H) as [HP HR].
  assert (HR' : coalesced R).
  { destruct R as [|y R]; [exact I|].
    cbn [coalesced] in HR. apply HR. }
  destruct (snoc_case P) as [->|(P0 & k & ->)]; [exact HR'|].
  rewrite <- app_assoc in HP, Hsp |- *. cbn [app] in HP, Hsp |- *.
  destruct (coalesced_split _ _ _ HP) as [HP0 _].
  apply coalesced_join; [exact HP0|].
  destruct R as [|y R]; [cbn; auto|].
  cbn [coalesced]. split; [|exact HR'].
  intros Ht. exfalso.
  apply spaced_app in Hsp. destruct Hsp as (mid & _ & Hsp).
  cbn [spaced] in Hsp. destruct Hsp as (_ & _ & Hkx & _ & Hy & _).
  pose proof (foot_ge x). pose proof (foot_ge k).
  unfold foot in *. lia.
Qed.

(** The terminal sentinel is the only block at its address. *)
Lemma sentinel_size (L0 : list node) (eb lo hi : Z) (b : node) :
  spaced lo (L0 ++ [(eb, 0)]) hi ->
  In b (L0 ++ [(eb, 0)]) -> fst b = eb -> snd b = 0.
Proof.
  intros Hsp Hin Hb. apply in_app_or in Hin.
  destruct Hin as [Hin|[<-|[]]]; [|reflexivity].
  apply spaced_app in Hsp. destruct Hsp as (mid & H1 & H2).
  cbn [spaced fst] in H2. destruct H2 as (H2 & _).
  pose proof (spaced_all _ _ _ H1) as Hall.
  rewrite Forall_forall in Hall. specialize (Hall b Hin). cbn beta in Hall.
  pose proof (foot_ge b). lia.
Qed.

(** The coalescing insertion keeps the list coalesced. *)
Lemma coalesce_coalesced (eb lo hi : Z) (L0 : list node) (n : node) :
  spaced lo (L0 ++ [(eb, 0)]) hi ->
  Forall (apart n) (L0 ++ [(eb, 0)]) ->
  fst n < eb -> 0 < snd n ->
  coalesced (L0 ++ [(eb, 0)]) ->
  coalesced (coalesce eb (L0 ++ [(eb, 0)]) n).
Proof.
  intros Hsp Hap Hlt Hsn HC.
  set (L := L0 ++ [(eb, 0)]) in *.
  destruct (spaced_split (fst n) L lo hi Hsp) as (P & Q & EL & HP & HQ).
  destruct Q as [|b Q].
  { exfalso. rewrite app_nil_r in EL. subst P.
    rewrite Forall_forall in HP.
    specialize (HP (eb, 0)). cbn [fst] in HP.
    assert (In (eb, 0) L) by (apply in_or_app; right; left; reflexivity).
    specialize (HP H). lia. }
  assert (Hbs : fst b = eb -> snd b = 0).
  { apply (sentinel_size L0 eb lo hi b Hsp).
    fold L. rewrite EL. apply in_or_app. right. left. reflexivity. }
  rewrite EL in HC, Hap |- *. rewrite coalesce_split by assumption.
  destruct (coalesced_split _ _ _ HC) as [HCP HCQ].
  (* the part from the new block on *)
  assert (Right : forall n',
            fst n' + snd n' = fst n + snd n ->
            exists S Q'',
              absorb_right eb n' (b :: Q) = (fst n', S) :: Q''
              /\ coalesced ((fst n', S) :: Q'')).
  { intros n' En. unfold absorb_right.
    destruct (Z.eqb_spec (fst n' + snd n') (fst b)) as [E1|E1];
      destruct (Z.eqb_spec (fst b) eb) as [E2|E2]; cbn [negb andb].
    - exists (snd n'), (b :: Q). split; [destruct n'; reflexivity|].
      cbn [coalesced fst snd]. split; [|exact HCQ]. auto.
    - exists (snd n' + snd b), Q. split; [reflexivity|].
      apply (coalesced_same_end b); [cbn [fst snd]; lia|exact HCQ].
    - exists (snd n'), (b :: Q). split; [destruct n'; reflexivity|].
      cbn [coalesced fst snd]. split; [|exact HCQ]. intros; lia.
    - exists (snd n'), (b :: Q). split; [destruct n'; reflexivity|].
      cbn [coalesced fst snd]. split; [|exact HCQ]. intros; lia. }
  destruct (snoc_case P) as [->|(P0 & k & ->)].
  - cbn [absorb_left rev app].
    destruct (Right n eq_refl) as (S & Q'' & -> & H). exact H.
  - rewrite absorb_left_snoc.
    rewrite <- app_assoc in HCP. cbn [app] in HCP.
    destruct (coalesced_split _ _ _ HCP) as [HCk Hkb].
    apply Forall_app in HP. destruct HP as [_ Hk].
    apply Forall_inv in Hk. cbn beta in Hk.
    destruct (Z.eqb_spec (fst k + snd k) (fst n)) as [Et|Et].
    + destruct (Right (fst k, snd k + snd n)) as (S & Q'' & -> & H);
        [cbn [fst snd]; lia|].
      cbn [fst] in H |- *. apply coalesced_join; [|exact H].
      apply (coalesced_resize P0 (fst k) (snd k)); [|lia].
      destruct k; exact HCk.
    + destruct (Right n eq_refl) as (S & Q'' & -> & H).
      rewrite <- app_assoc. cbn [app].
      apply coalesced_join; [exact HCk|].
      cbn [coalesced fst snd]. split; [|exact H]. intros; lia.
Qed.

Lemma init_list_coalesced (regions : list mem_region_t) :
  forall lo hi, spaced lo (init_list regions) hi ->
                coalesced (init_list regions).
Proof.
  unfold init_list. induction regions as [|r rs IH]; intros lo hi Hsp;
    [exact I|].
  cbn [flat_map] in Hsp |- *.
  destruct (skipped r); [cbn [app] in *; eapply IH; exact Hsp|].
  unfold region_blocks in Hsp |- *. cbn [app] in Hsp |- *.
  cbn [spaced fst snd] in Hsp. destruct Hsp as (_ & _ & _ & _ & Hsp).
  cbn [coalesced fst snd]. split; [auto|]. split; [|eapply IH; exact Hsp].
  destruct (flat_map _ rs) as [|y l]; [exact I|].
  cbn [spaced] in Hsp. destruct Hsp as (Hy & _).
  unfold foot in Hy. cbn [snd] in Hy. rewrite META_eq in *. intros; lia.
Qed.

(** In a reachable state the free list is coalesced. *)
Lemma reachable_coalesced (start_block : Z) (s : state) (P : list Z) (D : Z) :
  reachable start_block s P D ->
  exists lo L Al,
    heap_ok start_block lo s L Al /\ map payload Al = P /\ coalesced L.
Proof.
  apply (reachable_lists start_block (fun L _ => coalesced L)).
  - intros lo s0 regions HOK.
    eapply init_list_coalesced.
    exact (list_spaced _ _ _ _ (heap_list _ _ _ _ _ HOK)).
  - intros lo s0 P0 c sc R Al HOK _ H.
    eapply coalesced_remove; [|exact H].
    exact (list_spaced _ _ _ _ (heap_list _ _ _ _ _ HOK)).
  - intros lo s0 P0 c sc R Al sz HOK Hsz Hnd Hgt H.
    pose proof (heap_list _ _ _ _ _ HOK) as LOK.
    pose proof (list_spaced _ _ _ _ LOK) as Hsp.
    pose proof (need_bounds sz Hsz) as [_ H12].
    destruct (fit_not_last start_block lo s0 P0 R c sc LOK ltac:(lia))
      as (R0 & ER).
    destruct (fit_bounds start_block lo s0 P0 R c sc LOK ltac:(lia))
      as (_ & Hce & _).
    assert (EPR : P0 ++ R = (P0 ++ R0) ++ [(end_block s0, 0)])
      by (rewrite ER, app_assoc; reflexivity).
    pose proof (spaced_remove _ _ _ _ _ Hsp) as Hsp'.
    assert (Hap' : Forall (apart (c + need sz, sc - need sz)) (P0 ++ R)).
    { apply (spaced_inside_apart P0 R (c, sc) _ lo _ Hsp);
        unfold foot; cbn [fst snd]; rewrite ?META_eq; lia. }
    pose proof (coalesced_remove _ _ _ _ _ Hsp H) as HC'.
    unfold node in *. rewrite EPR in Hsp', Hap', HC' |- *.
    apply (coalesce_coalesced (end_block s0) lo
             (end_block s0 + MEM_BLOCK_META_SIZE)); try assumption.
    + cbn [fst]. unfold foot in Hce. cbn [snd] in Hce. rewrite META_eq in Hce.
      lia.
    + cbn [snd]. lia.
  - intros lo s0 L A1 a A2 HOK H.
    pose proof (heap_list _ _ _ _ _ HOK) as LOK.
    destruct (list_tail _ _ _ _ LOK) as (L0 & EL).
    destruct (alloc_facts start_block lo s0 L _ a HOK)
      as ((_ & Hae & _ & _ & _ & Hap) & Hsa & _);
      [apply in_or_app; right; left; reflexivity|].
    unfold chain in Hap. apply Forall_cons_inv in Hap.
    destruct Hap as [_ Hap].
    pose proof (list_spaced _ _ _ _ LOK) as Hsp.
    unfold node in *.
    rewrite EL in H, Hap, Hsp |- *.
    apply (coalesce_coalesced (end_block s0) lo
             (end_block s0 + MEM_BLOCK_META_SIZE)); try assumption; lia.
Qed.

(** X17.  Coalescing is complete.  In every reachable state, when a block
    of the free list ends exactly where the next block of the list starts,
    that next block is a sentinel (its size is 0): two free blocks of
    non-zero size are never left side by side. *)
Theorem free_list_coalesced (start_block : Z) (s : state) (P : list Z)
        (D : Z) (L : list node) :
  reachable start_block s P D -> free_list start_block s L ->
  forall A x y B,
    L = A ++ x :: y :: B -> fst x + snd x = fst y -> snd y = 0.
Proof.
  intros Hr HL A x y B EL Ht.
  destruct (reachable_coalesced start_block s P D Hr)
    as (lo & L0 & Al & HOK & _ & HC).
  rewrite <- (free_list_unique start_block lo s L0 L Al HOK HL) in HC.
  rewrite EL in HC. apply coalesced_split in HC. destruct HC as [_ HC].
  cbn [coalesced] in HC. apply HC. exact Ht.
Qed.

Lemma free_list_coalesced_witness :
  fst (Scenario.X, 1016) + snd (Scenario.X, 1016) = fst (Scenario.X + 1016, 0)
  /\ snd (Scenario.X + 1016, 0) = 0.
Proof.
  split; [reflexivity|].
  apply (free_list_coalesced Scenario.start_block Scenario.back [] 0
           [(Scenario.X, 1016); (Scenario.X + 1016, 0)]
           ltac:(change (@nil Z)
                   with (remove Z.eq_dec (Scenario.X + 8) [Scenario.X + 8]);
                 apply (reach_free Scenario.start_block Scenario.small
                          Scenario.back [Scenario.X + 8] 0 3 (Scenario.X + 8)
                          ScenarioSteps.small_reachable (or_introl eq_refl)
                          ScenarioSteps.back_eq))
           ltac:(unfold free_list; cbn [lseg fst snd]; vm_compute;
                 intuition discriminate)
           [] (Scenario.X, 1016) (Scenario.X + 1016, 0) []).
  - reflexivity.
  - reflexivity.
Defined.

(** ** Edges: the smallest region, and calls before mem_init *)

(** X18.  A region with exactly [H + A = 12] usable bytes is accepted, but
    its sentinel is put 4 bytes after its first block, inside that block's
    header: the [size] field of the first block and the [next] field of the
    sentinel are the same word.  After [mem_init] of such a region alone,
    the [next] of [end_block] is 4, not [NULL]; when another accepted
    region follows, linking it overwrites the size of the first block with
    the address of the next region. *)
Theorem tight_region_aliases (start_block : Z) (s0 : state)
        (r r2 : mem_region_t) :
  uninitialised s0 ->
  in_space r -> 12 <= size r -> usable_size r = 12 ->
  in_space r2 -> skipped r2 = false ->
  start_addr r + size r <= start_addr r2 ->
  snd (mem_init start_block s0 [r]) = 1
  /\ end_block (fst (mem_init start_block s0 [r]))
     = align_up (start_addr r) + 4
  /\ next_of (mem (fst (mem_init start_block s0 [r])))
             (end_block (fst (mem_init start_block s0 [r]))) = 4
  /\ snd (mem_init start_block s0 [r; r2]) = 2
  /\ size_of (mem (fst (mem_init start_block s0 [r; r2])))
             (align_up (start_addr r))
     = align_up (start_addr r2).
Proof.
  intros (Heb & Hav & Hcnt) Hr H12 Hu Hr2 Hk2 Hord.
  pose proof modulus_eq as Hmod.
  destruct (align_region_eq r Hr H12) as [E Hup].
  destruct (usable_size_bounds r Hr H12) as [_ Hb].
  unfold skipped in Hk2. apply orb_false_iff in Hk2.
  destruct Hk2 as [Hk21 Hk22]. rewrite META_eq in *.
  change MEM_ALIGN_NUM with 4 in *. apply Z.ltb_ge in Hk21, Hk22.
  destruct (align_region_eq r2 Hr2 ltac:(lia)) as [E2 Hup2].
  destruct (usable_size_bounds r2 Hr2 ltac:(lia)) as [_ Hb2].
  destruct Hr as (Hr0 & Hr1 & Hr2').
  destruct Hr2 as (Hq0 & Hq1 & Hq2).
  set (a := align_up (start_addr r)) in *.
  set (a2 := align_up (start_addr r2)) in *.
  set (n2 := usable_size r2) in *.
  (* the pass of the loop over the tight region *)
  assert (S1 : exists m1,
            init_region start_block s0 r
            = mkState m1 (a + 4) (mem_alloc_bit s0) 4 1
            /\ next_of m1 (a + 4) = 4).
  { unfold init_region. rewrite META_eq. change MEM_ALIGN_NUM with 4.
    change (wrap (8 + 4)) with 12. rewrite E, Hu.
    destruct (Z.ltb_spec (size r) 12) as [|_]; [lia|].
    change (12 <? 12) with false. cbv iota.
    rewrite Heb, Hav, Hcnt. cbn [Z.eqb NULL negb].
    change (0 =? 0) with true. cbv iota.
    unwrap. rewrite size_set_size_same. unwrap.
    replace (a + 12 - 8) with (a + 4) by lia.
    eexists. split; [reflexivity|].
    unfold next_of, set_size. apply load_store_same_small. lia. }
  destruct S1 as (m1 & ES1 & Hn1).
  (* the pass over the region that follows *)
  assert (S2 : exists m2 eb2 av2,
            init_region start_block (mkState m1 (a + 4) (mem_alloc_bit s0) 4 1)
                        r2
            = mkState m2 eb2 (mem_alloc_bit s0) av2 2
            /\ size_of m2 a = a2).
  { unfold init_region. rewrite META_eq. change MEM_ALIGN_NUM with 4.
    change (wrap (8 + 4)) with 12. rewrite E2. fold n2.
    destruct (Z.ltb_spec (size r2) 12) as [|_]; [lia|].
    destruct (Z.ltb_spec n2 12) as [|_]; [lia|].
    cbn [end_block mem mem_alloc_bit mem_available_bytes mem_regions_count].
    destruct (Z.eqb_spec (a + 4) NULL) as [Hz|_]; [unfold NULL in Hz; lia|].
    cbn [negb]. change (wrap (1 + 1)) with 2.
    eexists. eexists. eexists. split; [reflexivity|].
    unfold size_of, set_next. apply load_store_same_small. lia. }
  destruct S2 as (m2 & eb2 & av2 & ES2 & Hs2).
  assert (I1 : mem_init start_block s0 [r]
               = (mkState m1 (a + 4)
                          (wrap (Z.shiftl 1 (sizeof_size_t * CHAR_BIT - 1)))
                          4 1, 1)).
  { unfold mem_init. rewrite Heb. cbn [Z.eqb NULL negb regions_grow].
    change (0 =? 0) with true. cbn [negb].
    rewrite (wrap_small (0 + 0)) by lia.
    destruct (Z.gtb_spec (0 + 0) (start_addr r)) as [|_]; [lia|].
    cbn [negb fold_left]. rewrite ES1. reflexivity. }
  assert (I2 : mem_init start_block s0 [r; r2]
               = (mkState m2 eb2
                          (wrap (Z.shiftl 1 (sizeof_size_t * CHAR_BIT - 1)))
                          av2 2, 2)).
  { unfold mem_init. rewrite Heb. cbn [Z.eqb NULL negb regions_grow].
    change (0 =? 0) with true. cbn [negb].
    rewrite (wrap_small (0 + 0)) by lia.
    destruct (Z.gtb_spec (0 + 0) (start_addr r)) as [|_]; [lia|].
    rewrite (wrap_small (start_addr r + size r)) by lia.
    destruct (Z.gtb_spec (start_addr r + size r) (start_addr r2)) as [|_];
      [lia|].
    cbn [negb fold_left]. rewrite ES1, ES2. reflexivity. }
  rewrite I1, I2. cbn [fst snd mem end_block].
  repeat split; assumption || reflexivity.
Qed.

Lemma tight_region_aliases_witness :
  snd (mem_init Scenario.start_block (pristine (fun _ => 0))
                [mkRegion Scenario.X 12]) = 1
  /\ end_block (fst (mem_init Scenario.start_block (pristine (fun _ => 0))
                              [mkRegion Scenario.X 12]))
     = align_up (start_addr (mkRegion Scenario.X 12)) + 4
  /\ next_of (mem (fst (mem_init Scenario.start_block (pristine (fun _ => 0))
                                 [mkRegion Scenario.X 12])))
             (end_block (fst (mem_init Scenario.start_block
                                       (pristine (fun _ => 0))
                                       [mkRegion Scenario.X 12]))) = 4
  /\ snd (mem_init Scenario.start_block (pristine (fun _ => 0))
                   [mkRegion Scenario.X 12; mkRegion 8192 1024]) = 2
  /\ size_of (mem (fst (mem_init Scenario.start_block (pristine (fun _ => 0))
                                 [mkRegion Scenario.X 12;
                                  mkRegion 8192 1024])))
             (align_up (start_addr (mkRegion Scenario.X 12)))
     = align_up (start_addr (mkRegion 8192 1024)).
Proof.
  apply (tight_region_aliases Scenario.start_block (pristine (fun _ => 0))
           (mkRegion Scenario.X 12) (mkRegion 8192 1024)).
  - repeat split.
  - vm_compute. repeat split; discriminate.
  - vm_compute. discriminate.
  - vm_compute. reflexivity.
  - vm_compute. repeat split; discriminate.
  - vm_compute. reflexivity.
  - vm_compute. discriminate.
Defined.

(** X19.  Before any [mem_init] ([end_block] null and the allocated bit
    still 0), no call changes anything: [mem_malloc], [mem_calloc] and
    [mem_realloc] return [NULL], and [mem_free] of any pointer is ignored,
    whatever the memory holds. *)
Theorem calls_before_init (start_block : Z) (s : state) (fuel : nat)
        (p n k : Z) :
  end_block s = NULL -> mem_alloc_bit s = 0 ->
  mem_malloc start_block fuel s n = Some (s, NULL)
  /\ mem_calloc start_block fuel s k n = Some (s, NULL)
  /\ mem_free start_block fuel s p = Some s
  /\ mem_realloc start_block fuel s p n = Some (s, NULL).
Proof.
  intros Heb Hbit.
  assert (HM : forall x, mem_malloc start_block fuel s x = Some (s, NULL)).
  { intros x. unfold mem_malloc. rewrite Heb. reflexivity. }
  assert (HF : forall q, mem_free start_block fuel s q = Some s).
  { intros q. unfold mem_free. rewrite Hbit, Z.land_0_r.
    destruct (q =? NULL); reflexivity. }
  split; [apply HM|]. split; [unfold mem_calloc; rewrite HM; reflexivity|].
  split; [apply HF|].
  unfold mem_realloc. rewrite HM, HF.
  destruct (n =? 0); destruct (p =? NULL); reflexivity.
Qed.

Lemma calls_before_init_witness :
  mem_malloc Scenario.start_block 0 (pristine (fun _ => 0)) 16
  = Some (pristine (fun _ => 0), NULL)
  /\ mem_calloc Scenario.start_block 0 (pristine (fun _ => 0)) 4 16
     = Some (pristine (fun _ => 0), NULL)
  /\ mem_free Scenario.start_block 0 (pristine (fun _ => 0)) 4104
     = Some (pristine (fun _ => 0))
  /\ mem_realloc Scenario.start_block 0 (pristine (fun _ => 0)) 4104 16
     = Some (pristine (fun _ => 0), NULL).
Proof.
  apply (calls_before_init Scenario.start_block (pristine (fun _ => 0)) 0
           4104 16 4); reflexivity.
Defined.

(** X20.  The counter in full.  In every reachable state
    [mem_available_bytes] is, as a [size_t], the total of the sizes on the
    free list plus the bytes by which the blocks handed out so far exceeded
    the sizes looked for; that excess is never negative, and each
    outstanding block is smaller than [2^31], the allocated bit. *)
Theorem available_bytes_exact (start_block : Z) (s : state) (P : list Z)
        (D : Z) (L : list node) :
  reachable start_block s P D -> free_list start_block s L ->
  mem_available_bytes s = wrap (sum_sizes L + D)
  /\ 0 <= D
  /\ 0 <= sum_sizes L < 2 ^ 31
  /\ forall q, In q P -> 12 <= block_size s q < 2 ^ 31.
Proof.
  intros Hr HL.
  destruct (reachable_heap_ok start_block s P D Hr)
    as (lo & L0 & Al & HOK & EP & Hav & HD).
  pose proof (free_list_unique start_block lo s L0 L Al HOK HL). subst L0.
  split; [exact Hav|]. split; [exact HD|]. split.
  - pose proof (heap_list _ _ _ _ _ HOK) as LOK.
    pose proof (spaced_sum _ _ _ (list_spaced _ _ _ _ LOK)).
    pose proof (sum_sizes_le_foots L).
    pose proof (heap_total _ _ _ _ _ HOK) as Ht.
    assert (0 <= sum_sizes Al).
    { pose proof (heap_alloc _ _ _ _ _ HOK) as HA. clear -HA.
      induction HA as [|a Al Ha _ IH]; [cbn; lia|].
      apply allocated_size in Ha. cbn [sum_sizes fold_right].
      fold (sum_sizes Al). lia. }
    unfold node in *. lia.
  - intros q Hq. subst P. destruct (in_payload _ _ Hq) as (a & Ha & <-).
    destruct (alloc_facts start_block lo s L Al a HOK Ha)
      as (_ & Hsa & _ & _ & _ & Hbs & _).
    rewrite Hbs. exact Hsa.
Qed.

Lemma available_bytes_exact_witness :
  mem_available_bytes Scenario.released
  = wrap (sum_sizes [(Scenario.X, 1016); (Scenario.X + 1016, 0)] + 8)
  /\ 0 <= 8
  /\ 0 <= sum_sizes [(Scenario.X, 1016); (Scenario.X + 1016, 0)] < 2 ^ 31
  /\ forall q, In q [] -> 12 <= block_size Scenario.released q < 2 ^ 31.
Proof.
  apply (available_bytes_exact Scenario.start_block Scenario.released [] 8
           [(Scenario.X, 1016); (Scenario.X + 1016, 0)]).
  - exact ScenarioFacts.released_reachable.
  - unfold free_list. cbn [lseg fst snd]. vm_compute. intuition discriminate.
Defined.
